(** * secure-gotcp: the connection core (conn.go, server.go)

    An interleaving model of the accept loop, the per-connection workers,
    the bounded packet queues and the close / shutdown protocol.

    Every goroutine is a thread with a program counter that names the
    statement of the source it executes next.  A step of the system runs
    one statement of one thread; the application is any sequence of calls
    to the exported methods, each on a thread of its own.  Channels,
    [sync.Once] and [sync.WaitGroup] follow the Go runtime; the Protocol,
    the callbacks and the sockets are an environment [Env] the core calls
    into. *)

From stdpp Require Import base option list numbers.
From Stdlib Require Import ZArith Lia.

Set Default Proof Using "Type".
Open Scope Z_scope.

(** ** Packets and errors *)

(** [Packet] is an interface; [nilPacket] is its zero value, which a receive
    from a closed, drained channel yields. *)
Inductive Packet := nilPacket | mkPacket (id : nat).

Inductive error := ErrConnClosing | ErrWriteBlocking | ErrReadBlocking.

#[global] Instance Packet_eq_dec : EqDecision Packet.
Proof. solve_decision. Defined.
#[global] Instance error_eq_dec : EqDecision error.
Proof. solve_decision. Defined.

(** ** Buffered channels of packets *)

Module Chan.

Record t := mk { cap : nat; buf : list Packet; closed : bool }.

(** [make(chan Packet, n)] *)
Definition make (n : nat) : t := mk n [] false.

(** [close(ch)]; closing a closed channel panics ([None]). *)
Definition close (ch : t) : option t :=
  if closed ch then None else Some (mk (cap ch) (buf ch) true).

Inductive send_result := SendPanic | SendOk (ch' : t) | SendBlock.

(** [ch <- p] when no receiver is parked on [ch]: a send on a closed
    channel panics, a send with room in the buffer enqueues, any other
    send cannot proceed. *)
Definition send (ch : t) (p : Packet) : send_result :=
  if closed ch then SendPanic
  else if (length (buf ch) <? cap ch)%nat
       then SendOk (mk (cap ch) (buf ch ++ [p]) false)
       else SendBlock.

Inductive recv_result := RecvOk (p : Packet) (ch' : t) | RecvBlock.

(** [<-ch]: the oldest buffered packet; the zero value once the channel
    is closed and drained; otherwise the receive cannot proceed. *)
Definition recv (ch : t) : recv_result :=
  match buf ch with
  | p :: q => RecvOk p (mk (cap ch) q (closed ch))
  | [] => if closed ch then RecvOk nilPacket ch else RecvBlock
  end.

(** A sender may hand its packet directly to a parked receiver: the
    channel is open and its buffer empty. *)
Definition can_handoff (ch : t) : bool :=
  negb (closed ch) && bool_decide (buf ch = []).

End Chan.

(** ** Connections *)

(** [Conn] of conn.go.  [once_done] and [once_m] are the two fields of
    [closeOnce] ([sync.Once]: the done flag and the mutex, with the thread
    that holds it); [closeChan] is a [chan struct{}] that is only ever
    closed, so it is its closed bit; [rawClosed] tells whether
    [c.conn.Close()] ran.  [nread], [nwrite] and [nmsg] count the calls made
    to ReadPacket, conn.Write and OnMessage.  The user-data slot
    [extraData] plays no part in the core and is left out. *)
Record Conn := mkConn {
  once_done : bool;
  once_m : option nat;
  closeFlag : Z;
  closeChan : bool;
  packetSendChan : Chan.t;
  packetReceiveChan : Chan.t;
  rawClosed : bool;
  nread : nat;
  nwrite : nat;
  nmsg : nat;
}.

Definition set_once_done (b : bool) (c : Conn) : Conn :=
  mkConn b (once_m c) (closeFlag c) (closeChan c) (packetSendChan c)
    (packetReceiveChan c) (rawClosed c) (nread c) (nwrite c) (nmsg c).
Definition set_once_m (m : option nat) (c : Conn) : Conn :=
  mkConn (once_done c) m (closeFlag c) (closeChan c) (packetSendChan c)
    (packetReceiveChan c) (rawClosed c) (nread c) (nwrite c) (nmsg c).
Definition set_closeFlag (v : Z) (c : Conn) : Conn :=
  mkConn (once_done c) (once_m c) v (closeChan c) (packetSendChan c)
    (packetReceiveChan c) (rawClosed c) (nread c) (nwrite c) (nmsg c).
Definition set_closeChan (b : bool) (c : Conn) : Conn :=
  mkConn (once_done c) (once_m c) (closeFlag c) b (packetSendChan c)
    (packetReceiveChan c) (rawClosed c) (nread c) (nwrite c) (nmsg c).
Definition set_packetSendChan (ch : Chan.t) (c : Conn) : Conn :=
  mkConn (once_done c) (once_m c) (closeFlag c) (closeChan c) ch
    (packetReceiveChan c) (rawClosed c) (nread c) (nwrite c) (nmsg c).
Definition set_packetReceiveChan (ch : Chan.t) (c : Conn) : Conn :=
  mkConn (once_done c) (once_m c) (closeFlag c) (closeChan c)
    (packetSendChan c) ch (rawClosed c) (nread c) (nwrite c) (nmsg c).
Definition set_rawClosed (b : bool) (c : Conn) : Conn :=
  mkConn (once_done c) (once_m c) (closeFlag c) (closeChan c)
    (packetSendChan c) (packetReceiveChan c) b (nread c) (nwrite c) (nmsg c).
Definition incr_nread (c : Conn) : Conn :=
  mkConn (once_done c) (once_m c) (closeFlag c) (closeChan c)
    (packetSendChan c) (packetReceiveChan c) (rawClosed c) (S (nread c))
    (nwrite c) (nmsg c).
Definition incr_nwrite (c : Conn) : Conn :=
  mkConn (once_done c) (once_m c) (closeFlag c) (closeChan c)
    (packetSendChan c) (packetReceiveChan c) (rawClosed c) (nread c)
    (S (nwrite c)) (nmsg c).
Definition incr_nmsg (c : Conn) : Conn :=
  mkConn (once_done c) (once_m c) (closeFlag c) (closeChan c)
    (packetSendChan c) (packetReceiveChan c) (rawClosed c) (nread c)
    (nwrite c) (S (nmsg c)).

(** [IsClosed]: [atomic.LoadInt32(&c.closeFlag) == 1] *)
Definition IsClosed (c : Conn) : bool := closeFlag c =? 1.

(** ** The environment *)

(** [Config] of server.go, and what the core calls but does not define:
    the listeners, the Protocol, the callbacks, the sockets.  A call's
    result is a function of the connection (or listener) and of the number
    of earlier calls of the same kind on it.  [ReadPacket] gives [None] for
    a non-nil error; [Write] and [Accept] give [false] for one. *)
Record Env := mkEnv {
  PacketSendChanLimit : N;
  PacketReceiveChanLimit : N;
  isTCPListener : nat → bool;
  Accept : nat → nat → bool;
  OnConnect : nat → bool;
  OnMessage : nat → nat → Packet → bool;
  ReadPacket : nat → nat → option Packet;
  Write : nat → nat → Packet → bool;
}.

(** [newConn] *)
Definition newConn (E : Env) : Conn :=
  {| once_done := false; once_m := None; closeFlag := 0;
     closeChan := false;
     packetSendChan := Chan.make (N.to_nat (PacketSendChanLimit E));
     packetReceiveChan := Chan.make (N.to_nat (PacketReceiveChanLimit E));
     rawClosed := false; nread := 0; nwrite := 0; nmsg := 0 |}.

(** ** Threads *)

(** The three workers of a connection. *)
Inductive loop := HandleLoop | ReadLoop | WriteLoop.

(** What follows a call of [Close]: the rest of a worker ([wg.Done()] of
    [asyncDo]), or the return to the application. *)
Inductive after := ThenDone (w : loop) | ThenReturn.

(** The exported methods the application calls; [CallStart l] is
    [Start(l, acceptTimeout)] on listener [l]. *)
Inductive call :=
| CallStart (l : nat)
| CallStop
| CallClose (c : nat)
| CallWrite (c : nat) (p : Packet) (timeout : Z).

(** Program counters: the statement a thread executes next. *)
Inductive pc :=
(* Server.Start *)
| StartAdd (l : nat)              (* s.waitGroup.Add(1) *)
| StartSelect (l k : nat)         (* select { case <-s.exitChan: return; default: } *)
| StartDeadline (l k : nat)       (* l.SetDeadline(...) on a TCP listener *)
| StartAccept (l k : nat)         (* conn, err := listener.Accept() *)
| StartConnAdd (l k : nat)        (* s.waitGroup.Add(1) *)
| StartGo (l k : nat)             (* go func() { ... }() *)
| StartListenerClose (l : nat)    (* deferred: listener.Close() *)
| StartDone                       (* deferred: s.waitGroup.Done() *)
(* the goroutine of Start: newConn(conn, s).Do(); s.waitGroup.Done() *)
| ConnNew                         (* newConn(conn, s) *)
| DoOnConnect (c : nat)           (* if !c.srv.callback.OnConnect(c) { return } *)
| DoAdd (c : nat) (w : loop)      (* asyncDo: wg.Add(1) *)
| DoGo (c : nat) (w : loop)       (* asyncDo: go func() { fn(); wg.Done() }() *)
| ConnDone                        (* s.waitGroup.Done() *)
(* readLoop, writeLoop, handleLoop *)
| LoopAddr (c : nat) (w : loop)   (* addr := c.conn.RemoteAddr().String() *)
| LoopSelect (c : nat) (w : loop) (* the select at the top of the loop *)
| ReadCall (c : nat)              (* p, err := c.srv.protocol.ReadPacket(c.conn) *)
| ReadSend (c : nat) (p : Packet) (* c.packetReceiveChan <- p *)
| LoopCheck (c : nat) (w : loop) (p : Packet) (* if c.IsClosed() { return } *)
| WriteCall (c : nat) (p : Packet)  (* c.conn.Write(p.Serialize()) *)
| HandleCall (c : nat) (p : Packet) (* if !c.srv.callback.OnMessage(c, p) { return } *)
| LoopErrLog (c : nat) (w : loop)   (* writeLog(...); return *)
| LoopDefer (c : nat) (w : loop) (panicked : bool) (* deferred: recover(), writeLog *)
| WorkerDone (c : nat) (w : loop)   (* asyncDo: wg.Done() *)
(* Conn.Close: c.closeOnce.Do(func() { ... }) *)
| CloseFast (c : nat) (a : after)   (* Once.Do: if o.done == 0 { o.doSlow(f) } *)
| CloseLock (c : nat) (a : after)   (* doSlow: o.m.Lock() *)
| CloseSlow (c : nat) (a : after)   (* doSlow: if o.done == 0 { ... } *)
| CloseBody (c : nat) (a : after) (i : nat) (* statement i of the func literal *)
| CloseStoreDone (c : nat) (a : after)      (* deferred: o.done.Store(1) *)
| CloseUnlock (c : nat) (a : after)         (* deferred: o.m.Unlock() *)
(* Server.Stop *)
| StopClose                       (* close(s.exitChan) *)
| StopWait                        (* s.waitGroup.Wait() *)
(* Conn.AsyncWritePacket *)
| WriteIsClosed (c : nat) (p : Packet) (timeout : Z) (* if c.IsClosed() *)
| WriteSelect (c : nat) (p : Packet) (timeout : Z)   (* if timeout == 0 { select } else { select } *)
| WriteBlockLog (c : nat) (p : Packet)  (* default: writeLog; return ErrWriteBlocking *)
| WriteRecover (c : nat) (p : Packet)   (* deferred: recover() != nil; err = ErrConnClosing *)
| Exited.

(** The cases of a select. *)
Inductive sel := SelExit | SelClose | SelRecv | SelSend | SelTimer.

(** ** Observable history *)

Inductive logline :=
| LogWriteBlocking (c : nat)
| LogWriteRecover (c : nat)
| LogLoopErr (c : nat) (w : loop)
| LogLoopPanic (c : nat) (w : loop)
| LogLoopExit (c : nat) (w : loop).

Inductive event :=
| EvCall (t : nat) (f : call)
| EvStopRet (t : nat)
| EvCloseRet (t c : nat)
| EvWriteRet (t c : nat) (p : Packet) (r : option error)
| EvSetDeadline (l : nat)
| EvAccept (l : nat) (ok : bool)
| EvListenerClose (l : nat)
| EvOnConnect (c : nat) (r : bool)
| EvOnMessage (c : nat) (p : Packet) (r : bool)
| EvOnClose (c : nat)
| EvStoreFlag (c : nat)
| EvCloseCloseChan (c : nat)
| EvCloseSendChan (c : nat)
| EvCloseReceiveChan (c : nat)
| EvRawClose (c : nat)
| EvReadPacket (c : nat) (r : option Packet)
| EvWrite (c : nat) (p : Packet) (ok : bool)
| EvLog (line : logline)
| EvWorkerExit (c : nat) (w : loop)
| EvPanic (t : nat).

#[global] Instance loop_eq_dec : EqDecision loop.
Proof. solve_decision. Defined.
#[global] Instance after_eq_dec : EqDecision after.
Proof. solve_decision. Defined.
#[global] Instance call_eq_dec : EqDecision call.
Proof. solve_decision. Defined.
#[global] Instance pc_eq_dec : EqDecision pc.
Proof. solve_decision. Defined.
#[global] Instance logline_eq_dec : EqDecision logline.
Proof. solve_decision. Defined.
#[global] Instance event_eq_dec : EqDecision event.
Proof. solve_decision. Defined.

(** ** Shared state *)

(** [Server] of server.go without its read-only handles (which are [Env]):
    [exitChan] is a [chan struct{}] that is only ever closed, [waitGroup]
    is the counter of the [sync.WaitGroup]; then the connections made so
    far, the history, and whether a panic has ended the process. *)
Record Shared := mkShared {
  exitChan : bool;
  waitGroup : Z;
  conns : list Conn;
  trace : list event;
  crashed : bool;
}.

Definition emit (e : event) (s : Shared) : Shared :=
  mkShared (exitChan s) (waitGroup s) (conns s) (trace s ++ [e]) (crashed s).
Definition wg_add (d : Z) (s : Shared) : Shared :=
  mkShared (exitChan s) (waitGroup s + d) (conns s) (trace s) (crashed s).
Definition close_exit (s : Shared) : Shared :=
  mkShared true (waitGroup s) (conns s) (trace s) (crashed s).
Definition upd_conn (c : nat) (f : Conn → Conn) (s : Shared) : Shared :=
  mkShared (exitChan s) (waitGroup s) (alter f c (conns s)) (trace s) (crashed s).
Definition add_conn (x : Conn) (s : Shared) : Shared :=
  mkShared (exitChan s) (waitGroup s) (conns s ++ [x]) (trace s) (crashed s).
Definition set_crashed (s : Shared) : Shared :=
  mkShared (exitChan s) (waitGroup s) (conns s) (trace s) true.

(** The whole system: the shared state and the threads. *)
Record State := mkState { shared : Shared; threads : list pc }.

(** [NewServer]: an open [exitChan], an empty wait group; nothing runs. *)
Definition NewServer : State := mkState (mkShared false 0 [] [] false) [].

(** ** Statements *)

(** The outcome of one statement of a thread: its next program counter,
    the shared state, and the goroutines it started. *)
Definition outcome : Type := pc * Shared * list pc.

Definition goto (p : pc) (s : Shared) : option outcome := Some (p, s, []).

(** An unrecovered panic ends the process. *)
Definition panic (t : nat) (s : Shared) : option outcome :=
  Some (Exited, set_crashed (emit (EvPanic t) s), []).

(** [wg.Done()], which panics on a counter that would become negative. *)
Definition wg_done (t : nat) (s : Shared) : option outcome :=
  if waitGroup s <=? 0 then panic t s else goto Exited (wg_add (-1) s).

(** The queue a worker's select receives from. *)
Definition queue_of (w : loop) (x : Conn) : Chan.t :=
  match w with
  | WriteLoop => packetSendChan x
  | _ => packetReceiveChan x
  end.
Definition set_queue_of (w : loop) (ch : Chan.t) : Conn → Conn :=
  match w with
  | WriteLoop => set_packetSendChan ch
  | _ => set_packetReceiveChan ch
  end.

(** Where a thread continues when its call of [Close] returns. *)
Definition after_pc (c : nat) (a : after) : pc :=
  match a with
  | ThenDone w => WorkerDone c w
  | ThenReturn => Exited
  end.

(** [return r] of AsyncWritePacket. *)
Definition write_ret (t c : nat) (p : Packet) (r : option error) (s : Shared)
  : option outcome :=
  goto Exited (emit (EvWriteRet t c p r) s).

(** What the scheduler does next. *)
Inductive choice :=
| Run (t : nat)              (* thread t runs its next statement *)
| Pick (t : nat) (k : sel)   (* thread t, at a select, takes case k *)
| Handoff (t r : nat)        (* sender t hands its packet to receiver r *)
| Call (f : call).           (* the application calls f on a new thread *)

Section Exec.
Variable E : Env.

(** Thread [t] at [p] runs its next statement; [None] when the
    statement cannot proceed (it blocks), or is a select with a choice
    (see [exec_pick]). *)
Definition exec_run (t : nat) (p : pc) (s : Shared) : option outcome :=
  match p with
  | StartAdd l => goto (StartSelect l 0) (wg_add 1 s)
  | StartSelect l k =>
      if exitChan s then goto (StartListenerClose l) s
      else goto (StartDeadline l k) s
  | StartDeadline l k =>
      if isTCPListener E l then goto (StartAccept l k) (emit (EvSetDeadline l) s)
      else goto (StartAccept l k) s
  | StartAccept l k =>
      let ok := Accept E l k in
      if ok then goto (StartConnAdd l (S k)) (emit (EvAccept l ok) s)
      else goto (StartSelect l (S k)) (emit (EvAccept l ok) s)
  | StartConnAdd l k => goto (StartGo l k) (wg_add 1 s)
  | StartGo l k => Some (StartSelect l k, s, [ConnNew])
  | StartListenerClose l => goto StartDone (emit (EvListenerClose l) s)
  | StartDone => wg_done t s
  | ConnNew => goto (DoOnConnect (length (conns s))) (add_conn (newConn E) s)
  | DoOnConnect c =>
      let r := OnConnect E c in
      if r then goto (DoAdd c HandleLoop) (emit (EvOnConnect c r) s)
      else goto ConnDone (emit (EvOnConnect c r) s)
  | DoAdd c w => goto (DoGo c w) (wg_add 1 s)
  | DoGo c w =>
      Some (match w with
            | HandleLoop => DoAdd c ReadLoop
            | ReadLoop => DoAdd c WriteLoop
            | WriteLoop => ConnDone
            end, s, [LoopAddr c w])
  | ConnDone => wg_done t s
  | LoopAddr c w => goto (LoopSelect c w) s
  | LoopSelect c ReadLoop =>
      x ← conns s !! c;
      if exitChan s || closeChan x then goto (LoopDefer c ReadLoop false) s
      else goto (ReadCall c) s
  | LoopSelect c _ => None
  | ReadCall c =>
      x ← conns s !! c;
      let r := ReadPacket E c (nread x) in
      let s' := emit (EvReadPacket c r) (upd_conn c incr_nread s) in
      match r with
      | None => goto (LoopErrLog c ReadLoop) s'
      | Some p => goto (ReadSend c p) s'
      end
  | ReadSend c p =>
      x ← conns s !! c;
      match Chan.send (packetReceiveChan x) p with
      | Chan.SendPanic => goto (LoopDefer c ReadLoop true) s
      | Chan.SendOk ch' =>
          goto (LoopSelect c ReadLoop) (upd_conn c (set_packetReceiveChan ch') s)
      | Chan.SendBlock => None
      end
  | LoopCheck c w p =>
      x ← conns s !! c;
      if IsClosed x then goto (LoopDefer c w false) s
      else match w with
           | WriteLoop => goto (WriteCall c p) s
           | HandleLoop => goto (HandleCall c p) s
           | ReadLoop => None
           end
  | WriteCall c p =>
      x ← conns s !! c;
      match p with
      | nilPacket => goto (LoopDefer c WriteLoop true) s
      | _ =>
          let ok := Write E c (nwrite x) p in
          let s' := emit (EvWrite c p ok) (upd_conn c incr_nwrite s) in
          if ok then goto (LoopSelect c WriteLoop) s'
          else goto (LoopErrLog c WriteLoop) s'
      end
  | HandleCall c p =>
      x ← conns s !! c;
      let r := OnMessage E c (nmsg x) p in
      let s' := emit (EvOnMessage c p r) (upd_conn c incr_nmsg s) in
      if r then goto (LoopSelect c HandleLoop) s'
      else goto (LoopDefer c HandleLoop false) s'
  | LoopErrLog c w =>
      goto (LoopDefer c w false) (emit (EvLog (LogLoopErr c w)) s)
  | LoopDefer c w panicked =>
      goto (CloseFast c (ThenDone w))
        (emit (EvLog (if panicked then LogLoopPanic c w else LogLoopExit c w)) s)
  | WorkerDone c w => wg_done t (emit (EvWorkerExit c w) s)
  | CloseFast c a =>
      x ← conns s !! c;
      if once_done x then goto (after_pc c a) (emit (EvCloseRet t c) s)
      else goto (CloseLock c a) s
  | CloseLock c a =>
      x ← conns s !! c;
      match once_m x with
      | None => goto (CloseSlow c a) (upd_conn c (set_once_m (Some t)) s)
      | Some _ => None
      end
  | CloseSlow c a =>
      x ← conns s !! c;
      if once_done x then goto (CloseUnlock c a) s
      else goto (CloseBody c a 0) s
  | CloseBody c a 0 =>
      goto (CloseBody c a 1) (emit (EvStoreFlag c) (upd_conn c (set_closeFlag 1) s))
  | CloseBody c a 1 =>
      x ← conns s !! c;
      if closeChan x then panic t s
      else goto (CloseBody c a 2)
             (emit (EvCloseCloseChan c) (upd_conn c (set_closeChan true) s))
  | CloseBody c a 2 =>
      x ← conns s !! c;
      match Chan.close (packetSendChan x) with
      | None => panic t s
      | Some ch' =>
          goto (CloseBody c a 3)
            (emit (EvCloseSendChan c) (upd_conn c (set_packetSendChan ch') s))
      end
  | CloseBody c a 3 =>
      x ← conns s !! c;
      match Chan.close (packetReceiveChan x) with
      | None => panic t s
      | Some ch' =>
          goto (CloseBody c a 4)
            (emit (EvCloseReceiveChan c) (upd_conn c (set_packetReceiveChan ch') s))
      end
  | CloseBody c a 4 =>
      goto (CloseBody c a 5) (emit (EvRawClose c) (upd_conn c (set_rawClosed true) s))
  | CloseBody c a 5 => goto (CloseStoreDone c a) (emit (EvOnClose c) s)
  | CloseBody c a _ => None
  | CloseStoreDone c a => goto (CloseUnlock c a) (upd_conn c (set_once_done true) s)
  | CloseUnlock c a =>
      goto (after_pc c a) (emit (EvCloseRet t c) (upd_conn c (set_once_m None) s))
  | StopClose =>
      if exitChan s then panic t s else goto StopWait (close_exit s)
  | StopWait =>
      if waitGroup s =? 0 then goto Exited (emit (EvStopRet t) s) else None
  | WriteIsClosed c p timeout =>
      x ← conns s !! c;
      if IsClosed x then write_ret t c p (Some ErrConnClosing) s
      else goto (WriteSelect c p timeout) s
  | WriteSelect c p timeout =>
      x ← conns s !! c;
      if timeout =? 0 then
        match Chan.send (packetSendChan x) p with
        | Chan.SendPanic => goto (WriteRecover c p) s
        | Chan.SendOk ch' =>
            write_ret t c p None (upd_conn c (set_packetSendChan ch') s)
        | Chan.SendBlock => goto (WriteBlockLog c p) s
        end
      else None
  | WriteBlockLog c p =>
      write_ret t c p (Some ErrWriteBlocking) (emit (EvLog (LogWriteBlocking c)) s)
  | WriteRecover c p =>
      write_ret t c p (Some ErrConnClosing) (emit (EvLog (LogWriteRecover c)) s)
  | Exited => None
  end.

(** Thread [t] at a select takes the case [k], which must be ready.
    A worker's select has no default: [SelExit] needs a closed
    [exitChan], [SelClose] a closed [closeChan], [SelRecv] a packet (or a
    closed queue).  The select of AsyncWritePacket for [timeout != 0]
    sends, observes [closeChan], or takes the timer case; the model has
    no clock, so the timer case is always ready. *)
Definition exec_pick (k : sel) (t : nat) (p : pc) (s : Shared) : option outcome :=
  match p with
  | LoopSelect c w =>
      x ← conns s !! c;
      match w, k with
      | ReadLoop, _ => None
      | _, SelExit => if exitChan s then goto (LoopDefer c w false) s else None
      | _, SelClose => if closeChan x then goto (LoopDefer c w false) s else None
      | _, SelRecv =>
          match Chan.recv (queue_of w x) with
          | Chan.RecvOk q ch' =>
              goto (LoopCheck c w q) (upd_conn c (set_queue_of w ch') s)
          | Chan.RecvBlock => None
          end
      | _, _ => None
      end
  | WriteSelect c p timeout =>
      x ← conns s !! c;
      if timeout =? 0 then None
      else match k with
           | SelSend =>
               match Chan.send (packetSendChan x) p with
               | Chan.SendPanic => goto (WriteRecover c p) s
               | Chan.SendOk ch' =>
                   write_ret t c p None (upd_conn c (set_packetSendChan ch') s)
               | Chan.SendBlock => None
               end
           | SelClose =>
               if closeChan x then write_ret t c p (Some ErrConnClosing) s else None
           | SelTimer => write_ret t c p (Some ErrWriteBlocking) s
           | _ => None
           end
  | _ => None
  end.

(** A sender [ps] hands its packet to the receiver [pr] parked at its
    select on the same queue: the reader to the dispatcher, a caller of
    AsyncWritePacket to the writer.  Gives both next program counters. *)
Definition exec_handoff (t : nat) (ps pr : pc) (s : Shared)
  : option (pc * pc * Shared) :=
  match ps, pr with
  | ReadSend c p, LoopSelect c' HandleLoop =>
      x ← conns s !! c;
      if bool_decide (c = c') && Chan.can_handoff (packetReceiveChan x)
      then Some (LoopSelect c ReadLoop, LoopCheck c HandleLoop p, s)
      else None
  | WriteSelect c p timeout, LoopSelect c' WriteLoop =>
      x ← conns s !! c;
      if bool_decide (c = c') && Chan.can_handoff (packetSendChan x)
      then Some (Exited, LoopCheck c WriteLoop p, emit (EvWriteRet t c p None) s)
      else None
  | _, _ => None
  end.

(** The first statement of a method the application calls; a
    connection it calls a method of exists. *)
Definition entry (f : call) (s : Shared) : option pc :=
  match f with
  | CallStart l => Some (StartAdd l)
  | CallStop => Some StopClose
  | CallClose c => _ ← conns s !! c; Some (CloseFast c ThenReturn)
  | CallWrite c p timeout => _ ← conns s !! c; Some (WriteIsClosed c p timeout)
  end.

(** ** Steps of the system *)

Definition commit (t : nat) (o : outcome) (ths : list pc) : State :=
  mkState o.1.2 (<[t := o.1.1]> ths ++ o.2).

Definition step (st : State) (ch : choice) : option State :=
  if crashed (shared st) then None else
  match ch with
  | Run t =>
      p ← threads st !! t;
      o ← exec_run t p (shared st);
      Some (commit t o (threads st))
  | Pick t k =>
      p ← threads st !! t;
      o ← exec_pick k t p (shared st);
      Some (commit t o (threads st))
  | Handoff t r =>
      ps ← threads st !! t;
      pr ← threads st !! r;
      '(ps', pr', s') ← exec_handoff t ps pr (shared st);
      Some (mkState s' (<[r := pr']> (<[t := ps']> (threads st))))
  | Call f =>
      p ← entry f (shared st);
      Some (mkState (emit (EvCall (length (threads st)) f) (shared st))
              (threads st ++ [p]))
  end.

Fixpoint run (st : State) (sched : list choice) : option State :=
  match sched with
  | [] => Some st
  | ch :: sched' => st' ← step st ch; run st' sched'
  end.

(** The states the system can be in. *)
Inductive reachable : State → Prop :=
| reach_init : reachable NewServer
| reach_step st ch st' : reachable st → step st ch = Some st' → reachable st'.

End Exec.

(** * Part II: specification *)

(** ** Workers and the wait group *)

(** A thread is a registered worker from its [Add(1)] on the server's wait
    group to its [Done()]: the accept worker, the goroutine of a
    connection, and the three workers of a connection (to the end of the
    call of [Close] they finish with).  The threads of the application are
    not: [Start] before its [Add(1)], [Stop], [Close], AsyncWritePacket. *)
Definition registered (p : pc) : bool :=
  match p with
  | StartAdd _ | StopClose | StopWait | Exited => false
  | WriteIsClosed _ _ _ | WriteSelect _ _ _ | WriteBlockLog _ _
  | WriteRecover _ _ => false
  | CloseFast _ a | CloseLock _ a | CloseSlow _ a | CloseBody _ a _
  | CloseStoreDone _ a | CloseUnlock _ a =>
      match a with ThenDone _ => true | ThenReturn => false end
  | _ => true
  end.

(** Between the [Add(1)] for a goroutine and the [go] statement the wait
    group already counts a worker that does not run yet. *)
Definition pending (p : pc) : Z :=
  match p with
  | StartGo _ _ | DoGo _ _ => 1
  | _ => 0
  end.

Definition weight (p : pc) : Z := (if registered p then 1 else 0) + pending p.

Definition total (f : pc → Z) (ths : list pc) : Z :=
  foldr (λ p n, f p + n) 0 ths.

(** The counter of the wait group is the number of registered workers,
    running or about to be started. *)
Definition InvWg (st : State) : Prop :=
  crashed (shared st) = false →
  waitGroup (shared st) = total weight (threads st).

(** The only workers of a stopped server: calls of [Start] that find
    [exitChan] closed and return. *)
Definition leaving (p : pc) : bool :=
  match p with
  | StartSelect _ _ | StartListenerClose _ | StartDone => true
  | _ => false
  end.

Definition Stopped (st : State) : Prop :=
  exitChan (shared st) = true ∧
  ∀ t p, threads st !! t = Some p → registered p = true →
    leaving p = true.

(** ** Connections of threads *)

(** The connection a thread works on. *)
Definition pc_conn (p : pc) : option nat :=
  match p with
  | DoOnConnect c | DoAdd c _ | DoGo c _ | LoopAddr c _ | LoopSelect c _
  | ReadCall c | ReadSend c _ | LoopCheck c _ _ | WriteCall c _
  | HandleCall c _ | LoopErrLog c _ | LoopDefer c _ _ | WorkerDone c _
  | CloseFast c _ | CloseLock c _ | CloseSlow c _ | CloseBody c _ _
  | CloseStoreDone c _ | CloseUnlock c _ | WriteIsClosed c _ _
  | WriteSelect c _ _ | WriteBlockLog c _ | WriteRecover c _ => Some c
  | _ => None
  end.

(** Threads work on connections that exist. *)
Definition Wf (st : State) : Prop :=
  ∀ t p, threads st !! t = Some p →
    ∀ c, pc_conn p = Some c → (c < length (conns (shared st)))%nat.

(** ** The teardown of a connection *)

(** The statements of the func literal of [Close], as events, in the
    order of the source. *)
Definition teardown (c : nat) : list event :=
  [EvStoreFlag c; EvCloseCloseChan c; EvCloseSendChan c;
   EvCloseReceiveChan c; EvRawClose c; EvOnClose c].

Definition is_teardown (c : nat) (e : event) : bool :=
  match e with
  | EvStoreFlag c' | EvCloseCloseChan c' | EvCloseSendChan c'
  | EvCloseReceiveChan c' | EvRawClose c' | EvOnClose c' => bool_decide (c' = c)
  | _ => false
  end.

(** The teardown statements of connection [c] a history has run. *)
Definition torn (c : nat) (tr : list event) : list event :=
  List.filter (is_teardown c) tr.

Definition is_close_ret (c : nat) (e : event) : bool :=
  match e with
  | EvCloseRet _ c' => bool_decide (c' = c)
  | _ => false
  end.

(** Whether some call of [Close] on connection [c] has returned. *)
Definition close_returned (c : nat) (tr : list event) : bool :=
  existsb (is_close_ret c) tr.

(** The number of times the closed-hook fired for connection [c]. *)
Definition count_OnClose (c : nat) (tr : list event) : nat :=
  length (List.filter (λ e, bool_decide (e = EvOnClose c)) tr).

(** What [sync.Once] maintains, for a thread [t] at [p], on connection [c]
    with record [x] of which [n] teardown statements have run: past
    [o.m.Lock()] the thread holds the mutex, and it is at statement [n] of
    the body. *)
Definition once_local (c : nat) (x : Conn) (n : nat) (t : nat) (p : pc) : Prop :=
  match p with
  | CloseSlow c' _ =>
      c' = c → once_m x = Some t ∧ (once_done x = false → n = 0%nat)
  | CloseBody c' _ i =>
      c' = c → once_m x = Some t ∧ once_done x = false ∧ n = i ∧ (i < 6)%nat
  | CloseStoreDone c' _ =>
      c' = c → once_m x = Some t ∧ once_done x = false ∧ n = 6%nat
  | CloseUnlock c' _ =>
      c' = c → once_m x = Some t ∧ once_done x = true
  | _ => True
  end.

(** The fields of a connection that its teardown sets, against the number
    [n] of teardown statements that have run. *)
Definition once_shared (x : Conn) (n : nat) : Prop :=
  (once_done x = true → n = 6%nat) ∧
  (once_m x = None → once_done x = false → n = 0%nat) ∧
  (closeFlag x = 1 ↔ (1 ≤ n)%nat) ∧
  (closeChan x = true ↔ (2 ≤ n)%nat) ∧
  (Chan.closed (packetSendChan x) = true ↔ (3 ≤ n)%nat) ∧
  (Chan.closed (packetReceiveChan x) = true ↔ (4 ≤ n)%nat) ∧
  (rawClosed x = true ↔ (5 ≤ n)%nat).

Definition OnceInv (st : State) : Prop :=
  ∀ c,
    let tr := trace (shared st) in
    let n := length (torn c tr) in
    torn c tr = take n (teardown c) ∧
    match conns (shared st) !! c with
    | None => n = 0%nat ∧ close_returned c tr = false
    | Some x =>
        once_shared x n ∧
        (close_returned c tr = true → once_done x = true) ∧
        ∀ t p, threads st !! t = Some p → once_local c x n t p
    end.

Arguments torn : simpl never.
Arguments close_returned : simpl never.

(** The fields of a connection the invariant of [Close] reads. *)
Definition once_view (x : Conn) :=
  (once_done x, once_m x, closeFlag x, closeChan x,
   Chan.closed (packetSendChan x), Chan.closed (packetReceiveChan x), rawClosed x).

(** Past [o.m.Lock()] in a call of [Close] on connection [c]. *)
Definition locked (c : nat) (p : pc) : bool :=
  match p with
  | CloseSlow c' _ | CloseBody c' _ _ | CloseStoreDone c' _ | CloseUnlock c' _ =>
      bool_decide (c' = c)
  | _ => false
  end.

(** [OnceInv] at connection [c], by components. *)
Definition OnceAt (c : nat) (ox : option Conn) (trn : list event) (ret : bool)
    (ths : list pc) : Prop :=
  let n := length trn in
  trn = take n (teardown c) ∧
  match ox with
  | None => n = 0%nat ∧ ret = false
  | Some x =>
      once_shared x n ∧ (ret = true → once_done x = true) ∧
      ∀ t p, ths !! t = Some p → once_local c x n t p
  end.

(** ** Scenarios *)

(** A server with queues of two packets, whose first accept succeeds,
    with a Protocol that decodes two packets and then fails. *)
Definition demoEnv : Env :=
  {| PacketSendChanLimit := 2; PacketReceiveChanLimit := 2;
     isTCPListener := λ _, true;
     Accept := λ _ k, bool_decide (k = 0%nat);
     OnConnect := λ _, true;
     OnMessage := λ _ _ _, true;
     ReadPacket := λ _ k,
       match k with
       | 0%nat => Some (mkPacket 1)
       | 1%nat => Some (mkPacket 2)
       | _ => None
       end;
     Write := λ _ _ _, true |}.

Definition runs (t n : nat) : list choice := replicate n (Run t).

(** [Start] accepts a socket and the connection starts its workers:
    thread 0 is the accept worker, 1 the goroutine of the connection, 2, 3
    and 4 its dispatch, read and write workers. *)
Definition sched_accept : list choice :=
  Call (CallStart 0) :: runs 0 6 ++ runs 1 9.

(** Two calls of [Close] race: both pass the fast path of [Once.Do]
    before either takes the mutex. *)
Definition sched_two_closers : list choice :=
  sched_accept ++ [Call (CallClose 0); Call (CallClose 0); Run 5; Run 6]
  ++ runs 5 10 ++ runs 6 3.

(** [Stop] closes [exitChan]; every worker observes it and leaves. *)
Definition sched_stop : list choice :=
  sched_accept ++ [Call CallStop; Run 5] ++ runs 0 3
  ++ [Run 2; Pick 2 SelExit] ++ runs 2 13
  ++ runs 3 5 ++ [Run 4; Pick 4 SelClose] ++ runs 4 3.


Definition st_two_closers : State :=
  default NewServer (run demoEnv NewServer sched_two_closers).

Definition st_stopping : State :=
  default NewServer (run demoEnv NewServer sched_stop).

Definition st_stopped : State :=
  default NewServer (step demoEnv st_stopping (Run 5)).

(** A call of [Start] after [Stop] has returned. *)
Definition sched_late_start : list choice := [Call (CallStart 1); Run 6; Run 6].

Definition st_late_start : State :=
  default NewServer (run demoEnv st_stopped sched_late_start).

(** [exitChan] is closed from the first statement of [Stop] on. *)
Definition ExitInv (st : State) : Prop :=
  ∀ t, threads st !! t = Some StopWait → exitChan (shared st) = true.

(** ** Stopping twice, failing accepts *)

(** [Stop] is called, returns, and is called again. *)
Definition sched_stop_twice : list choice :=
  [Call CallStop; Run 0; Run 0; Call CallStop; Run 1].

Definition st_stop_twice : State :=
  default NewServer (run demoEnv NewServer sched_stop_twice).

(** [Stop] is called on a new server. *)
Definition st_stop_called : State :=
  default NewServer (run demoEnv NewServer [Call CallStop]).

(** [Stop] is called on a server that [Stop] has returned on. *)
Definition st_stop_called_again : State :=
  default NewServer (run demoEnv NewServer [Call CallStop; Run 0; Run 0; Call CallStop]).

Definition is_log (e : event) : bool :=
  match e with EvLog _ => true | _ => false end.

(** The log lines of a history. *)
Definition logs (tr : list event) : list event := List.filter is_log tr.

(** The accept worker's second call of Accept fails. *)
Definition sched_accept_fails : list choice := sched_accept ++ runs 0 3.

Definition st_accept_fails : State :=
  default NewServer (run demoEnv NewServer sched_accept_fails).

(** The accept worker is about to make its second call of Accept. *)
Definition st_accepting : State :=
  default NewServer (run demoEnv NewServer (sched_accept ++ runs 0 2)).

(** ** Calls that run alone *)

(** Thread [t] runs, and nothing else does, until its call has returned;
    [None] if it blocks, or has not returned after [n] statements. *)
Fixpoint finish (E : Env) (n : nat) (t : nat) (st : State) : option State :=
  match threads st !! t with
  | Some Exited => Some st
  | _ =>
      match n with
      | O => None
      | S n' => st' ← step E st (Run t); finish E n' t st'
      end
  end.

(** The application calls [f], and nothing else runs until the call has
    returned. *)
Definition call_alone (E : Env) (f : call) (st : State) : option State :=
  st' ← step E st (Call f); finish E 4 (length (threads st)) st'.

(** [AsyncWritePacket(p, 0)] on connection [c] for each packet of [ps] in
    turn, each call alone. *)
Fixpoint write_each (E : Env) (c : nat) (ps : list Packet) (st : State)
  : option State :=
  match ps with
  | [] => Some st
  | p :: ps' => st' ← call_alone E (CallWrite c p 0) st; write_each E c ps' st'
  end.

Definition write_ret_of (c : nat) (e : event) : option (option error) :=
  match e with
  | EvWriteRet _ c' _ r => if decide (c' = c) then Some r else None
  | _ => None
  end.

(** The results of the calls of AsyncWritePacket on connection [c] that
    have returned, in the order of their return. *)
Definition write_rets (c : nat) (tr : list event) : list (option error) :=
  omap (write_ret_of c) tr.

(** The connection is accepted and its workers are started, none has run:
    three zero-timeout writes on queues of two packets. *)
Definition st_accepted : State :=
  default NewServer (run demoEnv NewServer sched_accept).

Definition st_two_written : State :=
  default NewServer
    (write_each demoEnv 0 [mkPacket 10; mkPacket 11] st_accepted).

Definition st_three_written : State :=
  default NewServer (call_alone demoEnv (CallWrite 0 (mkPacket 12) 0) st_two_written).

(** ** Rejected connections *)

(** A thread that [Do] starts on connection [c] once the accepted-hook has
    accepted it: the statements of [asyncDo], and a worker to the end of
    its [Close] and its [Done()]. *)
Definition worker_of (c : nat) (p : pc) : bool :=
  match p with
  | DoAdd c' _ | DoGo c' _ | LoopAddr c' _ | LoopSelect c' _ | ReadCall c'
  | ReadSend c' _ | LoopCheck c' _ _ | WriteCall c' _ | HandleCall c' _
  | LoopErrLog c' _ | LoopDefer c' _ _ | WorkerDone c' _
  | CloseFast c' (ThenDone _) | CloseLock c' (ThenDone _)
  | CloseSlow c' (ThenDone _) | CloseBody c' (ThenDone _) _
  | CloseStoreDone c' (ThenDone _) | CloseUnlock c' (ThenDone _) =>
      bool_decide (c' = c)
  | _ => false
  end.

(** A thread inside a call of [Close] on connection [c]. *)
Definition in_close (c : nat) (p : pc) : bool :=
  match p with
  | CloseFast c' _ | CloseLock c' _ | CloseSlow c' _ | CloseBody c' _ _
  | CloseStoreDone c' _ | CloseUnlock c' _ => bool_decide (c' = c)
  | _ => false
  end.

(** What the workers of connection [c] leave in the history. *)
Definition is_worker_event (c : nat) (e : event) : bool :=
  match e with
  | EvOnMessage c' _ _ | EvReadPacket c' _ | EvWrite c' _ _ | EvWorkerExit c' _
  | EvLog (LogLoopErr c' _) | EvLog (LogLoopPanic c' _)
  | EvLog (LogLoopExit c' _) => bool_decide (c' = c)
  | _ => false
  end.

Definition worker_events (c : nat) (tr : list event) : list event :=
  List.filter (is_worker_event c) tr.

Definition is_close_call (c : nat) (e : event) : bool :=
  match e with
  | EvCall _ (CallClose c') => bool_decide (c' = c)
  | _ => false
  end.

(** Whether the application has called [Close] on connection [c]. *)
Definition close_called (c : nat) (tr : list event) : bool :=
  existsb (is_close_call c) tr.

(** A connection the accepted-hook rejects has no worker, and nobody but
    the application closes it. *)
Definition RejectAt (c : nat) (tr : list event) (ths : list pc) : Prop :=
  (∀ t p, ths !! t = Some p → worker_of c p = false) ∧
  worker_events c tr = [] ∧
  (close_called c tr = false →
   (∀ t p, ths !! t = Some p → in_close c p = false) ∧
   torn c tr = [] ∧ close_returned c tr = false).

Definition RejectInv (E : Env) (st : State) : Prop :=
  ∀ c, OnConnect E c = false → RejectAt c (trace (shared st)) (threads st).

(** The server of [demoEnv] with an accepted-hook that rejects. *)
Definition rejectEnv : Env :=
  {| PacketSendChanLimit := PacketSendChanLimit demoEnv;
     PacketReceiveChanLimit := PacketReceiveChanLimit demoEnv;
     isTCPListener := isTCPListener demoEnv;
     Accept := Accept demoEnv;
     OnConnect := λ _, false;
     OnMessage := OnMessage demoEnv;
     ReadPacket := ReadPacket demoEnv;
     Write := Write demoEnv |}.

(** A socket is accepted, rejected by the hook, and its goroutine ends;
    the accept worker goes on. *)
Definition sched_reject : list choice :=
  Call (CallStart 0) :: runs 0 6 ++ runs 1 3 ++ runs 0 3.

Definition st_rejected : State :=
  default NewServer (run rejectEnv NewServer sched_reject).

(** ** Writes after [Close] *)

(** An event that thread [t0] can leave in the history by running a
    statement: any event but the call of a method by the application, and
    the events that name a thread name [t0]. *)
Definition emitted_by (t0 : nat) (e : event) : bool :=
  match e with
  | EvCall _ _ => false
  | EvStopRet t | EvCloseRet t _ | EvWriteRet t _ _ _ | EvPanic t =>
      bool_decide (t = t0)
  | _ => true
  end.

(** Whether, in a history, the application made the call [f] on thread
    [t] after a call of [Close] on connection [c] had returned ([ret]: one
    had returned before the history starts). *)
Fixpoint called_after_close_from (c t : nat) (f : call) (ret : bool)
    (tr : list event) : bool :=
  match tr with
  | [] => false
  | e :: tr' =>
      (ret && bool_decide (e = EvCall t f))
      || called_after_close_from c t f (ret || is_close_ret c e) tr'
  end.

Definition called_after_close (c t : nat) (f : call) (tr : list event) : bool :=
  called_after_close_from c t f false tr.

Definition write_ret_by (t : nat) (e : event) : option (option error) :=
  match e with
  | EvWriteRet t' _ _ r => if decide (t' = t) then Some r else None
  | _ => None
  end.

(** The results AsyncWritePacket has returned on thread [t]. *)
Definition write_rets_by (t : nat) (tr : list event) : list (option error) :=
  omap (write_ret_by t) tr.

(** A call of AsyncWritePacket made after [Close] returned is at its
    first statement, or has returned the closing error. *)
Definition LateInv (st : State) : Prop :=
  (∀ t, (length (threads st) ≤ t)%nat →
     write_rets_by t (trace (shared st)) = []) ∧
  (∀ c t p timeout,
     called_after_close c t (CallWrite c p timeout) (trace (shared st)) = true →
     (threads st !! t = Some (WriteIsClosed c p timeout) ∧
      write_rets_by t (trace (shared st)) = []) ∨
     (threads st !! t = Some Exited ∧
      write_rets_by t (trace (shared st)) = [Some ErrConnClosing])).

(** Two calls of AsyncWritePacket, one with a timeout, after a call of
    [Close] has returned. *)
Definition sched_write_after_close : list choice :=
  sched_accept ++ Call (CallClose 0) :: runs 5 11
  ++ [Call (CallWrite 0 (mkPacket 7) 0); Call (CallWrite 0 (mkPacket 8) 5);
      Run 6].

Definition st_write_after_close : State :=
  default NewServer (run demoEnv NewServer sched_write_after_close).

(** ** Decoding and dispatching *)

(** The thread that is, or is going to start, the read worker of
    connection [c] and may still call ReadPacket: the goroutine of the
    connection up to [asyncDo(c.readLoop)], then the read worker until it
    leaves its loop. *)
Definition reader_token (c : nat) (p : pc) : bool :=
  match p with
  | DoOnConnect c' | DoAdd c' HandleLoop | DoGo c' HandleLoop
  | DoAdd c' ReadLoop | DoGo c' ReadLoop | LoopAddr c' ReadLoop
  | LoopSelect c' ReadLoop | ReadCall c' | ReadSend c' _ => bool_decide (c' = c)
  | _ => false
  end.

Definition is_read (c : nat) (e : event) : bool :=
  match e with
  | EvReadPacket c' _ => bool_decide (c' = c)
  | _ => false
  end.

(** The number of calls of ReadPacket made on connection [c]. *)
Definition count_ReadPacket (c : nat) (tr : list event) : nat :=
  length (List.filter (is_read c) tr).

(** One thread at most may call ReadPacket on a connection, calls are
    counted, and after a call that fails none may. *)
Definition ReaderAt (E : Env) (c : nat) (ox : option Conn) (nr : nat)
    (ths : list pc) : Prop :=
  (∀ t t' p p', ths !! t = Some p → ths !! t' = Some p' →
     reader_token c p = true → reader_token c p' = true → t = t') ∧
  match ox with
  | None => nr = 0%nat ∧ ∀ t p, ths !! t = Some p → reader_token c p = false
  | Some x =>
      nread x = nr ∧
      (∀ k, (S k < nread x)%nat → ReadPacket E c k ≠ None) ∧
      (∀ k, (k < nread x)%nat → ReadPacket E c k = None →
         ∀ t p, ths !! t = Some p → reader_token c p = false)
  end.

Definition ReaderInv (E : Env) (st : State) : Prop :=
  ∀ c, ReaderAt E c (conns (shared st) !! c)
         (count_ReadPacket c (trace (shared st))) (threads st).

(** ** Messages and decoded packets *)

Definition is_message (c : nat) (e : event) : bool :=
  match e with
  | EvOnMessage c' _ _ => bool_decide (c' = c)
  | _ => false
  end.

(** The number of times the message-hook was invoked for connection [c]. *)
Definition count_OnMessage (c : nat) (tr : list event) : nat :=
  length (List.filter (is_message c) tr).

(** How many of the first [n] calls of ReadPacket on connection [c]
    decode a packet. *)
Definition decoded (E : Env) (c n : nat) : nat :=
  length (List.filter (λ k, bool_decide (is_Some (ReadPacket E c k))) (seq 0 n)).

(** A decoded packet a thread holds that may still reach the message-hook:
    the read worker about to enqueue it, the dispatch worker about to pass
    it to the hook, or about to check [IsClosed] on an open connection. *)
Definition hand (c : nat) (closed : bool) (p : pc) : Z :=
  match p with
  | ReadSend c' _ | HandleCall c' _ => if bool_decide (c' = c) then 1 else 0
  | LoopCheck c' HandleLoop _ =>
      if bool_decide (c' = c) && negb closed then 1 else 0
  | _ => 0
  end.

(** The message-hook was invoked on no more packets than were decoded:
    the invocations, the packets in hand and the packets in the inbound
    queue are at most the decoded packets. *)
Definition MsgAt (E : Env) (c : nat) (ox : option Conn) (nm : nat)
    (ths : list pc) : Prop :=
  match ox with
  | None => nm = 0%nat
  | Some x =>
      nmsg x = nm ∧
      Z.of_nat (nmsg x) + total (hand c (IsClosed x)) ths
      + Z.of_nat (length (Chan.buf (packetReceiveChan x)))
      ≤ Z.of_nat (decoded E c (nread x))
  end.

Definition MsgInv (E : Env) (st : State) : Prop :=
  ∀ c, MsgAt E c (conns (shared st) !! c)
         (count_OnMessage c (trace (shared st))) (threads st).

(** ** Workers that have exited *)

Definition is_worker_exit (c : nat) (e : event) : bool :=
  match e with
  | EvWorkerExit c' _ => bool_decide (c' = c)
  | _ => false
  end.

(** Whether a worker of connection [c] has run to its [Done()]. *)
Definition worker_exited (c : nat) (tr : list event) : bool :=
  existsb (is_worker_exit c) tr.

(** A worker reaches its [Done()] through a call of [Close] that has
    returned. *)
Definition ExitedInv (st : State) : Prop :=
  ∀ c,
    (∀ t w, threads st !! t = Some (WorkerDone c w) →
       close_returned c (trace (shared st)) = true) ∧
    (worker_exited c (trace (shared st)) = true →
     close_returned c (trace (shared st)) = true).

(** ** A decode failure races with the dispatch worker *)

(** The dispatch worker receives the first packet and passes its
    [IsClosed] check; the read worker then decodes the second packet,
    fails on the third and closes the connection; only then does the
    dispatch worker invoke the message-hook, on the first packet.  The
    second packet stays in the closed queue.  All workers exit. *)
Definition sched_reader_ahead : list choice :=
  sched_accept
  ++ runs 3 4 ++ [Run 2; Pick 2 SelRecv; Run 2]
  ++ runs 3 19
  ++ [Run 2; Pick 2 SelClose] ++ runs 2 3
  ++ [Run 4; Pick 4 SelClose] ++ runs 4 3.

Definition st_reader_ahead : State :=
  default NewServer (run demoEnv NewServer sched_reader_ahead).

(** The invocations of the hooks on connection [c], in order. *)
Definition hooks (c : nat) (tr : list event) : list event :=
  List.filter (λ e, is_message c e || bool_decide (e = EvOnClose c)) tr.

(** ** What a step does to a connection *)

(** The fields of a connection that only ever go one way: the capacities
    of the queues stay, a queue within its capacity stays within it, what
    is closed stays closed, the counters of calls do not decrease. *)
Definition conn_le (x x' : Conn) : Prop :=
  Chan.cap (packetSendChan x') = Chan.cap (packetSendChan x) ∧
  Chan.cap (packetReceiveChan x') = Chan.cap (packetReceiveChan x) ∧
  ((length (Chan.buf (packetSendChan x)) ≤ Chan.cap (packetSendChan x))%nat →
   (length (Chan.buf (packetSendChan x')) ≤ Chan.cap (packetSendChan x'))%nat) ∧
  ((length (Chan.buf (packetReceiveChan x)) ≤ Chan.cap (packetReceiveChan x))%nat →
   (length (Chan.buf (packetReceiveChan x')) ≤ Chan.cap (packetReceiveChan x'))%nat) ∧
  (IsClosed x = true → IsClosed x' = true) ∧
  (closeChan x = true → closeChan x' = true) ∧
  (Chan.closed (packetSendChan x) = true → Chan.closed (packetSendChan x') = true) ∧
  (Chan.closed (packetReceiveChan x) = true →
   Chan.closed (packetReceiveChan x') = true) ∧
  (rawClosed x = true → rawClosed x' = true) ∧
  (nread x ≤ nread x')%nat ∧ (nwrite x ≤ nwrite x')%nat ∧ (nmsg x ≤ nmsg x')%nat.

(** Every connection has queues of the configured capacities, filled
    within them. *)
Definition QueueInv (E : Env) (st : State) : Prop :=
  ∀ c x, conns (shared st) !! c = Some x →
    Chan.cap (packetSendChan x) = N.to_nat (PacketSendChanLimit E) ∧
    Chan.cap (packetReceiveChan x) = N.to_nat (PacketReceiveChanLimit E) ∧
    (length (Chan.buf (packetSendChan x)) ≤ N.to_nat (PacketSendChanLimit E))%nat ∧
    (length (Chan.buf (packetReceiveChan x)) ≤ N.to_nat (PacketReceiveChanLimit E))%nat.

(** ** Panics *)

Definition is_stop_call (e : event) : bool :=
  match e with EvCall _ CallStop => true | _ => false end.

(** The number of calls of [Stop] the application has made. *)
Definition stop_calls (tr : list event) : nat :=
  length (List.filter is_stop_call tr).

Definition is_panic (e : event) : bool :=
  match e with EvPanic _ => true | _ => false end.

(** The unrecovered panics of a history. *)
Definition panics (tr : list event) : list event := List.filter is_panic tr.

Definition at_StopClose (p : pc) : Z :=
  match p with StopClose => 1 | _ => 0 end.

(** Every call of [Stop] is at its first statement or has closed
    [exitChan]; one at most has closed it. *)
Definition StopInv (st : State) : Prop :=
  total at_StopClose (threads st) + (if exitChan (shared st) then 1 else 0)
  ≤ Z.of_nat (stop_calls (trace (shared st))).

(** The process panics only in a second call of [Stop]. *)
Definition PanicInv (st : State) : Prop :=
  (crashed (shared st) = false → panics (trace (shared st)) = []) ∧
  (crashed (shared st) = true → (2 ≤ stop_calls (trace (shared st)))%nat).

(** ** After [Stop] has returned *)

Definition is_stop_ret (e : event) : bool :=
  match e with EvStopRet _ => true | _ => false end.

(** Whether a call of [Stop] has returned. *)
Definition stop_returned (tr : list event) : bool := existsb is_stop_ret tr.

(** The events of a history that follow the first one that satisfies [A]. *)
Fixpoint after_first (A : event → bool) (tr : list event) : list event :=
  match tr with
  | [] => []
  | e :: tr' => if A e then tr' else after_first A tr'
  end.

(** What the accept worker, the goroutine of a connection and the workers
    of a connection do to the outside: deadlines and accepts on a
    listener, the accepted-hook and the message-hook, reads and writes on
    a socket, the log lines and the exits of the workers. *)
Definition is_service (e : event) : bool :=
  match e with
  | EvSetDeadline _ | EvAccept _ _ | EvOnConnect _ _ | EvOnMessage _ _ _
  | EvReadPacket _ _ | EvWrite _ _ _ | EvWorkerExit _ _
  | EvLog (LogLoopErr _ _) | EvLog (LogLoopPanic _ _) | EvLog (LogLoopExit _ _) => true
  | _ => false
  end.

(** Once [Stop] has returned the server is stopped for good, and has been
    silent since. *)
Definition StopRetInv (st : State) : Prop :=
  (stop_returned (trace (shared st)) = true → Stopped st) ∧
  forallb (λ e, negb (is_service e)) (after_first is_stop_ret (trace (shared st)))
  = true.

(** ** Connections that were accepted *)

Definition is_accepted (c : nat) (e : event) : bool :=
  bool_decide (e = EvOnConnect c true).

(** Whether the accepted-hook has returned true on connection [c]. *)
Definition accepted (c : nat) (tr : list event) : bool :=
  existsb (is_accepted c) tr.

Definition workers (c : nat) (p : pc) : Z := if worker_of c p then 1 else 0.

(** A connection that was accepted has a worker until one has exited. *)
Definition LiveInv (st : State) : Prop :=
  ∀ c, accepted c (trace (shared st)) = true →
    1 ≤ total (workers c) (threads st) ∨
    worker_exited c (trace (shared st)) = true.

(** [Stop] has returned, [Start] is called again and leaves. *)
Definition sched_stop_start : list choice :=
  sched_stop ++ [Run 5] ++ sched_late_start ++ [Run 6; Run 6].

Definition st_stop_start : State :=
  default NewServer (run demoEnv NewServer sched_stop_start).

(** The teardown of [st_two_closers] has set the closed flag and no more. *)
Definition st_closing : State :=
  default NewServer
    (run demoEnv NewServer (sched_accept ++ Call (CallClose 0) :: runs 5 4)).

Definition st_closing_done : State :=
  default NewServer (run demoEnv st_closing (runs 5 7)).

(** The record of connection [c], for a connection that exists. *)
Definition conn_at (st : State) (c : nat) : Conn :=
  default (newConn demoEnv) (conns (shared st) !! c).

(** ** Events that come after others *)

(** Whether every event of [tr] that satisfies [B] comes after one that
    satisfies [A] ([seen]: one came before [tr]). *)
Fixpoint preceded_from (A B : event → bool) (seen : bool) (tr : list event)
  : bool :=
  match tr with
  | [] => true
  | e :: tr' => (negb (B e) || seen) && preceded_from A B (seen || A e) tr'
  end.

Definition preceded (A B : event → bool) (tr : list event) : bool :=
  preceded_from A B false tr.

(** ** The closing error *)

Definition is_flag (c : nat) (e : event) : bool := bool_decide (e = EvStoreFlag c).

(** Whether the teardown of connection [c] has begun: the closed flag is
    stored. *)
Definition closing (c : nat) (tr : list event) : bool := existsb (is_flag c) tr.

Definition is_closing_ret (c : nat) (e : event) : bool :=
  match e with
  | EvWriteRet _ c' _ (Some ErrConnClosing) => bool_decide (c' = c)
  | _ => false
  end.

(** AsyncWritePacket gives the closing error, and recovers from a panic,
    only on a connection whose teardown has begun. *)
Definition ClosingInv (st : State) : Prop :=
  ∀ c,
    preceded (is_flag c) (is_closing_ret c) (trace (shared st)) = true ∧
    ∀ t p, threads st !! t = Some (WriteRecover c p) →
      closing c (trace (shared st)) = true.

(** ** The accepted-hook comes first *)

Definition is_connect (c : nat) (e : event) : bool :=
  match e with
  | EvOnConnect c' _ => bool_decide (c' = c)
  | _ => false
  end.

(** The number of times the accepted-hook was invoked for connection [c]. *)
Definition count_OnConnect (c : nat) (tr : list event) : nat :=
  length (List.filter (is_connect c) tr).

Definition at_connect (c : nat) (p : pc) : Z :=
  match p with
  | DoOnConnect c' => if bool_decide (c' = c) then 1 else 0
  | _ => 0
  end.

(** Whether connection [c] is one of the connections [l] made so far. *)
Definition made (c : nat) (l : list Conn) : Z :=
  if bool_decide (c < length l)%nat then 1 else 0.

(** One thread at most is about to invoke the accepted-hook of a
    connection, and then it has not been invoked. *)
Definition ConnectInv (st : State) : Prop :=
  ∀ c, Z.of_nat (count_OnConnect c (trace (shared st)))
       + total (at_connect c) (threads st)
       ≤ made c (conns (shared st)).

(** The workers of a connection exist, and leave events, only after the
    accepted-hook has returned true. *)
Definition AcceptInv (st : State) : Prop :=
  ∀ c,
    preceded (is_accepted c) (is_worker_event c) (trace (shared st)) = true ∧
    ∀ t p, threads st !! t = Some p → worker_of c p = true →
      accepted c (trace (shared st)) = true.

(** A write that finds the connection closing: the teardown has stored
    the closed flag when AsyncWritePacket is called. *)
Definition sched_write_closing : list choice :=
  sched_accept ++ Call (CallClose 0) :: runs 5 4
  ++ [Call (CallWrite 0 (mkPacket 7) 5); Run 6].

Definition st_write_closing : State :=
  default NewServer (run demoEnv NewServer sched_write_closing).

(** ** One worker of each kind per connection *)

(** [Do] starts the dispatch, the read and the write worker in this
    order: whether worker [w] is still to start when [asyncDo] is about to
    start [w']. *)
Definition starts (w w' : loop) : bool :=
  match w, w' with
  | HandleLoop, HandleLoop => true
  | ReadLoop, (HandleLoop | ReadLoop) => true
  | WriteLoop, _ => true
  | _, _ => false
  end.

(** The thread that is, or is going to start, worker [w] of connection
    [c] and may still make the call of its loop (OnMessage, ReadPacket,
    Write): the goroutine of the connection up to [asyncDo] of [w], then
    the worker until it leaves its loop. *)
Definition token (w : loop) (c : nat) (p : pc) : Z :=
  match p with
  | DoOnConnect c' => if bool_decide (c' = c) then 1 else 0
  | DoAdd c' w' | DoGo c' w' =>
      if bool_decide (c' = c) && starts w w' then 1 else 0
  | LoopAddr c' w' | LoopSelect c' w' | LoopCheck c' w' _ =>
      if bool_decide (c' = c) && bool_decide (w' = w) then 1 else 0
  | ReadCall c' | ReadSend c' _ =>
      if bool_decide (c' = c) && bool_decide (w = ReadLoop) then 1 else 0
  | WriteCall c' _ =>
      if bool_decide (c' = c) && bool_decide (w = WriteLoop) then 1 else 0
  | HandleCall c' _ =>
      if bool_decide (c' = c) && bool_decide (w = HandleLoop) then 1 else 0
  | _ => 0
  end.

(** A connection has one worker of each kind at most, and none before it
    is made. *)
Definition TokenInv (st : State) : Prop :=
  ∀ w c, total (token w c) (threads st) ≤ made c (conns (shared st)).

(** ** Calls that fail *)

(** The call a worker [w] makes in its loop on connection [c]: the
    message-hook, ReadPacket, Write. *)
Definition is_call (w : loop) (c : nat) (e : event) : bool :=
  match w, e with
  | HandleLoop, EvOnMessage c' _ _ => bool_decide (c' = c)
  | ReadLoop, EvReadPacket c' _ => bool_decide (c' = c)
  | WriteLoop, EvWrite c' _ _ => bool_decide (c' = c)
  | _, _ => false
  end.

(** A call that tells the worker to leave: the message-hook returns
    false, ReadPacket or Write return an error. *)
Definition is_fail (w : loop) (c : nat) (e : event) : bool :=
  match w, e with
  | HandleLoop, EvOnMessage c' _ false => bool_decide (c' = c)
  | ReadLoop, EvReadPacket c' None => bool_decide (c' = c)
  | WriteLoop, EvWrite c' _ false => bool_decide (c' = c)
  | _, _ => false
  end.

Definition failed (w : loop) (c : nat) (tr : list event) : bool :=
  existsb (is_fail w c) tr.

(** After a call that fails no thread may make the call again, and none
    has. *)
Definition FailInv (st : State) : Prop :=
  ∀ w c,
    (failed w c (trace (shared st)) = true →
     total (token w c) (threads st) ≤ 0 ∧ made c (conns (shared st)) = 1) ∧
    forallb (λ e, negb (is_call w c e))
      (after_first (is_fail w c) (trace (shared st))) = true.

(** The message-hook of [demoEnv] refuses the second packet. *)
Definition refuseEnv : Env :=
  {| PacketSendChanLimit := PacketSendChanLimit demoEnv;
     PacketReceiveChanLimit := PacketReceiveChanLimit demoEnv;
     isTCPListener := isTCPListener demoEnv;
     Accept := Accept demoEnv;
     OnConnect := OnConnect demoEnv;
     OnMessage := λ _ k _, bool_decide (k = 0%nat);
     ReadPacket := ReadPacket demoEnv;
     Write := Write demoEnv |}.

(** Two packets are decoded and queued; the dispatch worker passes the
    first to the message-hook, then the second, which the hook refuses;
    the worker closes the connection and exits. *)
Definition sched_refuse : list choice :=
  sched_accept ++ runs 3 7
  ++ [Run 2; Pick 2 SelRecv; Run 2; Run 2; Pick 2 SelRecv; Run 2; Run 2]
  ++ runs 2 13.

Definition st_refused : State :=
  default NewServer (run refuseEnv NewServer sched_refuse).

(** ** Packets in order *)

(** The connection an event is about. *)
Definition ev_conn (e : event) : option nat :=
  match e with
  | EvCall _ (CallClose c) | EvCall _ (CallWrite c _ _)
  | EvCloseRet _ c | EvWriteRet _ c _ _ | EvOnConnect c _ | EvOnMessage c _ _
  | EvOnClose c | EvStoreFlag c | EvCloseCloseChan c | EvCloseSendChan c
  | EvCloseReceiveChan c | EvRawClose c | EvReadPacket c _ | EvWrite c _ _
  | EvWorkerExit c _
  | EvLog (LogWriteBlocking c) | EvLog (LogWriteRecover c)
  | EvLog (LogLoopErr c _) | EvLog (LogLoopPanic c _) | EvLog (LogLoopExit c _) =>
      Some c
  | _ => None
  end.

(** The packet a consuming worker passes on: the dispatch worker to the
    message-hook, the write worker to [conn.Write]. *)
Definition output (w : loop) (c : nat) (e : event) : option Packet :=
  match w, e with
  | HandleLoop, EvOnMessage c' p _ => if bool_decide (c' = c) then Some p else None
  | WriteLoop, EvWrite c' p _ => if bool_decide (c' = c) then Some p else None
  | _, _ => None
  end.

(** The packet that enters the pipeline of a consuming worker: for the
    dispatch worker a packet ReadPacket decodes, for the write worker a
    packet a call of AsyncWritePacket has sent on the outbound queue
    (the call returns nil). *)
Definition input (w : loop) (c : nat) (e : event) : option Packet :=
  match w, e with
  | HandleLoop, EvReadPacket c' (Some p) =>
      if bool_decide (c' = c) then Some p else None
  | WriteLoop, EvWriteRet _ c' p None =>
      if bool_decide (c' = c) then Some p else None
  | _, _ => None
  end.

Definition outputs (w : loop) (c : nat) (tr : list event) : list Packet :=
  omap (output w c) tr.

Definition inputs (w : loop) (c : nat) (tr : list event) : list Packet :=
  omap (input w c) tr.

(** The packet [wh] the consuming worker [w] of connection [c] holds
    between the receive from its queue and the call it passes it to:
    none while it waits at its select; after the receive, unless the
    connection is closed (the worker then drops it). *)
Definition cloc (w : loop) (c : nat) (closed : bool) (wh : list Packet) (p : pc)
  : Prop :=
  match p with
  | WriteCall c' q => w = WriteLoop → c' = c → wh = [q]
  | HandleCall c' q => w = HandleLoop → c' = c → wh = [q]
  | LoopCheck c' w' q => w' = w → c' = c → closed = false → wh = [q]
  | _ => token w c p = 1 → wh = []
  end.

(** The packet [hr] the read worker of connection [c] holds between
    ReadPacket and the send on the inbound queue. *)
Definition ploc (w : loop) (c : nat) (hr : list Packet) (p : pc) : Prop :=
  match w with
  | HandleLoop =>
      match p with
      | ReadSend c' q => c' = c → hr = [q]
      | _ => token ReadLoop c p = 1 → hr = []
      end
  | _ => True
  end.

(** The packets that entered the pipeline of worker [w] are, in order:
    those it has passed on, the one it holds, those in its queue, and
    the one the read worker holds. *)
Definition FifoAt (w : loop) (c : nat) (ox : option Conn) (tr : list event)
    (ths : list pc) : Prop :=
  match ox with
  | None => outputs w c tr = [] ∧ inputs w c tr = []
  | Some x => ∃ wh hr,
      outputs w c tr ++ wh ++ Chan.buf (queue_of w x) ++ hr = inputs w c tr ∧
      (w = WriteLoop → hr = []) ∧
      (length wh ≤ 1)%nat ∧ (length hr ≤ 1)%nat ∧
      ∀ t p, ths !! t = Some p → cloc w c (IsClosed x) wh p ∧ ploc w c hr p
  end.

Definition FifoInv (st : State) : Prop :=
  ∀ w c, w ≠ ReadLoop →
    FifoAt w c (conns (shared st) !! c) (trace (shared st)) (threads st).

(** Two packets are queued for writing; the write worker takes the first
    and writes it. *)
Definition sched_one_written : list choice :=
  sched_accept
  ++ [Call (CallWrite 0 (mkPacket 10) 0); Run 5; Run 5;
      Call (CallWrite 0 (mkPacket 11) 0); Run 6; Run 6]
  ++ [Run 4; Pick 4 SelRecv; Run 4; Run 4].

Definition st_one_written : State :=
  default NewServer (run demoEnv NewServer sched_one_written).

(** ** Zero-timeout writes never block *)

(** A statement of a call [AsyncWritePacket(p, 0)] on connection [c]. *)
Definition zero_write (c : nat) (p : Packet) (q : pc) : bool :=
  match q with
  | WriteIsClosed c' p' tm | WriteSelect c' p' tm =>
      bool_decide (c' = c) && bool_decide (p' = p) && (tm =? 0)
  | WriteBlockLog c' p' | WriteRecover c' p' =>
      bool_decide (c' = c) && bool_decide (p' = p)
  | _ => false
  end.

(** Thread [t], run alone from [st], returns from its call of
    AsyncWritePacket on connection [c] within [n] statements. *)
Definition returns (E : Env) (n t c : nat) (p : Packet) (st : State) : Prop :=
  ∃ m st' evs r, (m ≤ n)%nat ∧ finish E m t st = Some st' ∧
    crashed (shared st') = false ∧ threads st' !! t = Some Exited ∧
    trace (shared st') = trace (shared st) ++ evs ++ [EvWriteRet t c p r].

(** A zero-timeout write that finds the queue of [st_two_written] full is
    past its [IsClosed] check. *)
Definition sched_write_full : list choice :=
  sched_accept
  ++ [Call (CallWrite 0 (mkPacket 10) 0); Run 5; Run 5;
      Call (CallWrite 0 (mkPacket 11) 0); Run 6; Run 6;
      Call (CallWrite 0 (mkPacket 12) 0); Run 7].

Definition st_write_full : State :=
  default NewServer (run demoEnv NewServer sched_write_full).

(** * Part III: proofs *)

(** ** Steps *)

Lemma step_inv E st ch st' :
  step E st ch = Some st' →
  crashed (shared st) = false ∧
  match ch with
  | Run t => ∃ p o, threads st !! t = Some p ∧
      exec_run E t p (shared st) = Some o ∧ st' = commit t o (threads st)
  | Pick t k => ∃ p o, threads st !! t = Some p ∧
      exec_pick k t p (shared st) = Some o ∧ st' = commit t o (threads st)
  | Handoff t r => ∃ ps pr ps' pr' s', threads st !! t = Some ps ∧
      threads st !! r = Some pr ∧
      exec_handoff t ps pr (shared st) = Some (ps', pr', s') ∧
      st' = mkState s' (<[r := pr']> (<[t := ps']> (threads st)))
  | Call f => ∃ p, entry f (shared st) = Some p ∧
      st' = mkState (emit (EvCall (length (threads st)) f) (shared st))
              (threads st ++ [p])
  end.
Proof.
  unfold step. destruct (crashed (shared st)); [done|]. intros H; split; [done|].
  destruct ch as [t|t k|t r|f]; simpl in H.
  - destruct (threads st !! t) as [p|] eqn:Hp; [|done]; simpl in H.
    destruct (exec_run E t p (shared st)) as [o|] eqn:Ho; [|done].
    simplify_eq/=. eauto.
  - destruct (threads st !! t) as [p|] eqn:Hp; [|done]; simpl in H.
    destruct (exec_pick k t p (shared st)) as [o|] eqn:Ho; [|done].
    simplify_eq/=. eauto.
  - destruct (threads st !! t) as [ps|] eqn:Hs; [|done]; simpl in H.
    destruct (threads st !! r) as [pr|] eqn:Hr; [|done]; simpl in H.
    destruct (exec_handoff t ps pr (shared st)) as [[[ps' pr'] s']|] eqn:Ho;
      [|done].
    simplify_eq/=. eauto 10.
  - destruct (entry f (shared st)) as [p|] eqn:Hp; [|done]. simplify_eq/=. eauto.
Qed.

Lemma exec_handoff_inv t ps pr s ps' pr' s' :
  exec_handoff t ps pr s = Some (ps', pr', s') →
  (∃ c p x, ps = ReadSend c p ∧ pr = LoopSelect c HandleLoop ∧
     conns s !! c = Some x ∧ Chan.can_handoff (packetReceiveChan x) = true ∧
     ps' = LoopSelect c ReadLoop ∧ pr' = LoopCheck c HandleLoop p ∧ s' = s) ∨
  (∃ c p timeout x, ps = WriteSelect c p timeout ∧ pr = LoopSelect c WriteLoop ∧
     conns s !! c = Some x ∧ Chan.can_handoff (packetSendChan x) = true ∧
     ps' = Exited ∧ pr' = LoopCheck c WriteLoop p ∧
     s' = emit (EvWriteRet t c p None) s).
Proof.
  intros H. destruct ps; simpl in H; try done; destruct pr; simpl in H; try done;
    destruct w; try done;
    destruct (conns s !! c) as [x|] eqn:Hx; simpl in H; try done;
    destruct (bool_decide _) eqn:Hc; simpl in H; try done;
    apply bool_decide_eq_true in Hc as <-;
    destruct (Chan.can_handoff _) eqn:Hh; simplify_eq/=; [left|right]; eauto 12.
Qed.

Lemma handoff_ne t ps pr s o :
  exec_handoff t ps pr s = Some o → ps ≠ pr.
Proof.
  destruct o as [[ps' pr'] s']. intros H.
  apply exec_handoff_inv in H as [(?&?&?&?&?&?)|(?&?&?&?&?&?&?)]; congruence.
Qed.

Lemma run_app E st sched1 sched2 :
  run E st (sched1 ++ sched2) = run E st sched1 ≫= λ st', run E st' sched2.
Proof.
  revert st. induction sched1 as [|ch sched1 IH]; intros st; simpl; [done|].
  destruct (step E st ch) as [st1|]; simpl; [apply IH|done].
Qed.

Lemma reachable_run E st sched st' :
  reachable E st → run E st sched = Some st' → reachable E st'.
Proof.
  revert st. induction sched as [|ch sched IH]; intros st Hst H; simpl in H.
  - by simplify_eq.
  - destruct (step E st ch) as [st1|] eqn:Hs; simpl in H; [|done].
    eapply IH; [|done]. by eapply reach_step.
Qed.

Lemma run_reachable E sched st : run E NewServer sched = Some st → reachable E st.
Proof. apply reachable_run, reach_init. Qed.

(** Simplifies the equation of one statement, case by case. *)
Ltac exec_inv H :=
  simpl in H;
  repeat (progress (cbv [goto panic wg_done write_ret] in H)
          || simplify_option_eq || case_match).

(** ** The wait group *)

Lemma total_app f l1 l2 : total f (l1 ++ l2) = total f l1 + total f l2.
Proof. induction l1 as [|p l1 IH]; simpl; lia. Qed.

Lemma total_insert f l t p p' :
  l !! t = Some p → total f (<[t := p']> l) = total f l - f p + f p'.
Proof.
  revert t. induction l as [|q l IH]; intros [|t] H; simplify_eq/=; [lia|].
  rewrite (IH t) by done. lia.
Qed.

Lemma total_nonneg f l : (∀ q, 0 ≤ f q) → 0 ≤ total f l.
Proof. intros Hf. induction l as [|a l IH]; simpl; [lia|specialize (Hf a); lia]. Qed.

Lemma total_lookup_le f l t p :
  (∀ q, 0 ≤ f q) → l !! t = Some p → f p ≤ total f l.
Proof.
  intros Hf. revert t. induction l as [|q l IH]; intros [|t] H; simplify_eq/=.
  - pose proof (total_nonneg f l Hf). lia.
  - specialize (IH _ H). specialize (Hf q). lia.
Qed.

Lemma total_zero f l t p :
  (∀ q, 0 ≤ f q) → total f l = 0 → l !! t = Some p → f p = 0.
Proof.
  intros Hf H0 Hp. pose proof (total_lookup_le f l t p Hf Hp).
  specialize (Hf p). lia.
Qed.

Lemma weight_nonneg q : 0 ≤ weight q.
Proof. unfold weight. destruct q; simpl; repeat case_match; lia. Qed.

Lemma InvWg_step E st ch st' : InvWg st → step E st ch = Some st' → InvWg st'.
Proof.
  unfold InvWg. intros I H. apply step_inv in H as [Hc H]. specialize (I Hc).
  destruct ch as [t|t k|t r|f].
  - destruct H as (p & o & Hp & Hx & ->).
    pose proof (total_lookup_le weight _ _ _ weight_nonneg Hp) as Hle.
    unfold commit; simpl. rewrite total_app, (total_insert _ _ _ _ _ Hp).
    destruct p; exec_inv Hx; simpl in *; intros; try done;
      unfold weight, after_pc in *; simpl in *; repeat case_match; simpl in *; lia.
  - destruct H as (p & o & Hp & Hx & ->).
    unfold commit; simpl. rewrite total_app, (total_insert _ _ _ _ _ Hp).
    destruct p; exec_inv Hx; simpl in *; intros; try done;
      unfold weight, after_pc in *; simpl in *; repeat case_match; simpl in *; lia.
  - destruct H as (ps & pr & ps' & pr' & s' & Hs & Hr & Hx & ->). simpl.
    assert (<[t:=ps']> (threads st) !! r = Some pr) as Hr'.
    { rewrite list_lookup_insert_ne; [done|]. intros ->.
      apply handoff_ne in Hx. congruence. }
    rewrite (total_insert _ _ _ _ _ Hr'), (total_insert _ _ _ _ _ Hs).
    apply exec_handoff_inv in Hx
      as [(c & p & x & -> & -> & ? & ? & -> & -> & ->)
         |(c & p & tm & x & -> & -> & ? & ? & -> & -> & ->)];
      simpl; intros _; rewrite I; unfold weight; simpl; lia.
  - destruct H as (p & Hp & ->). simpl. rewrite total_app. simpl. intros _.
    rewrite I. destruct f; simpl in Hp; simplify_option_eq; unfold weight; simpl; lia.
Qed.

Lemma InvWg_reachable E st : reachable E st → InvWg st.
Proof.
  induction 1 as [|st ch st' _ IH Hs]; [by intros _|]. by eapply InvWg_step.
Qed.

Lemma lookup_commit t o ths i q p :
  ths !! t = Some p →
  threads (commit t o ths) !! i = Some q →
  (i = t ∧ q = o.1.1) ∨ (i ≠ t ∧ ths !! i = Some q) ∨ q ∈ o.2.
Proof.
  intros Hp. unfold commit; simpl. intros Hq.
  apply lookup_app_Some in Hq as [Hq|[_ Hq]].
  - destruct (decide (i = t)) as [->|Hne].
    + rewrite list_lookup_insert_eq in Hq by (by eapply lookup_lt_Some).
      left. by simplify_eq.
    + rewrite list_lookup_insert_ne in Hq by done. right; left. done.
  - right; right. by eapply list_elem_of_lookup_2.
Qed.

Lemma lookup_handoff (ths : list pc) t r ps' pr' i q :
  t ≠ r →
  <[r := pr']> (<[t := ps']> ths) !! i = Some q →
  (i = t ∧ q = ps') ∨ (i = r ∧ q = pr') ∨ (i ≠ t ∧ i ≠ r ∧ ths !! i = Some q).
Proof.
  intros Hne Hq. pose proof (lookup_lt_Some _ _ _ Hq) as Hlt.
  rewrite !length_insert in Hlt.
  destruct (decide (i = r)) as [->|Hr].
  - rewrite list_lookup_insert_eq in Hq by (by rewrite length_insert).
    right; left. by simplify_eq.
  - rewrite list_lookup_insert_ne in Hq by done.
    destruct (decide (i = t)) as [->|Ht].
    + rewrite list_lookup_insert_eq in Hq by done. left. by simplify_eq.
    + rewrite list_lookup_insert_ne in Hq by done. right; right. done.
Qed.

Lemma Stopped_step E st ch st' : Stopped st → step E st ch = Some st' → Stopped st'.
Proof.
  intros [He Ht] H. apply step_inv in H as [Hc H].
  destruct ch as [t|t k|t r|f].
  - destruct H as (p & o & Hp & Hx & ->). pose proof (Ht t p Hp) as Hl. split.
    + destruct p; try done; exec_inv Hx; simpl in *; congruence.
    + intros i q Hq Hreg.
      destruct (lookup_commit _ _ _ _ _ _ Hp Hq) as [[-> ->]|[[_ Hq']|Hq']];
        [|by eauto|].
      all: destruct p; try done; exec_inv Hx; simpl in *;
        try done; try congruence; try (by apply elem_of_nil in Hq');
        try (by specialize (Hl eq_refl));
        destruct a; simpl in *; congruence.
  - destruct H as (p & o & Hp & Hx & ->). pose proof (Ht t p Hp) as Hl. split.
    + destruct p; try done; exec_inv Hx; simpl in *; congruence.
    + intros i q Hq Hreg.
      destruct (lookup_commit _ _ _ _ _ _ Hp Hq) as [[-> ->]|[[_ Hq']|Hq']];
        [|by eauto|].
      all: destruct p; try done; exec_inv Hx; simpl in *;
        try done; try congruence; try (by apply elem_of_nil in Hq');
        by specialize (Hl eq_refl).
  - destruct H as (ps & pr & ps' & pr' & s' & Hs & Hr & Hx & ->).
    pose proof (Ht _ _ Hr) as Hlr.
    apply exec_handoff_inv in Hx
      as [(c & p & x & -> & -> & ? & ? & -> & -> & ->)
         |(c & p & tm & x & -> & -> & ? & ? & -> & -> & ->)];
      by specialize (Hlr eq_refl).
  - destruct H as (p & Hp & ->). split; [done|]. simpl. intros i q Hq Hreg.
    apply lookup_app_Some in Hq as [Hq|[_ Hq]]; [by eauto|].
    apply list_lookup_singleton_Some in Hq as [_ <-].
    destruct f; simpl in Hp; simplify_option_eq; done.
Qed.

Lemma Stopped_run E st sched st' :
  Stopped st → run E st sched = Some st' → Stopped st'.
Proof.
  revert st. induction sched as [|ch sched IH]; intros st Hst H; simpl in H.
  - by simplify_eq.
  - destruct (step E st ch) as [st1|] eqn:Hs; simpl in H; [|done].
    eapply IH; [|done]. by eapply Stopped_step.
Qed.

(** ** Threads work on connections that exist *)

Lemma exec_run_conns E t p s o :
  exec_run E t p s = Some o → (length (conns s) ≤ length (conns o.1.2))%nat.
Proof.
  intros Hx. destruct p; exec_inv Hx; simpl;
    rewrite ?length_alter, ?length_app; simpl; lia.
Qed.

Lemma exec_pick_conns k t p s o :
  exec_pick k t p s = Some o → length (conns o.1.2) = length (conns s).
Proof.
  intros Hx. destruct p; exec_inv Hx; simpl; rewrite ?length_alter; done.
Qed.

Lemma Wf_step E st ch st' : Wf st → step E st ch = Some st' → Wf st'.
Proof.
  unfold Wf. intros Hwf H. apply step_inv in H as [Hc H].
  destruct ch as [t|t k|t r|f].
  - destruct H as (p & o & Hp & Hx & ->). pose proof (Hwf t p Hp) as Hw.
    pose proof (exec_run_conns _ _ _ _ _ Hx) as Hlen.
    intros i q Hq c Hqc.
    destruct (lookup_commit _ _ _ _ _ _ Hp Hq) as [[-> ->]|[[_ Hq']|Hq']].
    + destruct p; exec_inv Hx; simpl in *; simplify_eq;
        rewrite ?length_alter, ?length_app in *; simpl;
        try (specialize (Hw _ eq_refl)); try lia;
        destruct a; simplify_eq/=; done.
    + specialize (Hwf _ _ Hq' _ Hqc). simpl. lia.
    + destruct p; exec_inv Hx; simpl in *;
        try (by apply elem_of_nil in Hq');
        apply list_elem_of_singleton in Hq' as ->; simplify_eq/=;
        by specialize (Hw _ eq_refl).
  - destruct H as (p & o & Hp & Hx & ->). pose proof (Hwf t p Hp) as Hw.
    pose proof (exec_pick_conns _ _ _ _ _ Hx) as Hlen.
    intros i q Hq c Hqc.
    destruct (lookup_commit _ _ _ _ _ _ Hp Hq) as [[-> ->]|[[_ Hq']|Hq']].
    + destruct p; exec_inv Hx; simpl in *; simplify_eq;
        rewrite ?length_alter in *; by specialize (Hw _ eq_refl).
    + specialize (Hwf _ _ Hq' _ Hqc). simpl. lia.
    + destruct p; exec_inv Hx; simpl in *; by apply elem_of_nil in Hq'.
  - destruct H as (ps & pr & ps' & pr' & s' & Hs & Hr & Hx & ->).
    pose proof (handoff_ne _ _ _ _ _ Hx) as Hne.
    assert (t ≠ r) as Htr by (intros ->; congruence).
    pose proof (Hwf _ _ Hs) as Hws. pose proof (Hwf _ _ Hr) as Hwr.
    intros i q Hq c' Hqc. simpl in Hq.
    apply lookup_handoff in Hq as [[-> ->]|[[-> ->]|(_ & _ & Hq)]]; [| | |done].
    all: apply exec_handoff_inv in Hx
      as [(c & p & x & -> & -> & ? & ? & -> & -> & ->)
         |(c & p & tm & x & -> & -> & ? & ? & -> & -> & ->)];
      simplify_eq/=; eauto.
  - destruct H as (p & Hp & ->). simpl. intros i q Hq c Hqc.
    apply lookup_app_Some in Hq as [Hq|[_ Hq]]; [by eauto|].
    apply list_lookup_singleton_Some in Hq as [_ <-].
    destruct f; simpl in Hp; simplify_option_eq;
      by eapply lookup_lt_Some.
Qed.

Lemma Wf_reachable E st : reachable E st → Wf st.
Proof.
  induction 1 as [|st ch st' _ IH Hs]; [|by eapply Wf_step].
  intros t p H. simpl in H. by rewrite lookup_nil in H.
Qed.

(** ** [Close] runs its teardown once *)

Lemma OnceInv_at st :
  OnceInv st ↔ ∀ c, OnceAt c (conns (shared st) !! c) (torn c (trace (shared st)))
                      (close_returned c (trace (shared st))) (threads st).
Proof. done. Qed.

Lemma once_shared_view x y n :
  once_view y = once_view x → once_shared x n → once_shared y n.
Proof.
  unfold once_view, once_shared. intros [= H1 H2 H3 H4 H5 H6 H7].
  by rewrite H1, H2, H3, H4, H5, H6, H7.
Qed.

Lemma once_local_view c x y n t p :
  once_view y = once_view x → once_local c x n t p → once_local c y n t p.
Proof.
  unfold once_view, once_local. intros [= H1 H2 H3 H4 H5 H6 H7].
  destruct p; try done; by rewrite ?H1, ?H2.
Qed.

Lemma once_local_unlocked c x n t p : locked c p = false → once_local c x n t p.
Proof.
  destruct p; simpl; try done; intros H%bool_decide_eq_false; done.
Qed.

Lemma OnceAt_frame c ox ox' trn ret ths ths' :
  OnceAt c ox trn ret ths →
  once_view <$> ox' = once_view <$> ox →
  (∀ t q, ths' !! t = Some q → ths !! t = Some q ∨ locked c q = false) →
  OnceAt c ox' trn ret ths'.
Proof.
  intros [Ht H] Hv Hths. split; [done|].
  destruct ox as [x|], ox' as [y|]; simpl in Hv; try done.
  apply (inj Some) in Hv.
  destruct H as (Hs & Hr & Hl). split_and!.
  - by eapply once_shared_view.
  - intros Hret. specialize (Hr Hret). unfold once_view in *. congruence.
  - intros t q Hq. destruct (Hths t q Hq) as [Hq'|Hu].
    + eapply once_local_view; eauto.
    + by apply once_local_unlocked.
Qed.

Lemma torn_snoc c tr e :
  torn c (tr ++ [e]) = torn c tr ++ (if is_teardown c e then [e] else []).
Proof. unfold torn. rewrite List.filter_app. simpl. by destruct (is_teardown c e). Qed.

Lemma close_returned_snoc c tr e :
  close_returned c (tr ++ [e]) = close_returned c tr || is_close_ret c e.
Proof. unfold close_returned. rewrite existsb_app. simpl. by rewrite orb_false_r. Qed.

Lemma view_alter (f : Conn → Conn) c0 (l : list Conn) c :
  (∀ x, l !! c0 = Some x → once_view (f x) = once_view x) →
  once_view <$> (alter f c0 l !! c) = once_view <$> (l !! c).
Proof.
  intros Hf. destruct (decide (c = c0)) as [->|Hne].
  - rewrite list_lookup_alter_eq. destruct (l !! c0) as [x|] eqn:Hx; simpl; [|done].
    by rewrite Hf.
  - by rewrite list_lookup_alter_ne.
Qed.

Lemma send_ok_closed ch p ch' :
  Chan.send ch p = Chan.SendOk ch' → Chan.closed ch' = Chan.closed ch.
Proof. unfold Chan.send. repeat case_match; intros; simplify_eq/=; done. Qed.

Lemma recv_ok_closed ch p ch' :
  Chan.recv ch = Chan.RecvOk p ch' → Chan.closed ch' = Chan.closed ch.
Proof. unfold Chan.recv. repeat case_match; intros; simplify_eq/=; done. Qed.

Lemma once_frame c ox trn ret ths ox' trn' ret' t p p' sp :
  OnceAt c ox trn ret ths →
  ths !! t = Some p →
  once_view <$> ox' = once_view <$> ox →
  trn' = trn → ret' = ret →
  locked c p' = false → Forall (λ q, locked c q = false) sp →
  OnceAt c ox' trn' ret' (<[t:=p']> ths ++ sp).
Proof.
  intros I Hp Hv -> -> Hl Hsp.
  eapply OnceAt_frame; [exact I|exact Hv|].
  intros i q Hq.
  destruct (lookup_commit t (p', mkShared false 0 [] [] false, sp) _ _ _ _ Hp Hq)
    as [[-> ->]|[[_ Hq']|Hq']]; simpl in *.
  - by right.
  - by left.
  - right. by eapply (proj1 (list.Forall_forall _ _) Hsp).
Qed.

Arguments OnceAt : simpl never.

Ltac view_tac :=
  simpl; try reflexivity;
  repeat (apply view_alter; intros; simplify_eq);
  unfold once_view; simpl;
  repeat match goal with
         | H : Chan.send _ _ = Chan.SendOk _ |- _ => apply send_ok_closed in H; rewrite H
         | H : Chan.recv _ = Chan.RecvOk _ _ |- _ => apply recv_ok_closed in H; rewrite H
         end; try reflexivity.

Lemma locked_after c c0 a : locked c (after_pc c0 a) = false.
Proof. by destruct a. Qed.

Ltac once_ne I Hp :=
  eapply once_frame;
  [exact I | exact Hp
  | simpl; rewrite ?list_lookup_alter_ne by done; reflexivity
  | rewrite ?torn_snoc; simpl; rewrite ?bool_decide_eq_false_2 by done;
    rewrite ?app_nil_r; reflexivity
  | rewrite ?close_returned_snoc; simpl; rewrite ?bool_decide_eq_false_2 by done;
    rewrite ?orb_false_r; reflexivity
  | simpl; rewrite ?locked_after, ?bool_decide_eq_false_2 by done; reflexivity
  | repeat constructor ].

Lemma take_teardown_snoc c (trn : list event) e i :
  trn = take (length trn) (teardown c) → length trn = i →
  teardown c !! i = Some e →
  trn ++ [e] = take (length (trn ++ [e])) (teardown c).
Proof.
  intros Ht Hn He. rewrite length_app, Hn. simpl. rewrite Hn in Ht.
  rewrite Nat.add_1_r. erewrite take_S_r by done. by rewrite <-Ht.
Qed.

Ltac once_eq I Hp Hwf :=
  match goal with
  | Hx : conns _ !! ?c0 = Some ?x |- _ => idtac
  | _ : _ !! _ = Some ?p |- _ =>
      let Hlt := fresh "Hlt" in
      pose proof (Hwf _ _ Hp _ eq_refl) as Hlt;
      apply lookup_lt_is_Some in Hlt as [? ?]
  end;
  match goal with
  | Hx : conns _ !! ?c0 = Some ?x |- _ =>
      rewrite ?list_lookup_alter_eq; rewrite Hx in I |- *; simpl;
      unfold OnceAt in I |- *;
      let Ht := fresh "Ht" in let Hs := fresh "Hs" in let Hr := fresh "Hr" in
      let Hl := fresh "Hl" in let Hme := fresh "Hme" in
      destruct I as (Ht & Hs & Hr & Hl);
      pose proof (Hl _ _ Hp) as Hme; simpl in Hme; try specialize (Hme eq_refl);
      rewrite ?torn_snoc, ?close_returned_snoc; simpl;
      rewrite ?bool_decide_eq_true_2 by done;
      rewrite ?app_nil_r, ?orb_false_r, ?orb_true_r
  end.

Lemma close_Some ch ch' :
  Chan.close ch = Some ch' → Chan.closed ch = false ∧ Chan.closed ch' = true.
Proof. unfold Chan.close. destruct (Chan.closed ch) eqn:?; intros; by simplify_eq/=. Qed.

Ltac decide_le :=
  repeat match goal with
         | H : ?A ↔ (?a ≤ ?b)%nat |- _ =>
             first [ let Hle := fresh in
                     assert (a ≤ b)%nat as Hle by lia; apply H in Hle; clear H
                   | let Hle := fresh in
                     assert (¬ (a ≤ b)%nat) as Hle by lia; rewrite <-H in Hle; clear H ]
         end.

Ltac once_solve :=
  simpl in *;
  repeat match goal with
         | H : _ ∧ _ |- _ => destruct H
         | H : ?x = ?x → _ |- _ => specialize (H eq_refl)
         | H : ?P → _, H' : ?P |- _ => specialize (H H')
         | |- _ ∧ _ => split
         | |- _ ↔ _ => split
         | |- _ → _ => intro
         end;
  try done; try lia; try congruence; try tauto.

Ltac once_fin t :=
  repeat match goal with
         | H : Chan.close _ = Some _ |- _ => apply close_Some in H as [? ?]
         | H : _ ∧ _ |- _ => destruct H
         end;
  match goal with
  | Ht : torn ?c ?tr = take _ _, Hl : ∀ t p, _ !! t = Some p → once_local _ _ _ t p
    |- _ =>
      split; [first [exact Ht
                    |eapply take_teardown_snoc; [exact Ht|eassumption|reflexivity]]|];
      rewrite ?length_app; simpl;
      try match goal with Hn : length (torn c tr) = _ |- _ => rewrite Hn in * end;
      split; [unfold once_shared in *;
              repeat match goal with H : _ ∧ _ |- _ => destruct H end;
              decide_le; once_solve|];
      split; [once_solve|];
      let i := fresh "i" in let q := fresh "q" in let Hq := fresh "Hq" in
      intros i q Hq; destruct (decide (i = t)) as [->|?];
      [ rewrite list_lookup_insert_eq in Hq by (by eapply lookup_lt_Some);
        injection Hq as <-;
        try match goal with a : after |- _ => destruct a end;
        unfold once_shared in *; once_solve
      | rewrite list_lookup_insert_ne in Hq by done; specialize (Hl i q Hq);
        destruct q; once_solve ]
  end.

Lemma OnceInv_step E st ch st' :
  Wf st → OnceInv st → step E st ch = Some st' → OnceInv st'.
Proof.
  intros Hwf I H. apply step_inv in H as [Hc H]. rewrite OnceInv_at in *.
  destruct ch as [t|t k|t r|f].
  - destruct H as (p & [[p' s'] sp] & Hp & Hx & ->). intros c. specialize (I c).
    simpl.
    destruct p; exec_inv Hx;
    try (by (eapply once_frame; [exact I|exact Hp|view_tac|
                  rewrite ?torn_snoc; simpl; rewrite ?app_nil_r; reflexivity|
                  rewrite ?close_returned_snoc; simpl; rewrite ?orb_false_r; reflexivity|
                  reflexivity|repeat constructor])).
    2-13: match goal with
          | _ : _ !! _ = Some (?P ?c0 _) |- _ =>
              destruct (decide (c = c0)) as [->|Hne]; [|by once_ne I Hp]
          | _ : _ !! _ = Some (?P ?c0 _ _) |- _ =>
              destruct (decide (c = c0)) as [->|Hne]; [|by once_ne I Hp]
          end.
    2-13: once_eq I Hp Hwf.
    2-13: try (by once_fin t).
    destruct (decide (c < length (conns (shared st)))%nat) as [Hlt|Hge].
    { eapply once_frame; [exact I|exact Hp| |reflexivity|reflexivity|reflexivity|constructor].
      simpl. by rewrite lookup_app_l. }
    rewrite (lookup_ge_None_2 (conns (shared st)) c) in I by lia.
    destruct I as (Ht & Hn & Hret). rewrite app_nil_r.
    destruct ((conns (shared st) ++ [newConn E]) !! c) as [y|] eqn:Hy; [|done].
    apply lookup_app_Some in Hy as [Hy|[_ Hy]];
      [apply lookup_lt_Some in Hy; lia|].
    apply list_lookup_singleton_Some in Hy as [_ <-].
    split; [done|]. rewrite Hn, Hret. split_and!; [|done|].
    { unfold once_shared; simpl. split_and!; try done; try split; try done; lia. }
    intros i q Hq. destruct (decide (i = t)) as [->|?].
    + rewrite list_lookup_insert_eq in Hq by (by eapply lookup_lt_Some).
      by injection Hq as <-.
    + rewrite list_lookup_insert_ne in Hq by done.
      pose proof (Hwf _ _ Hq) as Hw.
      destruct q; simpl in *; try done; intros ->; specialize (Hw _ eq_refl); lia.
  - destruct H as (p & [[p' s'] sp] & Hp & Hx & ->). intros c. specialize (I c).
    simpl.
    destruct p; exec_inv Hx;
    try (by (eapply once_frame; [exact I|exact Hp|view_tac|
                  rewrite ?torn_snoc; simpl; rewrite ?app_nil_r; reflexivity|
                  rewrite ?close_returned_snoc; simpl; rewrite ?orb_false_r; reflexivity|
                  reflexivity|repeat constructor])).
  - destruct H as (ps & pr & ps' & pr' & s' & Hs & Hr & Hx & ->). intros c.
    specialize (I c). simpl.
    pose proof (handoff_ne _ _ _ _ _ Hx) as Hne.
    assert (t ≠ r) as Htr by (intros ->; congruence).
    assert (conns s' = conns (shared st) ∧ torn c (trace s') = torn c (trace (shared st))
            ∧ close_returned c (trace s') = close_returned c (trace (shared st))
            ∧ locked c ps' = false ∧ locked c pr' = false) as (-> & -> & -> & Hls & Hlr).
    { apply exec_handoff_inv in Hx
        as [(c0 & p & x & -> & -> & ? & ? & -> & -> & ->)
           |(c0 & p & tm & x & -> & -> & ? & ? & -> & -> & ->)]; simpl;
        rewrite ?torn_snoc, ?close_returned_snoc; simpl;
        by rewrite ?app_nil_r, ?orb_false_r. }
    eapply OnceAt_frame; [exact I|done|].
    intros i q Hq.
    apply lookup_handoff in Hq as [[-> ->]|[[-> ->]|(_ & _ & Hq)]]; auto.
  - destruct H as (p & Hp & ->). intros c. specialize (I c). simpl.
    rewrite torn_snoc, close_returned_snoc. simpl. rewrite app_nil_r, orb_false_r.
    eapply OnceAt_frame; [exact I|done|].
    intros i q Hq. apply lookup_app_Some in Hq as [Hq|[_ Hq]]; [by left|right].
    apply list_lookup_singleton_Some in Hq as [_ <-].
    destruct f; simpl in Hp; simplify_option_eq; done.
Qed.

(** ** Claims on [Close] and [Stop] *)

Lemma exec_run_exit E t p s o :
  exec_run E t p s = Some o → exitChan s = true → exitChan o.1.2 = true.
Proof. intros Hx He. destruct p; exec_inv Hx; simpl; done. Qed.

Lemma exec_pick_exit k t p s o :
  exec_pick k t p s = Some o → exitChan o.1.2 = exitChan s.
Proof. intros Hx. destruct p; exec_inv Hx; simpl; done. Qed.

Lemma ExitInv_step E st ch st' : ExitInv st → step E st ch = Some st' → ExitInv st'.
Proof.
  unfold ExitInv. intros I H. apply step_inv in H as [Hc H].
  destruct ch as [t|t k|t r|f].
  - destruct H as (p & o & Hp & Hx & ->). intros i Hq.
    destruct (lookup_commit _ _ _ _ _ _ Hp Hq) as [[-> Hq']|[[_ Hq']|Hq']].
    + destruct p; exec_inv Hx; simpl in *; simplify_eq; try done;
        destruct a; done.
    + unfold commit; simpl. eapply exec_run_exit; eauto.
    + destruct p; exec_inv Hx; simpl in *;
        try (by apply elem_of_nil in Hq');
        by apply list_elem_of_singleton in Hq'.
  - destruct H as (p & o & Hp & Hx & ->). intros i Hq.
    unfold commit at 1; simpl. rewrite (exec_pick_exit _ _ _ _ _ Hx).
    destruct (lookup_commit _ _ _ _ _ _ Hp Hq) as [[-> Hq']|[[_ Hq']|Hq']].
    + destruct p; exec_inv Hx; simpl in *; simplify_eq.
    + eauto.
    + destruct p; exec_inv Hx; simpl in *; by apply elem_of_nil in Hq'.
  - destruct H as (ps & pr & ps' & pr' & s' & Hs & Hr & Hx & ->).
    pose proof (handoff_ne _ _ _ _ _ Hx) as Hne.
    assert (t ≠ r) as Htr by (intros ->; congruence).
    intros i Hq. simpl in *.
    apply lookup_handoff in Hq as [[-> Hq]|[[-> Hq]|(_ & _ & Hq)]]; [| | |done].
    all: apply exec_handoff_inv in Hx
      as [(c & p & x & -> & -> & ? & ? & -> & -> & ->)
         |(c & p & tm & x & -> & -> & ? & ? & -> & -> & ->)];
      simplify_eq/=; eauto.
  - destruct H as (p & Hp & ->). simpl. intros i Hq.
    apply lookup_app_Some in Hq as [Hq|[_ Hq]]; [by eauto|].
    apply list_lookup_singleton_Some in Hq as [_ Hq].
    destruct f; simpl in Hp; simplify_option_eq.
Qed.

Lemma ExitInv_reachable E st : reachable E st → ExitInv st.
Proof.
  induction 1 as [|st ch st' _ IH Hs]; [|by eapply ExitInv_step].
  intros t H. simpl in H. by rewrite lookup_nil in H.
Qed.

Lemma OnceInv_reachable E st : reachable E st → OnceInv st.
Proof.
  induction 1 as [|st ch st' Hr IH Hs].
  - intros c. by compute.
  - eapply OnceInv_step; eauto. by eapply Wf_reachable.
Qed.

Lemma count_OnClose_torn c tr :
  count_OnClose c tr =
  length (List.filter (λ e, bool_decide (e = EvOnClose c)) (torn c tr)).
Proof.
  unfold count_OnClose, torn. induction tr as [|e tr IH]; simpl; [done|].
  destruct (bool_decide (e = EvOnClose c)) eqn:He.
  - apply bool_decide_eq_true in He as ->. simpl.
    rewrite bool_decide_eq_true_2 by done. simpl.
    rewrite bool_decide_eq_true_2 by done. simpl. by rewrite IH.
  - destruct (is_teardown c e); simpl; rewrite ?He; done.
Qed.

Lemma count_OnClose_take c n :
  length (List.filter (λ e, bool_decide (e = EvOnClose c)) (take n (teardown c)))
  = if decide (6 ≤ n)%nat then 1%nat else 0%nat.
Proof.
  do 6 (destruct n as [|n];
        [simpl; repeat case_bool_decide; simplify_eq; try case_decide; (done || lia)|]).
  simpl. rewrite take_nil. repeat case_bool_decide; simplify_eq; try case_decide; (done || lia).
Qed.

Lemma teardown_once E st c :
  reachable E st →
  (∃ n, torn c (trace (shared st)) = take n (teardown c)) ∧
  (count_OnClose c (trace (shared st)) ≤ 1)%nat ∧
  (close_returned c (trace (shared st)) = true →
     torn c (trace (shared st)) = teardown c ∧
     count_OnClose c (trace (shared st)) = 1%nat).
Proof.
  intros Hrun. apply OnceInv_reachable in Hrun.
  destruct (Hrun c) as [Ht Hc]. simpl in Ht, Hc.
  set (n := length (torn c (trace (shared st)))) in *.
  split; [by eexists|]. rewrite count_OnClose_torn, Ht, count_OnClose_take.
  split; [case_decide; lia|]. intros Hret.
  destruct (conns (shared st) !! c) as [x|]; [|destruct Hc; congruence].
  destruct Hc as ((Hd & _) & Hr & _). rewrite (Hd (Hr Hret)). done.
Qed.

(** C1.  The teardown statements of [Close] that have run on a connection
    are an initial segment of the six statements of the source, in their
    order, whatever the number of callers and their interleaving; so the
    closed-hook has fired at most once, and once some call of [Close] has
    returned all six have run, the closed-hook exactly once. *)
Theorem Close_teardown_once E sched st c :
  run E NewServer sched = Some st →
  (∃ n, torn c (trace (shared st)) = take n (teardown c)) ∧
  (count_OnClose c (trace (shared st)) ≤ 1)%nat ∧
  (close_returned c (trace (shared st)) = true →
     torn c (trace (shared st)) = teardown c ∧
     count_OnClose c (trace (shared st)) = 1%nat).
Proof. intros Hrun. by apply (teardown_once E), run_reachable with sched. Qed.

Lemma Close_teardown_once_witness :
  run demoEnv NewServer sched_two_closers = Some st_two_closers ∧
  (∃ n, torn 0 (trace (shared st_two_closers)) = take n (teardown 0)) ∧
  (count_OnClose 0 (trace (shared st_two_closers)) ≤ 1)%nat ∧
  (close_returned 0 (trace (shared st_two_closers)) = true →
     torn 0 (trace (shared st_two_closers)) = teardown 0 ∧
     count_OnClose 0 (trace (shared st_two_closers)) = 1%nat).
Proof.
  split; [vm_compute; reflexivity|].
  apply (Close_teardown_once demoEnv sched_two_closers). vm_compute; reflexivity.
Defined.

(** C8.  When [Stop] returns, no thread is a registered worker: the accept
    worker, the goroutine of every connection and the three workers of
    every connection have run their [Done()].  From then on the only
    workers are calls of [Start] that registered after [Stop] returned;
    they find [exitChan] closed and leave without accepting. *)
Theorem Stop_waits_for_workers E sched st t st' sched' st'' :
  run E NewServer sched = Some st →
  threads st !! t = Some StopWait →
  step E st (Run t) = Some st' →
  run E st' sched' = Some st'' →
  (∀ i p, threads st' !! i = Some p → registered p = false) ∧
  (∀ i p, threads st'' !! i = Some p → registered p = true → leaving p = true).
Proof.
  intros Hrun Hp Hstep Hrun'. apply run_reachable in Hrun.
  pose proof (InvWg_reachable _ _ Hrun) as Hwg.
  pose proof (ExitInv_reachable _ _ Hrun _ Hp) as He.
  apply step_inv in Hstep as (Hc & p & o & Hp' & Hx & ->).
  rewrite Hp in Hp'. injection Hp' as <-. specialize (Hwg Hc).
  simpl in Hx. destruct (waitGroup (shared st) =? 0) eqn:H0; [|done].
  apply Z.eqb_eq in H0. rewrite H0 in Hwg. unfold goto in Hx. simplify_eq.
  assert (∀ i p, threads (commit t (Exited, emit (EvStopRet t) (shared st), [])
                            (threads st)) !! i = Some p → registered p = false)
    as Hnone.
  { intros i p Hq.
    destruct (lookup_commit _ _ _ _ _ _ Hp Hq) as [[-> ->]|[[_ Hq']|Hq']];
      [done| |by apply elem_of_nil in Hq'].
    pose proof (total_zero weight _ _ _ weight_nonneg (eq_sym Hwg) Hq') as Hw.
    unfold weight in Hw. destruct (registered p); [|done].
    destruct p; simpl in Hw; lia. }
  split; [done|].
  eapply Stopped_run in Hrun' as [_ Hl]; [done|]. split; [done|].
  intros i p Hq Hreg. by rewrite (Hnone i p Hq) in Hreg.
Qed.

Lemma Stop_waits_for_workers_witness :
  run demoEnv NewServer sched_stop = Some st_stopping ∧
  threads st_stopping !! 5%nat = Some StopWait ∧
  step demoEnv st_stopping (Run 5) = Some st_stopped ∧
  run demoEnv st_stopped sched_late_start = Some st_late_start ∧
  (∀ i p, threads st_stopped !! i = Some p → registered p = false) ∧
  (∀ i p, threads st_late_start !! i = Some p → registered p = true →
     leaving p = true).
Proof.
  do 4 (split; [vm_compute; reflexivity|]).
  apply (Stop_waits_for_workers demoEnv sched_stop st_stopping 5 st_stopped
           sched_late_start st_late_start); vm_compute; reflexivity.
Defined.

(** ** Claims on a second [Stop] and on failing accepts *)

Lemma step_run E st t p p' s' sp :
  crashed (shared st) = false →
  threads st !! t = Some p →
  exec_run E t p (shared st) = Some (p', s', sp) →
  step E st (Run t) = Some (mkState s' (<[t := p']> (threads st) ++ sp)).
Proof. intros Hc Hp Hx. unfold step. rewrite Hc, Hp. simpl. by rewrite Hx. Qed.


(** C2, as stated: a second call of [Stop] completes without fault.  It
    does not: the first call returns, the second panics on
    [close(s.exitChan)] and never returns. *)
Lemma Stop_twice_panics :
  run demoEnv NewServer sched_stop_twice = Some st_stop_twice ∧
  crashed (shared st_stop_twice) = true ∧
  trace (shared st_stop_twice) =
    [EvCall 0 CallStop; EvStopRet 0; EvCall 1 CallStop; EvPanic 1] ∧
  ¬ In (EvStopRet 1) (trace (shared st_stop_twice)).
Proof.
  split_and!; [vm_compute; reflexivity..|].
  vm_compute. intros H; repeat destruct H as [H|H]; done.
Qed.

(** C2, amended.  [close(s.exitChan)], the first statement of [Stop],
    raises the signal without fault when it is not raised yet; on a server
    whose signal is raised it panics, and the signal stays raised. *)
Theorem Stop_raises_once E st t :
  crashed (shared st) = false →
  threads st !! t = Some StopClose →
  ∃ st', step E st (Run t) = Some st' ∧
    exitChan (shared st') = true ∧
    if exitChan (shared st)
    then crashed (shared st') = true ∧
         trace (shared st') = trace (shared st) ++ [EvPanic t]
    else crashed (shared st') = false ∧
         threads st' !! t = Some StopWait ∧
         trace (shared st') = trace (shared st).
Proof.
  intros Hc Hp. pose proof (lookup_lt_Some _ _ _ Hp) as Hlt.
  destruct (exitChan (shared st)) eqn:He.
  - erewrite step_run; [|done|done|simpl; rewrite He; reflexivity].
    eexists; split; [done|]. done.
  - erewrite step_run; [|done|done|simpl; rewrite He; reflexivity].
    eexists; split; [done|]. simpl. split_and!; try done.
    rewrite app_nil_r. by apply list_lookup_insert_eq.
Qed.

Lemma Stop_raises_once_witness :
  (crashed (shared st_stop_called) = false ∧
   threads st_stop_called !! 0%nat = Some StopClose ∧
   ∃ st', step demoEnv st_stop_called (Run 0) = Some st' ∧
     exitChan (shared st') = true ∧
     if exitChan (shared st_stop_called)
     then crashed (shared st') = true ∧
          trace (shared st') = trace (shared st_stop_called) ++ [EvPanic 0]
     else crashed (shared st') = false ∧
          threads st' !! 0%nat = Some StopWait ∧
          trace (shared st') = trace (shared st_stop_called)) ∧
  (crashed (shared st_stop_called_again) = false ∧
   threads st_stop_called_again !! 1%nat = Some StopClose ∧
   ∃ st', step demoEnv st_stop_called_again (Run 1) = Some st' ∧
     exitChan (shared st') = true ∧
     if exitChan (shared st_stop_called_again)
     then crashed (shared st') = true ∧
          trace (shared st') = trace (shared st_stop_called_again) ++ [EvPanic 1]
     else crashed (shared st') = false ∧
          threads st' !! 1%nat = Some StopWait ∧
          trace (shared st') = trace (shared st_stop_called_again)).
Proof.
  split; (split; [vm_compute; reflexivity|]); (split; [vm_compute; reflexivity|]).
  - apply (Stop_raises_once demoEnv st_stop_called 0); vm_compute; reflexivity.
  - apply (Stop_raises_once demoEnv st_stop_called_again 1); vm_compute; reflexivity.
Defined.

(** C6, as stated: every failed Accept produces a log line.  It does
    not: the accept worker's second Accept fails, the worker is back at the
    top of its loop, and the history has no log line. *)
Lemma Accept_failure_not_logged :
  run demoEnv NewServer sched_accept_fails = Some st_accept_fails ∧
  In (EvAccept 0 false) (trace (shared st_accept_fails)) ∧
  logs (trace (shared st_accept_fails)) = [] ∧
  threads st_accept_fails !! 0%nat = Some (StartSelect 0 2).
Proof.
  split_and!; [vm_compute; reflexivity| |vm_compute; reflexivity..].
  vm_compute. tauto.
Qed.

(** C6, amended.  A failed Accept writes no log line and takes the accept
    worker straight back to the select at the top of its loop; unless
    [exitChan] is closed the worker then arms the deadline (on a TCP
    listener) and calls Accept again. *)
Theorem Accept_failure_retries E st t l k :
  crashed (shared st) = false →
  threads st !! t = Some (StartAccept l k) →
  Accept E l k = false →
  ∃ st', step E st (Run t) = Some st' ∧
    threads st' !! t = Some (StartSelect l (S k)) ∧
    trace (shared st') = trace (shared st) ++ [EvAccept l false] ∧
    (exitChan (shared st) = false →
     ∃ st'', run E st' [Run t; Run t] = Some st'' ∧
       threads st'' !! t = Some (StartAccept l (S k)) ∧
       logs (trace (shared st'')) = logs (trace (shared st))).
Proof.
  intros Hc Hp Hacc. pose proof (lookup_lt_Some _ _ _ Hp) as Hlt.
  erewrite step_run; [|done|done|simpl; rewrite Hacc; reflexivity].
  eexists; split; [done|]. simpl. rewrite app_nil_r.
  rewrite list_lookup_insert_eq by done. split_and!; try done.
  intros He. simpl.
  erewrite step_run;
    [|done|simpl; by apply list_lookup_insert_eq|simpl; rewrite He; reflexivity].
  simpl. rewrite app_nil_r, list_insert_insert_eq.
  destruct (isTCPListener E l) eqn:Htcp.
  all: erewrite step_run;
    [|done|simpl; by apply list_lookup_insert_eq|simpl; rewrite Htcp; reflexivity].
  all: simpl; eexists; split; [done|]; simpl.
  all: rewrite app_nil_r, list_insert_insert_eq.
  all: rewrite list_lookup_insert_eq by done; split; [done|].
  all: unfold logs; rewrite ?List.filter_app; simpl; by rewrite ?app_nil_r.
Qed.

Lemma Accept_failure_retries_witness :
  crashed (shared st_accepting) = false ∧
  threads st_accepting !! 0%nat = Some (StartAccept 0 1) ∧
  Accept demoEnv 0 1 = false ∧
  ∃ st', step demoEnv st_accepting (Run 0) = Some st' ∧
    threads st' !! 0%nat = Some (StartSelect 0 2) ∧
    trace (shared st') = trace (shared st_accepting) ++ [EvAccept 0 false] ∧
    (exitChan (shared st_accepting) = false →
     ∃ st'', run demoEnv st' [Run 0; Run 0] = Some st'' ∧
       threads st'' !! 0%nat = Some (StartAccept 0 2) ∧
       logs (trace (shared st'')) = logs (trace (shared st_accepting))).
Proof.
  do 3 (split; [vm_compute; reflexivity|]).
  apply (Accept_failure_retries demoEnv st_accepting 0 0 1); vm_compute; reflexivity.
Defined.

(** ** Zero-timeout writes *)

Lemma write_rets_snoc c tr e :
  write_rets c (tr ++ [e]) =
  write_rets c tr ++ match write_ret_of c e with Some r => [r] | None => [] end.
Proof. unfold write_rets. rewrite omap_app. simpl. by destruct (write_ret_of c e). Qed.

Lemma finish_exited E n t st :
  threads st !! t = Some Exited → finish E n t st = Some st.
Proof. intros H. destruct n; simpl; by rewrite H. Qed.

Lemma finish_run E n t st p p' s' sp :
  crashed (shared st) = false →
  threads st !! t = Some p → p ≠ Exited →
  exec_run E t p (shared st) = Some (p', s', sp) →
  finish E (S n) t st =
  finish E n t (mkState s' (<[t := p']> (threads st) ++ sp)).
Proof.
  intros Hc Hp Hne Hx. simpl. rewrite Hp.
  rewrite (step_run _ _ _ _ _ _ _ Hc Hp Hx). by destruct p.
Qed.

Lemma step_call E st f p :
  crashed (shared st) = false →
  entry f (shared st) = Some p →
  step E st (Call f) =
  Some (mkState (emit (EvCall (length (threads st)) f) (shared st))
          (threads st ++ [p])).
Proof. intros Hc Hp. unfold step. rewrite Hc. simpl. by rewrite Hp. Qed.

Lemma lookup_snoc_new (ths : list pc) p : (ths ++ [p]) !! length ths = Some p.
Proof. by rewrite lookup_app_r, Nat.sub_diag. Qed.

Lemma insert_snoc_new (ths : list pc) p q :
  <[length ths := q]> (ths ++ [p]) = ths ++ [q].
Proof. by rewrite insert_app_r_alt, Nat.sub_diag. Qed.

(** A zero-timeout write on an open connection whose queue has room. *)
Lemma write_alone_room E st c x p :
  crashed (shared st) = false →
  conns (shared st) !! c = Some x →
  IsClosed x = false →
  Chan.closed (packetSendChan x) = false →
  (length (Chan.buf (packetSendChan x)) < Chan.cap (packetSendChan x))%nat →
  ∃ st', call_alone E (CallWrite c p 0) st = Some st' ∧
    crashed (shared st') = false ∧
    conns (shared st') !! c =
      Some (set_packetSendChan
              (Chan.mk (Chan.cap (packetSendChan x))
                 (Chan.buf (packetSendChan x) ++ [p]) false) x) ∧
    write_rets c (trace (shared st')) = write_rets c (trace (shared st)) ++ [None].
Proof.
  intros Hc Hx Hopen Hch Hroom. unfold call_alone.
  erewrite step_call; [|done|cbn; by rewrite Hx]. cbn [mbind option_bind].
  erewrite finish_run;
    [|done|apply lookup_snoc_new|done|cbn; rewrite Hx; cbn; rewrite Hopen; done].
  cbn [threads shared]. rewrite insert_snoc_new, app_nil_r.
  erewrite finish_run;
    [|done|apply lookup_snoc_new|done
     |cbn; rewrite Hx; cbn; unfold Chan.send; rewrite Hch;
      apply Nat.ltb_lt in Hroom; rewrite Hroom; done].
  cbn [threads shared]. rewrite insert_snoc_new, app_nil_r.
  rewrite finish_exited by apply lookup_snoc_new.
  eexists; split; [done|].
  cbn [shared crashed conns trace emit upd_conn]. split; [done|]. split.
  - by rewrite list_lookup_alter_eq, Hx.
  - rewrite !write_rets_snoc.
    cbn [write_ret_of]. rewrite decide_True by done. by rewrite app_nil_r.
Qed.

(** A zero-timeout write on an open connection whose queue is full. *)
Lemma write_alone_full E st c x p :
  crashed (shared st) = false →
  conns (shared st) !! c = Some x →
  IsClosed x = false →
  Chan.closed (packetSendChan x) = false →
  (Chan.cap (packetSendChan x) ≤ length (Chan.buf (packetSendChan x)))%nat →
  ∃ st', call_alone E (CallWrite c p 0) st = Some st' ∧
    conns (shared st') = conns (shared st) ∧
    trace (shared st') = trace (shared st) ++
      [EvCall (length (threads st)) (CallWrite c p 0);
       EvLog (LogWriteBlocking c);
       EvWriteRet (length (threads st)) c p (Some ErrWriteBlocking)].
Proof.
  intros Hc Hx Hopen Hch Hfull. unfold call_alone.
  erewrite step_call; [|done|cbn; by rewrite Hx]. cbn [mbind option_bind].
  erewrite finish_run;
    [|done|apply lookup_snoc_new|done|cbn; rewrite Hx; cbn; rewrite Hopen; done].
  cbn [threads shared]. rewrite insert_snoc_new, app_nil_r.
  erewrite finish_run;
    [|done|apply lookup_snoc_new|done
     |cbn; rewrite Hx; cbn; unfold Chan.send; rewrite Hch;
      apply Nat.ltb_ge in Hfull; rewrite Hfull; done].
  cbn [threads shared]. rewrite insert_snoc_new, app_nil_r.
  erewrite finish_run; [|done|apply lookup_snoc_new|done|done].
  cbn [threads shared]. rewrite insert_snoc_new, app_nil_r.
  rewrite finish_exited by apply lookup_snoc_new.
  eexists; split; [done|].
  cbn [shared crashed conns trace emit upd_conn]. split; [done|].
  by rewrite <-!app_assoc.
Qed.

Lemma write_each_room E c ps : ∀ st x,
  crashed (shared st) = false →
  conns (shared st) !! c = Some x →
  IsClosed x = false →
  Chan.closed (packetSendChan x) = false →
  (length (Chan.buf (packetSendChan x)) + length ps ≤ Chan.cap (packetSendChan x))%nat →
  ∃ st' x', write_each E c ps st = Some st' ∧
    crashed (shared st') = false ∧
    conns (shared st') !! c = Some x' ∧
    IsClosed x' = false ∧
    packetSendChan x' =
      Chan.mk (Chan.cap (packetSendChan x)) (Chan.buf (packetSendChan x) ++ ps) false ∧
    write_rets c (trace (shared st')) =
      write_rets c (trace (shared st)) ++ replicate (length ps) None.
Proof.
  induction ps as [|p ps IH]; intros st x Hc Hx Hopen Hch Hlen; simpl in *.
  - exists st, x. rewrite !app_nil_r. split_and!; try done.
    destruct (packetSendChan x); simpl in *; by subst.
  - destruct (write_alone_room E st c x p) as (st1 & -> & Hc1 & Hx1 & Hr1);
      [done|done|done|done|lia|]. simpl.
    destruct (IH st1 _ Hc1 Hx1) as (st' & x' & -> & Hc' & Hx' & Ho' & Hq' & Hr');
      [done|done|simpl; rewrite length_app; simpl; lia|].
    exists st', x'. split_and!; try done.
    + rewrite Hq'. simpl. by rewrite <-app_assoc.
    + rewrite Hr', Hr1. by rewrite <-app_assoc.
Qed.

(** C3.  On an open connection whose outbound queue of capacity [C] is
    empty, with nothing else running, [C] zero-timeout writes each return
    nil and leave their packets in the queue in order; the next
    zero-timeout write returns ErrWriteBlocking, after its log line and
    without blocking, and leaves the queue as it is. *)
Theorem zero_timeout_writes E st c x C ps p :
  crashed (shared st) = false →
  conns (shared st) !! c = Some x →
  IsClosed x = false →
  packetSendChan x = Chan.make C →
  length ps = C →
  ∃ st1 x1 st2,
    write_each E c ps st = Some st1 ∧
    write_rets c (trace (shared st1)) =
      write_rets c (trace (shared st)) ++ replicate C None ∧
    conns (shared st1) !! c = Some x1 ∧
    Chan.buf (packetSendChan x1) = ps ∧
    call_alone E (CallWrite c p 0) st1 = Some st2 ∧
    write_rets c (trace (shared st2)) =
      write_rets c (trace (shared st1)) ++ [Some ErrWriteBlocking] ∧
    conns (shared st2) = conns (shared st1).
Proof.
  intros Hc Hx Hopen Hq Hlen.
  destruct (write_each_room E c ps st x) as (st1 & x1 & H1 & Hc1 & Hx1 & Ho1 & Hq1 & Hr1);
    [done|done|done|by rewrite Hq|rewrite Hq; simpl; lia|].
  rewrite Hq in Hq1. simpl in Hq1.
  destruct (write_alone_full E st1 c x1 p) as (st2 & H2 & Hx2 & Hr2);
    [done|done|done|by rewrite Hq1|rewrite Hq1; simpl; lia|].
  exists st1, x1, st2. rewrite Hlen in Hr1. split_and!; try done.
  - by rewrite Hq1.
  - rewrite Hr2. unfold write_rets. rewrite omap_app. simpl.
    by rewrite decide_True.
Qed.

Lemma zero_timeout_writes_witness :
  crashed (shared st_accepted) = false ∧
  conns (shared st_accepted) !! 0%nat = Some (newConn demoEnv) ∧
  IsClosed (newConn demoEnv) = false ∧
  packetSendChan (newConn demoEnv) = Chan.make 2 ∧
  length [mkPacket 10; mkPacket 11] = 2%nat ∧
  ∃ st1 x1 st2,
    write_each demoEnv 0 [mkPacket 10; mkPacket 11] st_accepted = Some st1 ∧
    write_rets 0 (trace (shared st1)) =
      write_rets 0 (trace (shared st_accepted)) ++ replicate 2 None ∧
    conns (shared st1) !! 0%nat = Some x1 ∧
    Chan.buf (packetSendChan x1) = [mkPacket 10; mkPacket 11] ∧
    call_alone demoEnv (CallWrite 0 (mkPacket 12) 0) st1 = Some st2 ∧
    write_rets 0 (trace (shared st2)) =
      write_rets 0 (trace (shared st1)) ++ [Some ErrWriteBlocking] ∧
    conns (shared st2) = conns (shared st1).
Proof.
  do 5 (split; [vm_compute; reflexivity|]).
  apply (zero_timeout_writes demoEnv st_accepted 0 (newConn demoEnv) 2
           [mkPacket 10; mkPacket 11] (mkPacket 12)); vm_compute; reflexivity.
Defined.

(** Spec, scenario 7: on queues of two packets, three zero-timeout writes
    give ok, ok, WouldBlock. *)
Example three_writes_on_two :
  write_rets 0 (trace (shared st_three_written)) =
    [None; None; Some ErrWriteBlocking].
Proof. vm_compute. reflexivity. Qed.

(** ** Rejected connections *)

Arguments worker_events : simpl never.
Arguments close_called : simpl never.

Lemma worker_events_snoc c tr e :
  worker_events c (tr ++ [e]) =
  worker_events c tr ++ (if is_worker_event c e then [e] else []).
Proof.
  unfold worker_events. rewrite List.filter_app. simpl.
  by destruct (is_worker_event c e).
Qed.

Lemma close_called_snoc c tr e :
  close_called c (tr ++ [e]) = close_called c tr || is_close_call c e.
Proof. unfold close_called. rewrite existsb_app. simpl. by rewrite orb_false_r. Qed.

Ltac rej_solve :=
  simpl in *;
  repeat match goal with
         | H : _ ∧ _ |- _ => destruct H
         | H : _ || _ = false |- _ => apply orb_false_elim in H as [? ?]
         | H : ?x = ?x → _ |- _ => specialize (H eq_refl)
         | H : ?P → _, H' : ?P |- _ => specialize (H H')
         | a : after |- _ => destruct a
         | |- _ ∧ _ => split
         | |- _ → _ => intro
         end;
  simpl in *; repeat case_bool_decide; simplify_eq; try done; try congruence.

Lemma threads_commit_pred (P : pc → Prop) (ths : list pc) t p' sp :
  (∀ i q, ths !! i = Some q → P q) → P p' → Forall P sp →
  ∀ i q, (<[t:=p']> ths ++ sp) !! i = Some q → P q.
Proof.
  intros Hths Hp Hsp i q Hq. apply lookup_app_Some in Hq as [Hq|[_ Hq]].
  - destruct (decide (i = t)) as [->|?].
    + pose proof (lookup_lt_Some _ _ _ Hq) as Hlt. rewrite length_insert in Hlt.
      rewrite list_lookup_insert_eq in Hq by done. by injection Hq as <-.
    + rewrite list_lookup_insert_ne in Hq by done. eauto.
  - eapply (proj1 (list.Forall_forall _ _) Hsp). by eapply list_elem_of_lookup_2.
Qed.

Lemma RejectInv_step E st ch st' :
  RejectInv E st → step E st ch = Some st' → RejectInv E st'.
Proof.
  intros I H. apply step_inv in H as [Hc H].
  destruct ch as [t|t k|t r|f].
  - destruct H as (p & [[p' s'] sp] & Hp & Hx & ->). intros c Hrej.
    specialize (I c Hrej). destruct I as (Hw & Hev & Hcl).
    pose proof (Hw _ _ Hp) as Hwme.
    assert (close_called c (trace (shared st)) = false →
            in_close c p = false) as Hcme by (intros Hcc; by eapply Hcl).
    unfold RejectAt, commit. cbn [threads shared fst snd].
    destruct p; exec_inv Hx;
      cbn [shared trace emit upd_conn wg_add close_exit add_conn set_crashed];
      rewrite ?worker_events_snoc, ?close_called_snoc, ?torn_snoc,
        ?close_returned_snoc;
      (split_and!;
       [ apply threads_commit_pred; [exact Hw|rej_solve|repeat constructor; rej_solve]
       | rej_solve; rewrite ?app_nil_r; done
       | intros Hcc;
         assert (close_called c (trace (shared st)) = false) as Hcc'
           by (clear -Hcc; rej_solve);
         destruct (Hcl Hcc') as (Hic & Htn & Hrt); specialize (Hcme Hcc');
         split_and!;
         [ apply threads_commit_pred;
           [exact Hic|rej_solve|repeat constructor; rej_solve]
         | rej_solve; rewrite ?Htn; done
         | rej_solve; rewrite ?Hrt; done ] ]).
  - destruct H as (p & [[p' s'] sp] & Hp & Hx & ->). intros c Hrej.
    specialize (I c Hrej). destruct I as (Hw & Hev & Hcl).
    pose proof (Hw _ _ Hp) as Hwme.
    assert (close_called c (trace (shared st)) = false →
            in_close c p = false) as Hcme by (intros Hcc; by eapply Hcl).
    unfold RejectAt, commit. cbn [threads shared fst snd].
    destruct p; exec_inv Hx;
      cbn [shared trace emit upd_conn wg_add close_exit add_conn set_crashed];
      rewrite ?worker_events_snoc, ?close_called_snoc, ?torn_snoc,
        ?close_returned_snoc;
      (split_and!;
       [ apply threads_commit_pred; [exact Hw|rej_solve|repeat constructor; rej_solve]
       | rej_solve; rewrite ?app_nil_r; done
       | intros Hcc;
         assert (close_called c (trace (shared st)) = false) as Hcc'
           by (clear -Hcc; rej_solve);
         destruct (Hcl Hcc') as (Hic & Htn & Hrt); specialize (Hcme Hcc');
         split_and!;
         [ apply threads_commit_pred;
           [exact Hic|rej_solve|repeat constructor; rej_solve]
         | rej_solve; rewrite ?Htn; done
         | rej_solve; rewrite ?Hrt; done ] ]).
  - destruct H as (ps & pr & ps' & pr' & s' & Hs & Hr & Hx & ->). intros c Hrej.
    specialize (I c Hrej). destruct I as (Hw & Hev & Hcl).
    pose proof (handoff_ne _ _ _ _ _ Hx) as Hne.
    assert (t ≠ r) as Htr by (intros ->; congruence).
    pose proof (Hw _ _ Hs) as Hws. pose proof (Hw _ _ Hr) as Hwr.
    unfold RejectAt. cbn [threads shared].
    apply exec_handoff_inv in Hx
      as [(c0 & p & x & -> & -> & ? & ? & -> & -> & ->)
         |(c0 & p & tm & x & -> & -> & ? & ? & -> & -> & ->)];
      cbn [shared trace emit];
      rewrite ?worker_events_snoc, ?close_called_snoc, ?torn_snoc,
        ?close_returned_snoc; simpl; rewrite ?app_nil_r, ?orb_false_r.
    all: split_and!; [|done|intros Hcc; destruct (Hcl Hcc) as (Hic & ? & ?);
                              split_and!; [|done|done]].
    all: intros i q Hq;
      apply lookup_handoff in Hq as [[-> ->]|[[-> ->]|(_ & _ & Hq)]]; eauto.
  - destruct H as (p & Hp & ->). intros c Hrej.
    specialize (I c Hrej). destruct I as (Hw & Hev & Hcl).
    unfold RejectAt. cbn [threads shared trace emit].
    rewrite worker_events_snoc, close_called_snoc, torn_snoc, close_returned_snoc.
    simpl. rewrite !app_nil_r, orb_false_r. split_and!; [|done|].
    + intros i q Hq. apply lookup_app_Some in Hq as [Hq|[_ Hq]]; [by eauto|].
      apply list_lookup_singleton_Some in Hq as [_ <-].
      destruct f; simpl in Hp; simplify_option_eq; done.
    + intros [Hcc Hf]%orb_false_elim. destruct (Hcl Hcc) as (Hic & ? & ?).
      split_and!; [|done|done].
      intros i q Hq. apply lookup_app_Some in Hq as [Hq|[_ Hq]]; [by eauto|].
      apply list_lookup_singleton_Some in Hq as [_ <-].
      destruct f; simpl in Hp, Hf; simplify_option_eq; done.
Qed.

Lemma RejectInv_reachable E st : reachable E st → RejectInv E st.
Proof.
  induction 1 as [|st ch st' Hr IH Hs]; [|by eapply RejectInv_step].
  intros c _. split_and!; [|done|done].
  intros t p H. simpl in H. by rewrite lookup_nil in H.
Qed.

Lemma filter_nil_not_In (f : event → bool) tr e :
  List.filter f tr = [] → f e = true → ¬ In e tr.
Proof.
  intros Hf He Hin. assert (In e (List.filter f tr)) as H
    by (apply List.filter_In; done).
  by rewrite Hf in H.
Qed.

(** C5.  On a connection whose accepted-hook returns false, [Do] goes from
    the hook straight to its return without starting a goroutine; no thread
    is ever a worker of the connection; the message-hook is never invoked
    for it, and neither is the closed-hook unless the application itself
    calls [Close] on it. *)
Theorem rejected_has_no_worker E sched st c :
  run E NewServer sched = Some st →
  OnConnect E c = false →
  (∀ t, crashed (shared st) = false → threads st !! t = Some (DoOnConnect c) →
     step E st (Run t) =
     Some (mkState (emit (EvOnConnect c false) (shared st))
             (<[t := ConnDone]> (threads st) ++ []))) ∧
  (∀ t p, threads st !! t = Some p → worker_of c p = false) ∧
  (∀ p r, ¬ In (EvOnMessage c p r) (trace (shared st))) ∧
  (close_called c (trace (shared st)) = false →
   ¬ In (EvOnClose c) (trace (shared st))).
Proof.
  intros Hrun Hrej. apply run_reachable in Hrun.
  destruct (RejectInv_reachable _ _ Hrun c Hrej) as (Hw & Hev & Hcl).
  split_and!; [|done| |].
  - intros t Hc Hp. eapply step_run; [done|done|]. simpl. by rewrite Hrej.
  - intros p r. eapply filter_nil_not_In; [exact Hev|]. simpl.
    by apply bool_decide_eq_true.
  - intros Hcc. destruct (Hcl Hcc) as (_ & Htn & _).
    eapply filter_nil_not_In; [exact Htn|]. simpl. by apply bool_decide_eq_true.
Qed.

Lemma rejected_has_no_worker_witness :
  run rejectEnv NewServer sched_reject = Some st_rejected ∧
  OnConnect rejectEnv 0 = false ∧
  (∀ t, crashed (shared st_rejected) = false →
     threads st_rejected !! t = Some (DoOnConnect 0) →
     step rejectEnv st_rejected (Run t) =
     Some (mkState (emit (EvOnConnect 0 false) (shared st_rejected))
             (<[t := ConnDone]> (threads st_rejected) ++ []))) ∧
  (∀ t p, threads st_rejected !! t = Some p → worker_of 0 p = false) ∧
  (∀ p r, ¬ In (EvOnMessage 0 p r) (trace (shared st_rejected))) ∧
  (close_called 0 (trace (shared st_rejected)) = false →
   ¬ In (EvOnClose 0) (trace (shared st_rejected))).
Proof.
  do 2 (split; [vm_compute; reflexivity|]).
  apply (rejected_has_no_worker rejectEnv sched_reject st_rejected 0);
    vm_compute; reflexivity.
Defined.

(** C10.  On a connection whose accepted-hook returns false, unless the
    application itself calls [Close] on it: no thread is ever inside
    [Close], [c.conn.Close()] is never run, and the socket stays open. *)
Theorem rejected_socket_stays_open E sched st c :
  run E NewServer sched = Some st →
  OnConnect E c = false →
  close_called c (trace (shared st)) = false →
  (∀ t p, threads st !! t = Some p → in_close c p = false) ∧
  ¬ In (EvRawClose c) (trace (shared st)) ∧
  (∀ x, conns (shared st) !! c = Some x → rawClosed x = false).
Proof.
  intros Hrun Hrej Hcc. apply run_reachable in Hrun.
  destruct (RejectInv_reachable _ _ Hrun c Hrej) as (Hw & Hev & Hcl).
  destruct (Hcl Hcc) as (Hic & Htn & _). split_and!; [done| |].
  - eapply filter_nil_not_In; [exact Htn|]. simpl. by apply bool_decide_eq_true.
  - intros x Hx. destruct (OnceInv_reachable _ _ Hrun c) as [_ Ho].
    simpl in Ho. rewrite Hx, Htn in Ho. destruct Ho as (Hs & _).
    unfold once_shared in Hs. destruct (rawClosed x); [|done].
    destruct Hs as (_ & _ & _ & _ & _ & _ & [Hraw _]).
    specialize (Hraw eq_refl). simpl in Hraw. lia.
Qed.

Lemma rejected_socket_stays_open_witness :
  run rejectEnv NewServer sched_reject = Some st_rejected ∧
  OnConnect rejectEnv 0 = false ∧
  close_called 0 (trace (shared st_rejected)) = false ∧
  (∀ t p, threads st_rejected !! t = Some p → in_close 0 p = false) ∧
  ¬ In (EvRawClose 0) (trace (shared st_rejected)) ∧
  (∀ x, conns (shared st_rejected) !! 0%nat = Some x → rawClosed x = false).
Proof.
  do 3 (split; [vm_compute; reflexivity|]).
  apply (rejected_socket_stays_open rejectEnv sched_reject st_rejected 0);
    vm_compute; reflexivity.
Defined.

(** ** Writes after [Close] *)

Arguments called_after_close : simpl never.
Arguments write_rets_by : simpl never.

Lemma exec_run_trace E t p s o :
  exec_run E t p s = Some o →
  ∃ evs, trace o.1.2 = trace s ++ evs ∧ forallb (emitted_by t) evs = true.
Proof.
  intros Hx. destruct p; exec_inv Hx; cbn;
    first [ by (exists []; rewrite app_nil_r)
          | by (eexists [_]; split; [reflexivity|];
                cbn; rewrite ?bool_decide_eq_true_2 by done)
          | by (eexists [_; _]; split; [by rewrite <-app_assoc|];
                cbn; rewrite ?bool_decide_eq_true_2 by done) ].
Qed.

Lemma exec_pick_trace k t p s o :
  exec_pick k t p s = Some o →
  ∃ evs, trace o.1.2 = trace s ++ evs ∧ forallb (emitted_by t) evs = true.
Proof.
  intros Hx. destruct p; exec_inv Hx; cbn;
    first [ by (exists []; rewrite app_nil_r)
          | by (eexists [_]; split; [reflexivity|];
                cbn; rewrite ?bool_decide_eq_true_2 by done) ].
Qed.

Lemma close_returned_cons c e tr :
  close_returned c (e :: tr) = is_close_ret c e || close_returned c tr.
Proof. done. Qed.

Lemma called_after_close_from_app c t f tr evs : ∀ r,
  called_after_close_from c t f r (tr ++ evs) =
  called_after_close_from c t f r tr
  || called_after_close_from c t f (r || close_returned c tr) evs.
Proof.
  induction tr as [|e tr IH]; intros r; simpl.
  - by rewrite orb_false_r.
  - rewrite IH, close_returned_cons. by rewrite !orb_assoc.
Qed.

Lemma called_after_close_from_emitted c t f t0 evs r :
  forallb (emitted_by t0) evs = true →
  called_after_close_from c t f r evs = false.
Proof.
  revert r. induction evs as [|e evs IH]; intros r; simpl; [done|].
  intros [He Hevs]%andb_true_iff. rewrite IH by done.
  rewrite bool_decide_eq_false_2; [by rewrite andb_false_r|].
  intros ->. done.
Qed.

Lemma called_after_close_returned c t f tr : ∀ r,
  called_after_close_from c t f r tr = true → r || close_returned c tr = true.
Proof.
  induction tr as [|e tr IH]; intros r; simpl; [done|].
  rewrite close_returned_cons.
  intros [[-> _]%andb_true_iff|H%IH]%orb_true_iff; [done|].
  by rewrite orb_assoc.
Qed.

Lemma write_rets_by_app t tr evs :
  write_rets_by t (tr ++ evs) = write_rets_by t tr ++ write_rets_by t evs.
Proof. apply omap_app. Qed.

Lemma write_rets_by_cons t e evs :
  write_rets_by t (e :: evs) =
  match write_ret_by t e with
  | Some r => r :: write_rets_by t evs
  | None => write_rets_by t evs
  end.
Proof. done. Qed.

Lemma write_rets_by_emitted t t0 evs :
  t ≠ t0 → forallb (emitted_by t0) evs = true → write_rets_by t evs = [].
Proof.
  intros Hne. induction evs as [|e evs IH]; [done|]. simpl.
  intros [He Hevs]%andb_true_iff. rewrite write_rets_by_cons, IH by done.
  destruct e; simpl in *; try done.
  apply bool_decide_eq_true in He as ->. by rewrite decide_False.
Qed.

Lemma lookup_commit_ne (ths : list pc) t0 p' sp t q :
  t ≠ t0 → ths !! t = Some q → (<[t0 := p']> ths ++ sp) !! t = Some q.
Proof.
  intros Hne Hq. rewrite lookup_app_l
    by (rewrite length_insert; by eapply lookup_lt_Some).
  by rewrite list_lookup_insert_ne.
Qed.

Lemma close_returned_closed E st c x :
  reachable E st → conns (shared st) !! c = Some x →
  close_returned c (trace (shared st)) = true → IsClosed x = true.
Proof.
  intros Hr Hx Hret. destruct (OnceInv_reachable _ _ Hr c) as [_ Ho].
  simpl in Ho. rewrite Hx in Ho. destruct Ho as (Hs & Hd & _).
  destruct Hs as (Hn & _ & [_ Hf] & _). unfold IsClosed.
  rewrite Hf; [done|]. rewrite (Hn (Hd Hret)). lia.
Qed.

Lemma LateInv_step E st ch st' :
  reachable E st → LateInv st → step E st ch = Some st' → LateInv st'.
Proof.
  intros Hreach [Hfresh Hlate] H. apply step_inv in H as [Hc H].
  destruct ch as [t0|t0 k|t0 r|f].
  - destruct H as (p & [[p' s'] sp] & Hp & Hx & ->).
    destruct (exec_run_trace _ _ _ _ _ Hx) as (evs & Htr & Hev).
    pose proof (lookup_lt_Some _ _ _ Hp) as Hlt.
    unfold LateInv, commit. cbn [threads shared fst snd] in *. rewrite Htr.
    split.
    + intros t Hge. rewrite length_app, length_insert in Hge.
      rewrite write_rets_by_app, Hfresh by lia.
      by rewrite (write_rets_by_emitted t t0 evs) by (done || lia).
    + intros c t p1 tmo Hcac. unfold called_after_close in *.
      rewrite called_after_close_from_app in Hcac.
      rewrite (called_after_close_from_emitted c t _ t0 evs), orb_false_r in Hcac by done.
      pose proof (called_after_close_returned _ _ _ _ _ Hcac) as Hret.
      rewrite write_rets_by_app.
      destruct (decide (t = t0)) as [->|Hne].
      * destruct (Hlate _ _ _ _ Hcac) as [[Hth Hr']|[Hth Hr']];
          rewrite Hp in Hth; injection Hth as ->; [|done].
        simpl in Hx. destruct (conns (shared st) !! c) as [x|] eqn:Hcx; [|done].
        simpl in Hx. rewrite (close_returned_closed _ _ _ _ Hreach Hcx Hret) in Hx.
        unfold write_ret, goto in Hx. injection Hx as <- <- <-.
        simpl in Htr. apply app_inv_head in Htr as <-. right. split.
        -- rewrite app_nil_r. by apply list_lookup_insert_eq.
        -- rewrite Hr', write_rets_by_cons. cbn [write_ret_by].
           by rewrite decide_True.
      * rewrite (write_rets_by_emitted t t0 evs), app_nil_r by done.
        destruct (Hlate _ _ _ _ Hcac) as [[Hth Hr']|[Hth Hr']]; [left|right];
          (split; [by apply lookup_commit_ne|done]).
  - destruct H as (p & [[p' s'] sp] & Hp & Hx & ->).
    destruct (exec_pick_trace _ _ _ _ _ Hx) as (evs & Htr & Hev).
    pose proof (lookup_lt_Some _ _ _ Hp) as Hlt.
    unfold LateInv, commit. cbn [threads shared fst snd] in *. rewrite Htr.
    split.
    + intros t Hge. rewrite length_app, length_insert in Hge.
      rewrite write_rets_by_app, Hfresh by lia.
      by rewrite (write_rets_by_emitted t t0 evs) by (done || lia).
    + intros c t p1 tmo Hcac. unfold called_after_close in *.
      rewrite called_after_close_from_app in Hcac.
      rewrite (called_after_close_from_emitted c t _ t0 evs), orb_false_r in Hcac by done.
      rewrite write_rets_by_app.
      destruct (decide (t = t0)) as [->|Hne].
      * destruct (Hlate _ _ _ _ Hcac) as [[Hth Hr']|[Hth Hr']];
          rewrite Hp in Hth; injection Hth as ->; done.
      * rewrite (write_rets_by_emitted t t0 evs), app_nil_r by done.
        destruct (Hlate _ _ _ _ Hcac) as [[Hth Hr']|[Hth Hr']]; [left|right];
          (split; [by apply lookup_commit_ne|done]).
  - destruct H as (ps & pr & ps' & pr' & s' & Hs & Hr & Hx & ->).
    pose proof (handoff_ne _ _ _ _ _ Hx) as Hne.
    assert (t0 ≠ r) as Htr by (intros ->; congruence).
    pose proof (lookup_lt_Some _ _ _ Hs) as Hlt.
    assert (∃ evs, trace s' = trace (shared st) ++ evs ∧
                   forallb (emitted_by t0) evs = true ∧
                   ps ≠ Exited ∧ (∀ c p tm, ps ≠ WriteIsClosed c p tm) ∧
                   pr ≠ Exited ∧ (∀ c p tm, pr ≠ WriteIsClosed c p tm))
      as (evs & Htrace & Hev & Hps1 & Hps2 & Hpr1 & Hpr2).
    { apply exec_handoff_inv in Hx
        as [(c0 & p & x & -> & -> & ? & ? & -> & -> & ->)
           |(c0 & p & tm & x & -> & -> & ? & ? & -> & -> & ->)].
      - exists []. rewrite app_nil_r. done.
      - eexists [_]. split; [done|]. simpl.
        by rewrite bool_decide_eq_true_2. }
    unfold LateInv. cbn [threads shared]. rewrite Htrace. split.
    + intros t Hge. rewrite !length_insert in Hge.
      rewrite write_rets_by_app, Hfresh by lia.
      by rewrite (write_rets_by_emitted t t0 evs) by (done || lia).
    + intros c t p1 tmo Hcac. unfold called_after_close in *.
      rewrite called_after_close_from_app in Hcac.
      rewrite (called_after_close_from_emitted c t _ t0 evs), orb_false_r in Hcac by done.
      rewrite write_rets_by_app.
      assert (t ≠ t0 ∧ t ≠ r) as [Ht0 Htr'].
      { split; intros ->;
          destruct (Hlate _ _ _ _ Hcac) as [[Hth Hr']|[Hth Hr']]; naive_solver. }
      rewrite (write_rets_by_emitted t t0 evs), app_nil_r by done.
      rewrite !list_lookup_insert_ne by done. by apply Hlate.
  - destruct H as (p & Hp & ->). unfold LateInv. cbn [threads shared trace emit].
    split.
    + intros t Hge. rewrite length_app in Hge. simpl in Hge.
      rewrite write_rets_by_app, Hfresh by lia. done.
    + intros c t p1 tmo Hcac. unfold called_after_close in *.
      rewrite called_after_close_from_app in Hcac. rewrite write_rets_by_app.
      change (write_rets_by t [EvCall (length (threads st)) f]) with (@nil (option error)).
      rewrite app_nil_r.
      apply orb_true_iff in Hcac as [Hcac|Hcac].
      * destruct (Hlate _ _ _ _ Hcac) as [[Hth Hr']|[Hth Hr']]; [left|right];
          (split; [|done]); rewrite lookup_app_l; try done;
          by eapply lookup_lt_Some.
      * simpl in Hcac. rewrite orb_false_r in Hcac.
        apply andb_true_iff in Hcac as [_ Heq].
        apply bool_decide_eq_true in Heq. injection Heq as <- ->.
        simpl in Hp. destruct (conns (shared st) !! c); [|done].
        simpl in Hp. injection Hp as <-. left. split.
        -- by rewrite lookup_app_r, Nat.sub_diag.
        -- by apply Hfresh.
Qed.

Lemma LateInv_reachable E st : reachable E st → LateInv st.
Proof.
  induction 1 as [|st ch st' Hr IH Hs]; [|by eapply LateInv_step].
  split; [done|]. intros c t p tmo H. done.
Qed.

Lemma called_after_close_from_call c t f tr2 tr3 :
  called_after_close_from c t f true (tr2 ++ EvCall t f :: tr3) = true.
Proof.
  rewrite called_after_close_from_app. apply orb_true_iff; right.
  cbn [orb called_after_close_from andb]. by rewrite bool_decide_eq_true_2.
Qed.

Lemma called_after_close_split c t f tr1 t0 tr2 tr3 :
  called_after_close c t f (tr1 ++ EvCloseRet t0 c :: tr2 ++ EvCall t f :: tr3)
  = true.
Proof.
  unfold called_after_close. rewrite called_after_close_from_app.
  apply orb_true_iff; right. cbn [called_after_close_from is_close_ret].
  rewrite (bool_decide_eq_true_2 (c = c)) by done.
  by rewrite orb_true_r, called_after_close_from_call, orb_true_r.
Qed.

Lemma write_rets_by_In t c p r tr :
  In (EvWriteRet t c p r) tr → In r (write_rets_by t tr).
Proof.
  intros Hin. apply list_elem_of_In. apply list_elem_of_In in Hin.
  unfold write_rets_by. apply list_elem_of_omap. eexists; split; [exact Hin|].
  simpl. by rewrite decide_True.
Qed.

(** C4.  Take a call of AsyncWritePacket on a connection, with any packet
    and any timeout, that the application makes after some call of [Close]
    on the connection has returned.  Every result it returns is
    ErrConnClosing; and it does return it: either it has returned, or it is
    at its first statement, [if c.IsClosed()], which returns ErrConnClosing
    without blocking. *)
Theorem write_after_close_fails E sched st tr1 t0 c tr2 t p timeout tr3 :
  run E NewServer sched = Some st →
  trace (shared st) =
    tr1 ++ EvCloseRet t0 c :: tr2 ++ EvCall t (CallWrite c p timeout) :: tr3 →
  (∀ c' p' r, In (EvWriteRet t c' p' r) (trace (shared st)) →
     r = Some ErrConnClosing) ∧
  ((threads st !! t = Some Exited ∧
    write_rets_by t (trace (shared st)) = [Some ErrConnClosing]) ∨
   (threads st !! t = Some (WriteIsClosed c p timeout) ∧
    (crashed (shared st) = false →
     step E st (Run t) =
     Some (mkState (emit (EvWriteRet t c p (Some ErrConnClosing)) (shared st))
             (<[t := Exited]> (threads st) ++ []))))).
Proof.
  intros Hrun Htr. apply run_reachable in Hrun.
  destruct (LateInv_reachable _ _ Hrun) as [_ Hlate].
  pose proof (called_after_close_split c t (CallWrite c p timeout) tr1 t0 tr2 tr3)
    as Hcac. rewrite <-Htr in Hcac.
  pose proof (called_after_close_returned _ _ _ _ _ Hcac) as Hret.
  split.
  - intros c' p' r Hin%write_rets_by_In.
    destruct (Hlate _ _ _ _ Hcac) as [[_ Hr]|[_ Hr]]; rewrite Hr in Hin.
    + done.
    + by destruct Hin as [<-|[]].
  - destruct (Hlate _ _ _ _ Hcac) as [[Hth Hr]|[Hth Hr]]; [right|by left].
    split; [done|]. intros Hc. eapply step_run; [done|done|]. simpl.
    destruct (lookup_lt_is_Some_2 (conns (shared st)) c
                (Wf_reachable _ _ Hrun _ _ Hth c eq_refl)) as [x Hx].
    rewrite Hx. simpl.
    by rewrite (close_returned_closed _ _ _ _ Hrun Hx Hret).
Qed.

Lemma write_after_close_fails_witness :
  run demoEnv NewServer sched_write_after_close = Some st_write_after_close ∧
  trace (shared st_write_after_close) =
    take 11 (trace (shared st_write_after_close))
    ++ EvCloseRet 5 0 :: [EvCall 6 (CallWrite 0 (mkPacket 7) 0)]
    ++ EvCall 7 (CallWrite 0 (mkPacket 8) 5)
    :: [EvWriteRet 6 0 (mkPacket 7) (Some ErrConnClosing)] ∧
  (∀ c' p' r, In (EvWriteRet 7 c' p' r) (trace (shared st_write_after_close)) →
     r = Some ErrConnClosing) ∧
  ((threads st_write_after_close !! 7%nat = Some Exited ∧
    write_rets_by 7 (trace (shared st_write_after_close)) = [Some ErrConnClosing]) ∨
   (threads st_write_after_close !! 7%nat = Some (WriteIsClosed 0 (mkPacket 8) 5) ∧
    (crashed (shared st_write_after_close) = false →
     step demoEnv st_write_after_close (Run 7) =
     Some (mkState (emit (EvWriteRet 7 0 (mkPacket 8) (Some ErrConnClosing))
                      (shared st_write_after_close))
             (<[7%nat := Exited]> (threads st_write_after_close) ++ []))))).
Proof.
  do 2 (split; [vm_compute; reflexivity|]).
  apply (write_after_close_fails demoEnv sched_write_after_close
           st_write_after_close (take 11 (trace (shared st_write_after_close)))
           5 0 [EvCall 6 (CallWrite 0 (mkPacket 7) 0)] 7 (mkPacket 8) 5
           [EvWriteRet 6 0 (mkPacket 7) (Some ErrConnClosing)]);
    vm_compute; reflexivity.
Defined.

(** ** One reader per connection *)

Arguments count_ReadPacket : simpl never.

Lemma count_ReadPacket_snoc c tr e :
  count_ReadPacket c (tr ++ [e]) =
  (count_ReadPacket c tr + (if is_read c e then 1 else 0))%nat.
Proof.
  unfold count_ReadPacket. rewrite List.filter_app, length_app. simpl.
  by destruct (is_read c e).
Qed.

Lemma ReaderAt_frame E c ox ox' nr ths ths' :
  ReaderAt E c ox nr ths →
  nread <$> ox' = nread <$> ox →
  (∀ t q, ths' !! t = Some q → reader_token c q = true →
     ∃ q0, ths !! t = Some q0 ∧ reader_token c q0 = true) →
  ReaderAt E c ox' nr ths'.
Proof.
  intros [Hu H] Hv Hths. split.
  - intros t t' p p' Hp Hp' Htk Htk'.
    destruct (Hths _ _ Hp Htk) as (q & Hq & Hqt).
    destruct (Hths _ _ Hp' Htk') as (q' & Hq' & Hqt'). eauto.
  - destruct ox as [x|], ox' as [y|]; simpl in Hv; try done.
    + injection Hv as Hv. rewrite Hv. destruct H as (Hn & H4 & H3).
      split_and!; [done|done|].
      intros k Hk Hf t p Hp. destruct (reader_token c p) eqn:Htk; [|done].
      destruct (Hths _ _ Hp Htk) as (q & Hq & Hqt).
      by rewrite (H3 k Hk Hf _ _ Hq) in Hqt.
    + destruct H as [Hn H]. split; [done|]. intros t p Hp.
      destruct (reader_token c p) eqn:Htk; [|done].
      destruct (Hths _ _ Hp Htk) as (q & Hq & Hqt).
      by rewrite (H _ _ Hq) in Hqt.
Qed.

(** The frame for a statement of thread [t]: the token does not move to
    another thread. *)
Lemma reader_frame E c ox ox' nr nr' ths t p p' sp :
  ReaderAt E c ox nr ths →
  ths !! t = Some p →
  nread <$> ox' = nread <$> ox →
  nr' = nr →
  (reader_token c p' = true → reader_token c p = true) →
  Forall (λ q, reader_token c q = false) sp →
  ReaderAt E c ox' nr' (<[t:=p']> ths ++ sp).
Proof.
  intros I Hp Hv -> Hl Hsp. eapply ReaderAt_frame; [exact I|exact Hv|].
  intros i q Hq Htk.
  destruct (lookup_commit t (p', mkShared false 0 [] [] false, sp) _ _ _ _ Hp Hq)
    as [[-> ->]|[[_ Hq']|Hq']]; simpl in *.
  - eauto.
  - eauto.
  - rewrite (proj1 (list.Forall_forall _ _) Hsp _ Hq') in Htk. done.
Qed.

Arguments ReaderAt : simpl never.

Lemma nread_alter (f : Conn → Conn) c0 (l : list Conn) c :
  (∀ x, nread (f x) = nread x) →
  nread <$> (alter f c0 l !! c) = nread <$> (l !! c).
Proof.
  intros Hf. destruct (decide (c = c0)) as [->|Hne].
  - rewrite list_lookup_alter_eq. destruct (l !! c0) as [x|]; simpl; [|done].
    by rewrite Hf.
  - by rewrite list_lookup_alter_ne.
Qed.

Ltac nread_tac :=
  first [ reflexivity
        | apply nread_alter; intros;
          try match goal with w : loop |- _ => destruct w end; reflexivity ].

Ltac tok_solve :=
  simpl in *;
  repeat match goal with
         | a : after |- _ => destruct a
         | w : loop |- _ => destruct w
         | |- _ → _ => intro
         end;
  simpl in *; repeat case_bool_decide; simplify_eq; try done; try congruence.

Lemma ReaderInv_step E st ch st' :
  Wf st → ReaderInv E st → step E st ch = Some st' → ReaderInv E st'.
Proof.
  intros Hwf I H. apply step_inv in H as [Hc H].
  destruct ch as [t|t k|t r|f].
  - destruct H as (p & [[p' s'] sp] & Hp & Hx & ->). intros c. specialize (I c).
    unfold commit. cbn [threads shared fst snd].
    destruct p; exec_inv Hx;
      cbn [shared trace conns emit upd_conn wg_add close_exit add_conn set_crashed];
      rewrite ?count_ReadPacket_snoc;
      try (by (eapply reader_frame;
                 [exact I|exact Hp
                 |nread_tac
                 |cbn [is_read]; lia
                 |tok_solve
                 |repeat constructor; tok_solve])).
    + (* ConnNew *)
      destruct (decide (c = length (conns (shared st)))) as [->|Hne].
      * rewrite lookup_ge_None_2 in I by done. destruct I as (Hu & Hn & Hno).
        rewrite lookup_app_r, Nat.sub_diag by done. cbn [lookup list_lookup].
        split; [|simpl; split_and!; [done|intros; lia..]].
        intros i i' q q' Hq Hq' Htk Htk'.
        assert (∀ j r, (<[t:=DoOnConnect (length (conns (shared st)))]>
                          (threads st) ++ []) !! j = Some r →
                       reader_token (length (conns (shared st))) r = true → j = t)
          as Honly.
        { intros j r Hr Hrt. rewrite app_nil_r in Hr.
          destruct (decide (j = t)) as [|Hjt]; [done|].
          rewrite list_lookup_insert_ne in Hr by done.
          by rewrite (Hno _ _ Hr) in Hrt. }
        by rewrite (Honly _ _ Hq Htk), (Honly _ _ Hq' Htk').
      * eapply reader_frame; [exact I|exact Hp| |done|tok_solve|constructor].
        destruct (decide (c < length (conns (shared st)))%nat).
        -- by rewrite lookup_app_l.
        -- rewrite !lookup_ge_None_2; [done|lia|].
           rewrite length_app; simpl; lia.
    + (* DoGo c0 ReadLoop: the token moves to the read worker *)
      destruct (decide (c = c0)) as [->|Hne];
        [|by (eapply reader_frame; [exact I|exact Hp|done|done|tok_solve
                                   |repeat constructor; tok_solve])].
      unfold ReaderAt. destruct I as [Hu I].
      assert (∀ j r, threads st !! j = Some r → j ≠ t →
                     reader_token c0 r = false) as Hno.
      { intros j r Hr Hjt. destruct (reader_token c0 r) eqn:Hrt; [|done].
        destruct Hjt. eapply Hu; [done|done|done|]. simpl.
        by apply bool_decide_eq_true. }
      assert (∀ j r, (<[t:=DoAdd c0 WriteLoop]> (threads st)
                        ++ [LoopAddr c0 ReadLoop]) !! j = Some r →
                     reader_token c0 r = true →
                     j = length (threads st)) as Honly.
      { intros j r Hr Hrt. apply lookup_app_Some in Hr as [Hr|[Hge Hr]].
        - destruct (decide (j = t)) as [->|Hjt].
          + rewrite list_lookup_insert_eq in Hr by (by eapply lookup_lt_Some).
            by injection Hr as <-.
          + rewrite list_lookup_insert_ne in Hr by done.
            by rewrite (Hno _ _ Hr Hjt) in Hrt.
        - rewrite length_insert in Hge, Hr.
          apply list_lookup_singleton_Some in Hr as [Hj _]. lia. }
      split.
      * intros i i' q q' Hq Hq' Htk Htk'.
        by rewrite (Honly _ _ Hq Htk), (Honly _ _ Hq' Htk').
      * destruct (conns (shared st) !! c0) as [x|]; [|].
        -- destruct I as (Hn & H4 & H3). split_and!; [done|done|].
           intros k Hk Hf. specialize (H3 k Hk Hf _ _ Hp). simpl in H3.
           by rewrite bool_decide_eq_true_2 in H3.
        -- destruct I as (_ & H3). specialize (H3 _ _ Hp). simpl in H3.
           by rewrite bool_decide_eq_true_2 in H3.
    + (* ReadCall: the call succeeds *)
      destruct (decide (c = c0)) as [->|Hne];
        [|by (eapply reader_frame;
                [exact I|exact Hp|by rewrite list_lookup_alter_ne
                |cbn [is_read]; rewrite bool_decide_eq_false_2 by done; lia
                |tok_solve|repeat constructor; tok_solve])].
      unfold ReaderAt in I |- *. rewrite list_lookup_alter_eq.
      rewrite Heqo in I |- *. cbn [fmap option_fmap option_map is_read].
      rewrite bool_decide_eq_true_2 by done. destruct I as (Hu & Hn & H4 & H3).
      assert (∀ k, (k < nread H)%nat → ReadPacket E c0 k ≠ None) as Hok.
      { intros k Hk Hf. specialize (H3 k Hk Hf _ _ Hp). simpl in H3.
        by rewrite bool_decide_eq_true_2 in H3. }
      split_and!.
      * intros i i' q q' Hq Hq' Htk Htk'.
        assert (∀ j r, (<[t:=ReadSend c0 p]> (threads st) ++ []) !! j = Some r →
                  reader_token c0 r = true →
                  ∃ r0, threads st !! j = Some r0 ∧ reader_token c0 r0 = true)
          as Hold.
        { intros j r Hr Hrt. rewrite app_nil_r in Hr.
          destruct (decide (j = t)) as [->|Hjt].
          - eexists; split; [done|]. simpl. by apply bool_decide_eq_true.
          - rewrite list_lookup_insert_ne in Hr by done. eauto. }
        destruct (Hold _ _ Hq Htk) as (q0 & Hq0 & Htk0).
        destruct (Hold _ _ Hq' Htk') as (q0' & Hq0' & Htk0'). eauto.
      * simpl. lia.
      * simpl. intros k Hk. apply Hok. lia.
      * simpl. intros k Hk Hf. destruct (decide (k = nread H)) as [->|Hkn].
        -- congruence.
        -- exfalso. eapply (Hok k); [lia|done].
    + (* ReadCall: the call fails *)
      destruct (decide (c = c0)) as [->|Hne];
        [|by (eapply reader_frame;
                [exact I|exact Hp|by rewrite list_lookup_alter_ne
                |cbn [is_read]; rewrite bool_decide_eq_false_2 by done; lia
                |tok_solve|repeat constructor; tok_solve])].
      unfold ReaderAt in I |- *. rewrite list_lookup_alter_eq.
      rewrite Heqo in I |- *. cbn [fmap option_fmap option_map is_read].
      rewrite bool_decide_eq_true_2 by done. destruct I as (Hu & Hn & H4 & H3).
      assert (∀ k, (k < nread H)%nat → ReadPacket E c0 k ≠ None) as Hok.
      { intros k Hk Hf. specialize (H3 k Hk Hf _ _ Hp). simpl in H3.
        by rewrite bool_decide_eq_true_2 in H3. }
      assert (∀ j r, (<[t:=LoopErrLog c0 ReadLoop]> (threads st) ++ []) !! j
                     = Some r → reader_token c0 r = false) as Hno.
      { intros j r Hr. rewrite app_nil_r in Hr.
        destruct (decide (j = t)) as [->|Hjt].
        - rewrite list_lookup_insert_eq in Hr by (by eapply lookup_lt_Some).
          by injection Hr as <-.
        - rewrite list_lookup_insert_ne in Hr by done.
          destruct (reader_token c0 r) eqn:Hrt; [|done]. destruct Hjt.
          eapply Hu; [done|done|done|]. simpl. by apply bool_decide_eq_true. }
      split_and!.
      * intros i i' q q' Hq Hq' Htk. by rewrite (Hno _ _ Hq) in Htk.
      * simpl. lia.
      * simpl. intros k Hk. apply Hok. lia.
      * intros k Hk Hf j r Hr. by eapply Hno.
  - destruct H as (p & [[p' s'] sp] & Hp & Hx & ->). intros c. specialize (I c).
    unfold commit. cbn [threads shared fst snd].
    destruct p; exec_inv Hx;
      cbn [shared trace conns emit upd_conn wg_add close_exit add_conn set_crashed];
      rewrite ?count_ReadPacket_snoc;
      try (by (eapply reader_frame;
                 [exact I|exact Hp
                 |nread_tac
                 |cbn [is_read]; lia
                 |tok_solve
                 |repeat constructor; tok_solve])).
  - destruct H as (ps & pr & ps' & pr' & s' & Hs & Hr & Hx & ->). intros c.
    specialize (I c). cbn [threads shared].
    pose proof (handoff_ne _ _ _ _ _ Hx) as Hne.
    assert (t ≠ r) as Htr by (intros ->; congruence).
    assert (conns s' = conns (shared st) ∧
            count_ReadPacket c (trace s') = count_ReadPacket c (trace (shared st)) ∧
            (reader_token c ps' = true → reader_token c ps = true) ∧
            reader_token c pr' = false) as (-> & -> & Hls & Hlr).
    { apply exec_handoff_inv in Hx
        as [(c0 & p & x & -> & -> & ? & ? & -> & -> & ->)
           |(c0 & p & tm & x & -> & -> & ? & ? & -> & -> & ->)];
        cbn [trace emit conns]; rewrite ?count_ReadPacket_snoc; simpl;
        split_and!; try done; lia. }
    eapply ReaderAt_frame; [exact I|done|].
    intros i q Hq Htk.
    apply lookup_handoff in Hq as [[-> ->]|[[-> ->]|(_ & _ & Hq)]]; eauto.
    congruence.
  - destruct H as (p & Hp & ->). intros c. specialize (I c).
    cbn [threads shared trace emit conns]. rewrite count_ReadPacket_snoc.
    cbn [is_read]. rewrite Nat.add_0_r.
    eapply ReaderAt_frame; [exact I|done|].
    intros i q Hq Htk. apply lookup_app_Some in Hq as [Hq|[_ Hq]]; [by eauto|].
    apply list_lookup_singleton_Some in Hq as [_ <-].
    destruct f; simpl in Hp; simplify_option_eq; done.
Qed.

Lemma ReaderInv_reachable E st : reachable E st → ReaderInv E st.
Proof.
  induction 1 as [|st ch st' Hr IH Hs].
  - intros c. split; [|split; [done|]]; intros t; intros; simpl in *;
      by rewrite lookup_nil in *.
  - eapply ReaderInv_step; eauto. by eapply Wf_reachable.
Qed.

(** ** No more messages than decoded packets *)

Arguments count_OnMessage : simpl never.
Arguments decoded : simpl never.

Lemma count_OnMessage_snoc c tr e :
  count_OnMessage c (tr ++ [e]) =
  (count_OnMessage c tr + (if is_message c e then 1 else 0))%nat.
Proof.
  unfold count_OnMessage. rewrite List.filter_app, length_app. simpl.
  by destruct (is_message c e).
Qed.

Lemma decoded_S E c n :
  decoded E c (S n) =
  (decoded E c n + match ReadPacket E c n with Some _ => 1 | None => 0 end)%nat.
Proof.
  unfold decoded. rewrite seq_S, List.filter_app, length_app. simpl.
  by destruct (ReadPacket E c n) as [p|].
Qed.

Lemma hand_nonneg c b q : 0 ≤ hand c b q.
Proof. destruct q; simpl; repeat case_match; lia. Qed.

Lemma hand_closed_le c b q : hand c true q ≤ hand c b q.
Proof. destruct q; simpl; repeat case_match; simpl in *; try lia; congruence. Qed.

Lemma total_le f g l : (∀ q, f q ≤ g q) → total f l ≤ total g l.
Proof. intros H. induction l as [|a l IH]; simpl; [lia|specialize (H a); lia]. Qed.

Lemma total_all_zero f (l : list pc) :
  (∀ t q, l !! t = Some q → f q = 0) → total f l = 0.
Proof.
  induction l as [|a l IH]; intros H; simpl; [done|].
  rewrite (H 0%nat a eq_refl), IH; [done|]. intros t q Hq. by apply (H (S t)).
Qed.

Lemma recv_closed_IsClosed E st c x :
  reachable E st → conns (shared st) !! c = Some x →
  Chan.closed (packetReceiveChan x) = true → IsClosed x = true.
Proof.
  intros Hr Hx Hcl. destruct (OnceInv_reachable _ _ Hr c) as [_ Ho].
  simpl in Ho. rewrite Hx in Ho. destruct Ho as (Hs & _).
  destruct Hs as (_ & _ & [_ Hf] & _ & _ & [Hrc _] & _). unfold IsClosed.
  rewrite Hf; [done|]. specialize (Hrc Hcl). lia.
Qed.

Lemma msg_step_some E c x x' nm nm' (ths : list pc) t p p' sp :
  nmsg x = nm →
  Z.of_nat (nmsg x) + total (hand c (IsClosed x)) ths
  + Z.of_nat (length (Chan.buf (packetReceiveChan x)))
  ≤ Z.of_nat (decoded E c (nread x)) →
  ths !! t = Some p →
  (IsClosed x = true → IsClosed x' = true) →
  nmsg x' = nm' →
  Z.of_nat (nmsg x') + hand c (IsClosed x') p' + total (hand c (IsClosed x')) sp
  + Z.of_nat (length (Chan.buf (packetReceiveChan x')))
  + Z.of_nat (decoded E c (nread x))
  ≤ Z.of_nat (nmsg x) + hand c (IsClosed x') p
    + Z.of_nat (length (Chan.buf (packetReceiveChan x)))
    + Z.of_nat (decoded E c (nread x')) →
  MsgAt E c (Some x') nm' (<[t:=p']> ths ++ sp).
Proof.
  intros Hn Hle Hp Hcl Hn' Hstep. split; [done|].
  rewrite total_app, (total_insert _ _ _ _ _ Hp).
  assert (total (hand c (IsClosed x')) ths ≤ total (hand c (IsClosed x)) ths).
  { destruct (IsClosed x) eqn:Hx.
    - rewrite Hcl by done. lia.
    - destruct (IsClosed x'); [|lia]. apply total_le. intros q.
      apply hand_closed_le. }
  lia.
Qed.

Lemma msg_step_none E c nm nm' ths :
  MsgAt E c None nm ths → nm' = nm → MsgAt E c None nm' ths.
Proof. by intros ? ->. Qed.

Arguments MsgAt : simpl never.

Ltac msg_solve :=
  unfold IsClosed in *; simpl in *;
  repeat match goal with
         | H : Chan.send _ _ = Chan.SendOk _ |- _ =>
             unfold Chan.send in H; repeat case_match; simplify_eq/=
         | H : Chan.recv _ = Chan.RecvOk _ _ |- _ =>
             unfold Chan.recv in H; repeat case_match; simplify_eq/=
         | H : Chan.close _ = Some _ |- _ =>
             unfold Chan.close in H; repeat case_match; simplify_eq/=
         | H : true = true → _ |- _ => specialize (H eq_refl)
         | a : after |- _ => destruct a
         | w : loop |- _ => destruct w
         end;
  rewrite ?decoded_S, ?length_app in *; simpl in *;
  repeat match goal with
         | H : (closeFlag ?x =? 1) = _ |- _ => rewrite H in *
         | H : ReadPacket _ _ _ = _ |- _ => rewrite H in *
         end;
  simpl in *; repeat case_bool_decide; simplify_eq/=;
  repeat match goal with
         | H1 : ?a = Some ?x, H2 : ?a = Some ?y |- _ =>
             rewrite H1 in H2; injection H2 as ->
         | H : (closeFlag ?x =? 1) = _ |- _ => rewrite H in *
         end;
  simpl in *; try done; try lia.

Lemma MsgInv_step E st ch st' :
  reachable E st → MsgInv E st → step E st ch = Some st' → MsgInv E st'.
Proof.
  intros Hreach I H. pose proof (Wf_reachable _ _ Hreach) as Hwf.
  apply step_inv in H as [Hc H].
  destruct ch as [t|t k|t r|f].
  - destruct H as (p & [[p' s'] sp] & Hp & Hx & ->). intros c. specialize (I c).
    pose proof (Hwf _ _ Hp) as Hwp.
    pose proof (recv_closed_IsClosed E st c) as Hrc.
    unfold commit. cbn [threads shared fst snd].
    destruct (conns (shared st) !! c) as [x|] eqn:Hcx.
    + destruct I as [In Il]. specialize (Hrc x Hreach eq_refl).
      destruct p; exec_inv Hx;
        cbn [shared trace conns emit upd_conn wg_add close_exit add_conn set_crashed];
        rewrite ?count_OnMessage_snoc; cbn [is_message];
        rewrite ?list_lookup_alter, ?(lookup_app_l _ [newConn E])
          by (by eapply lookup_lt_Some);
        repeat case_decide; simplify_eq; rewrite Hcx;
        cbn [fmap option_fmap option_map];
        try (by (eapply msg_step_some; [exact In|exact Il|exact Hp|..]; msg_solve)).
    + pose proof (proj1 (lookup_ge_None _ _) Hcx) as Hge.
      unfold MsgAt in I.
      destruct p; exec_inv Hx;
        cbn [shared trace conns emit upd_conn wg_add close_exit add_conn set_crashed];
        rewrite ?count_OnMessage_snoc; cbn [is_message];
        rewrite ?list_lookup_alter;
        repeat case_decide; simplify_eq;
        try (specialize (Hwp _ eq_refl); lia);
        rewrite ?Hcx;
        try (by (apply msg_step_none with (nm := 0%nat); [done|];
                 rewrite I; repeat case_bool_decide; simplify_eq; try done;
                 specialize (Hwp _ eq_refl); lia)).
      (* ConnNew *)
      destruct (decide (c = length (conns (shared st)))) as [->|Hne].
      * rewrite lookup_app_r, Nat.sub_diag by done. cbn [lookup list_lookup].
        split; [by rewrite I|]. simpl. rewrite total_all_zero; [lia|].
        intros i q Hq. rewrite app_nil_r in Hq.
        destruct (decide (i = t)) as [->|Hit].
        -- rewrite list_lookup_insert_eq in Hq by (by eapply lookup_lt_Some).
           by injection Hq as <-.
        -- rewrite list_lookup_insert_ne in Hq by done.
           pose proof (Hwf _ _ Hq) as Hwq.
           destruct q; simpl; try done; try destruct w; try done;
             rewrite ?bool_decide_eq_false_2; try done;
             intros ->; specialize (Hwq _ eq_refl); lia.
      * rewrite lookup_ge_None_2 by (rewrite length_app; simpl; lia). done.
  - destruct H as (p & [[p' s'] sp] & Hp & Hx & ->). intros c. specialize (I c).
    pose proof (Hwf _ _ Hp) as Hwp.
    pose proof (recv_closed_IsClosed E st c) as Hrc.
    unfold commit. cbn [threads shared fst snd].
    destruct (conns (shared st) !! c) as [x|] eqn:Hcx.
    + destruct I as [In Il]. specialize (Hrc x Hreach eq_refl).
      destruct p; exec_inv Hx;
        cbn [shared trace conns emit upd_conn wg_add close_exit add_conn set_crashed];
        rewrite ?count_OnMessage_snoc; cbn [is_message];
        rewrite ?list_lookup_alter;
        repeat case_decide; simplify_eq; rewrite Hcx;
        cbn [fmap option_fmap option_map];
        try (by (eapply msg_step_some; [exact In|exact Il|exact Hp|..]; msg_solve)).
      eapply msg_step_some; [exact In|exact Il|exact Hp|..]; [done|done|].
      unfold Chan.recv in *. simpl.
      destruct (Chan.buf (packetReceiveChan x)) as [|q0 buf] eqn:Hbuf.
      * destruct (Chan.closed (packetReceiveChan x)) eqn:Hcl; [|done].
        simplify_eq/=. specialize (Hrc eq_refl).
        change (IsClosed (set_packetReceiveChan (packetReceiveChan x) x))
          with (IsClosed x).
        rewrite Hbuf, Hrc. rewrite bool_decide_eq_true_2 by done. simpl. lia.
      * simplify_eq/=. rewrite bool_decide_eq_true_2 by done.
        match goal with |- context [negb ?b] => destruct b end; simpl; lia.
    + pose proof (proj1 (lookup_ge_None _ _) Hcx) as Hge.
      unfold MsgAt in I.
      destruct p; exec_inv Hx;
        cbn [shared trace conns emit upd_conn wg_add close_exit add_conn set_crashed];
        rewrite ?count_OnMessage_snoc; cbn [is_message];
        rewrite ?list_lookup_alter;
        repeat case_decide; simplify_eq;
        try (specialize (Hwp _ eq_refl); lia);
        rewrite ?Hcx;
        try (by (apply msg_step_none with (nm := 0%nat); [done|];
                 rewrite I; repeat case_bool_decide; simplify_eq; try done;
                 specialize (Hwp _ eq_refl); lia)).
  - destruct H as (ps & pr & ps' & pr' & s' & Hs & Hr & Hx & ->). intros c.
    specialize (I c). cbn [threads shared].
    pose proof (handoff_ne _ _ _ _ _ Hx) as Hne.
    assert (t ≠ r) as Htr by (intros ->; congruence).
    assert (<[t:=ps']> (threads st) !! r = Some pr) as Hr'
      by (by rewrite list_lookup_insert_ne).
    assert (conns s' = conns (shared st) ∧
            count_OnMessage c (trace s') = count_OnMessage c (trace (shared st)) ∧
            ∀ b, hand c b ps' + hand c b pr' ≤ hand c b ps + hand c b pr)
      as (-> & -> & Hh).
    { apply exec_handoff_inv in Hx
        as [(c0 & p & x & -> & -> & ? & ? & -> & -> & ->)
           |(c0 & p & tm & x & -> & -> & ? & ? & -> & -> & ->)];
        cbn [trace emit conns]; rewrite ?count_OnMessage_snoc; simpl;
        split_and!; try done; try lia;
        intros b; repeat case_bool_decide; destruct b; simpl; lia. }
    unfold MsgAt in *. destruct (conns (shared st) !! c) as [x|]; [|done].
    destruct I as [In Il]. split; [done|].
    rewrite (total_insert _ _ _ _ _ Hr'), (total_insert _ _ _ _ _ Hs).
    specialize (Hh (IsClosed x)). lia.
  - destruct H as (p & Hp & ->). intros c. specialize (I c).
    cbn [threads shared trace emit conns]. rewrite count_OnMessage_snoc.
    cbn [is_message]. rewrite Nat.add_0_r.
    unfold MsgAt in *. destruct (conns (shared st) !! c) as [x|]; [|done].
    destruct I as [In Il]. split; [done|]. rewrite total_app. simpl.
    assert (hand c (IsClosed x) p = 0) as ->; [|lia].
    destruct f; simpl in Hp; simplify_option_eq; done.
Qed.

Lemma MsgInv_reachable E st : reachable E st → MsgInv E st.
Proof.
  induction 1 as [|st ch st' Hr IH Hs]; [done|]. by eapply MsgInv_step.
Qed.

(** ** A worker exits through [Close] *)

Arguments worker_exited : simpl never.

Lemma worker_exited_snoc c tr e :
  worker_exited c (tr ++ [e]) = worker_exited c tr || is_worker_exit c e.
Proof. unfold worker_exited. rewrite existsb_app. simpl. by rewrite orb_false_r. Qed.

Ltac exited_solve :=
  simpl in *;
  repeat match goal with
         | H : _ ∧ _ |- _ => destruct H
         | H : _ || _ = true |- _ => apply orb_true_iff in H as [?|?]
         | a : after |- _ => destruct a
         | H : ?x = ?x → _ |- _ => specialize (H eq_refl)
         | H : ?P → _, H' : ?P |- _ => specialize (H H')
         | |- _ → _ => intro
         end;
  simpl in *; repeat case_bool_decide; simplify_eq;
  rewrite ?orb_true_r, ?orb_false_r; try done; eauto.

Lemma ExitedInv_step E st ch st' :
  ExitedInv st → step E st ch = Some st' → ExitedInv st'.
Proof.
  intros I H. apply step_inv in H as [Hc H].
  destruct ch as [t|t k|t r|f].
  - destruct H as (p & [[p' s'] sp] & Hp & Hx & ->). intros c.
    destruct (I c) as [Hw He].
    assert (∀ w, p = WorkerDone c w → close_returned c (trace (shared st)) = true)
      as Hme by (intros w ->; eauto).
    unfold commit. cbn [threads shared fst snd].
    destruct p; exec_inv Hx;
      cbn [shared trace conns emit upd_conn wg_add close_exit add_conn set_crashed];
      rewrite ?worker_exited_snoc, ?close_returned_snoc;
      (split;
       [ intros i w' Hq;
         eapply (threads_commit_pred
                   (λ q, ∀ w, q = WorkerDone c w → _ = true)) in Hq;
         [exact Hq| |exited_solve|repeat constructor; exited_solve|done];
         intros j q Hj w0 ->; rewrite (Hw _ _ Hj); exited_solve
       | try specialize (Hme _ eq_refl); exited_solve ]).
  - destruct H as (p & [[p' s'] sp] & Hp & Hx & ->). intros c.
    destruct (I c) as [Hw He].
    unfold commit. cbn [threads shared fst snd].
    destruct p; exec_inv Hx;
      cbn [shared trace conns emit upd_conn wg_add close_exit add_conn set_crashed];
      rewrite ?worker_exited_snoc, ?close_returned_snoc;
      (split;
       [ intros i w' Hq;
         eapply (threads_commit_pred
                   (λ q, ∀ w, q = WorkerDone c w → _ = true)) in Hq;
         [exact Hq| |exited_solve|repeat constructor; exited_solve|done];
         intros j q Hj w0 ->; rewrite (Hw _ _ Hj); exited_solve
       | exited_solve ]).
  - destruct H as (ps & pr & ps' & pr' & s' & Hs & Hr & Hx & ->). intros c.
    destruct (I c) as [Hw He]. cbn [threads shared].
    pose proof (handoff_ne _ _ _ _ _ Hx) as Hne.
    assert (t ≠ r) as Htr by (intros ->; congruence).
    apply exec_handoff_inv in Hx
      as [(c0 & p & x & -> & -> & ? & ? & -> & -> & ->)
         |(c0 & p & tm & x & -> & -> & ? & ? & -> & -> & ->)];
      cbn [trace emit]; rewrite ?worker_exited_snoc, ?close_returned_snoc;
      simpl; rewrite ?orb_false_r; (split; [|done]);
      intros i w Hq;
      (apply lookup_handoff in Hq as [[_ Hq]|[[_ Hq]|(_ & _ & Hq)]];
       [done|done|by eauto|done]).
  - destruct H as (p & Hp & ->). intros c. destruct (I c) as [Hw He].
    cbn [threads shared trace emit].
    rewrite worker_exited_snoc, close_returned_snoc. simpl.
    rewrite !orb_false_r. split; [|done].
    intros i w Hq. apply lookup_app_Some in Hq as [Hq|[_ Hq]]; [by eauto|].
    apply list_lookup_singleton_Some in Hq as [_ Hq].
    destruct f; simpl in Hp; simplify_option_eq.
Qed.

Lemma ExitedInv_reachable E st : reachable E st → ExitedInv st.
Proof.
  induction 1 as [|st ch st' Hr IH Hs]; [|by eapply ExitedInv_step].
  intros c. split; [|done]. intros t w H. simpl in H. by rewrite lookup_nil in H.
Qed.

(** ** A decode failure on the third packet *)

(** C9, as stated: the message-hook is invoked exactly twice, then the
    closed-hook once.  Not so: on the Protocol of [demoEnv], which decodes
    two packets and fails on the third, this run ends with every worker
    exited, one invocation of the message-hook, and that one after the
    closed-hook. *)
Lemma decode_failure_drops_message :
  run demoEnv NewServer sched_reader_ahead = Some st_reader_ahead ∧
  ReadPacket demoEnv 0 0 = Some (mkPacket 1) ∧
  ReadPacket demoEnv 0 1 = Some (mkPacket 2) ∧
  ReadPacket demoEnv 0 2 = None ∧
  threads st_reader_ahead = [StartSelect 0 1; Exited; Exited; Exited; Exited] ∧
  count_ReadPacket 0 (trace (shared st_reader_ahead)) = 3%nat ∧
  count_OnMessage 0 (trace (shared st_reader_ahead)) = 1%nat ∧
  hooks 0 (trace (shared st_reader_ahead)) =
    [EvOnClose 0; EvOnMessage 0 (mkPacket 1) true].
Proof. split_and!; vm_compute; reflexivity. Qed.

Lemma decoded_le E c n m : (n ≤ m)%nat → (decoded E c n ≤ decoded E c m)%nat.
Proof.
  induction 1 as [|m _ IH]; [done|]. rewrite decoded_S. lia.
Qed.

(** C9, amended.  On a connection whose Protocol decodes two packets and
    fails on the third: ReadPacket is called at most three times (no call
    follows the failing one); the message-hook is invoked at most twice;
    the closed-hook fires at most once, and exactly once by the time a
    worker of the connection has exited. *)
Theorem decode_failure_on_third E sched st c p1 p2 :
  run E NewServer sched = Some st →
  ReadPacket E c 0 = Some p1 →
  ReadPacket E c 1 = Some p2 →
  ReadPacket E c 2 = None →
  (count_ReadPacket c (trace (shared st)) ≤ 3)%nat ∧
  (count_OnMessage c (trace (shared st)) ≤ 2)%nat ∧
  (count_OnClose c (trace (shared st)) ≤ 1)%nat ∧
  (worker_exited c (trace (shared st)) = true →
   count_OnClose c (trace (shared st)) = 1%nat).
Proof.
  intros Hrun H0 H1 H2. apply run_reachable in Hrun.
  pose proof (ReaderInv_reachable _ _ Hrun c) as [_ Hrd].
  pose proof (MsgInv_reachable _ _ Hrun c) as Hmsg.
  destruct (teardown_once E st c Hrun) as (_ & Hle & Hcl).
  destruct (ExitedInv_reachable _ _ Hrun c) as [_ Hex].
  unfold MsgAt in Hmsg.
  assert (decoded E c 3 = 2%nat) as Hd3.
  { rewrite !decoded_S, H0, H1, H2. done. }
  destruct (conns (shared st) !! c) as [x|].
  - destruct Hrd as (Hn & H4 & _). destruct Hmsg as (Hm & Hmle).
    assert (nread x ≤ 3)%nat as Hn3.
    { destruct (decide (nread x ≤ 3)%nat) as [|Hgt]; [done|].
      destruct (H4 2%nat); [lia|done]. }
    pose proof (decoded_le E c _ _ Hn3) as Hdle.
    pose proof (total_nonneg (hand c (IsClosed x)) (threads st)
                  (hand_nonneg c (IsClosed x))) as Htot.
    split_and!; [lia|lia|done|]. intros Hw. by apply Hcl, Hex.
  - destruct Hrd as [-> _]. rewrite Hmsg.
    split_and!; [lia|lia|done|]. intros Hw. by apply Hcl, Hex.
Qed.

Lemma decode_failure_on_third_witness :
  run demoEnv NewServer sched_reader_ahead = Some st_reader_ahead ∧
  ReadPacket demoEnv 0 0 = Some (mkPacket 1) ∧
  ReadPacket demoEnv 0 1 = Some (mkPacket 2) ∧
  ReadPacket demoEnv 0 2 = None ∧
  (count_ReadPacket 0 (trace (shared st_reader_ahead)) ≤ 3)%nat ∧
  (count_OnMessage 0 (trace (shared st_reader_ahead)) ≤ 2)%nat ∧
  (count_OnClose 0 (trace (shared st_reader_ahead)) ≤ 1)%nat ∧
  (worker_exited 0 (trace (shared st_reader_ahead)) = true →
   count_OnClose 0 (trace (shared st_reader_ahead)) = 1%nat).
Proof.
  do 4 (split; [vm_compute; reflexivity|]).
  apply (decode_failure_on_third demoEnv sched_reader_ahead st_reader_ahead 0
           (mkPacket 1) (mkPacket 2)); vm_compute; reflexivity.
Defined.

Lemma conn_le_refl x : conn_le x x.
Proof. unfold conn_le. split_and!; auto. Qed.

Lemma conn_le_trans x y z : conn_le x y → conn_le y z → conn_le x z.
Proof.
  unfold conn_le. intros (A1&A2&A3&A4&A5&A6&A7&A8&A9&A10&A11&A12)
    (B1&B2&B3&B4&B5&B6&B7&B8&B9&B10&B11&B12).
  split_and!; try (by auto); try congruence; lia.
Qed.

Ltac conn_le_solve :=
  unfold conn_le, IsClosed; simpl;
  repeat match goal with
         | w : loop |- _ => destruct w
         | H : Chan.send _ _ = Chan.SendOk _ |- _ =>
             unfold Chan.send in H; repeat case_match; simplify_eq/=
         | H : Chan.recv _ = Chan.RecvOk _ _ |- _ =>
             unfold Chan.recv in H; repeat case_match; simplify_eq/=
         | H : Chan.close _ = Some _ |- _ =>
             unfold Chan.close in H; repeat case_match; simplify_eq/=
         | H : (_ <? _)%nat = true |- _ => apply Nat.ltb_lt in H
         end;
  repeat match goal with
         | H : Chan.buf _ = _ |- _ => rewrite H in *
         end;
  simpl in *; rewrite ?length_app; simpl;
  split_and!; try done; try (intros; lia); auto.

Lemma alter_conn_le (f : Conn → Conn) c0 (l : list Conn) c x :
  (∀ y, l !! c0 = Some y → conn_le y (f y)) →
  l !! c = Some x →
  ∃ x', alter f c0 l !! c = Some x' ∧ conn_le x x'.
Proof.
  intros Hf Hx. destruct (decide (c = c0)) as [->|Hne].
  - rewrite list_lookup_alter_eq, Hx. simpl. eauto.
  - rewrite list_lookup_alter_ne by done. eauto using conn_le_refl.
Qed.

Lemma exec_run_conn E t p s o c x :
  exec_run E t p s = Some o → conns s !! c = Some x →
  ∃ x', conns o.1.2 !! c = Some x' ∧ conn_le x x'.
Proof.
  intros Hx Hc. destruct p; exec_inv Hx;
    cbn [fst snd conns emit upd_conn wg_add close_exit add_conn set_crashed];
    try (by eauto using conn_le_refl);
    try (by (apply alter_conn_le; [|done]; intros; simplify_eq; conn_le_solve)).
  rewrite lookup_app_l by (by eapply lookup_lt_Some). eauto using conn_le_refl.
Qed.

Lemma exec_pick_conn k t p s o c x :
  exec_pick k t p s = Some o → conns s !! c = Some x →
  ∃ x', conns o.1.2 !! c = Some x' ∧ conn_le x x'.
Proof.
  intros Hx Hc. destruct p; exec_inv Hx;
    cbn [fst snd conns emit upd_conn wg_add close_exit add_conn set_crashed];
    try (by eauto using conn_le_refl);
    try (by (apply alter_conn_le; [|done]; intros; simplify_eq; conn_le_solve)).
Qed.

Lemma step_conn E st ch st' c x :
  step E st ch = Some st' → conns (shared st) !! c = Some x →
  ∃ x', conns (shared st') !! c = Some x' ∧ conn_le x x'.
Proof.
  intros H Hc. apply step_inv in H as [_ H]. destruct ch as [t|t k|t r|f].
  - destruct H as (p & o & Hp & Hx & ->). by eapply exec_run_conn.
  - destruct H as (p & o & Hp & Hx & ->). by eapply exec_pick_conn.
  - destruct H as (ps & pr & ps' & pr' & s' & Hs & Hr & Hx & ->).
    apply exec_handoff_inv in Hx
      as [(c0 & p & x0 & -> & -> & ? & ? & -> & -> & ->)
         |(c0 & p & tm & x0 & -> & -> & ? & ? & -> & -> & ->)];
      simpl; eauto using conn_le_refl.
  - destruct H as (p & Hp & ->). simpl. eauto using conn_le_refl.
Qed.

Lemma run_conn E sched : ∀ st st' c x,
  run E st sched = Some st' → conns (shared st) !! c = Some x →
  ∃ x', conns (shared st') !! c = Some x' ∧ conn_le x x'.
Proof.
  induction sched as [|ch sched IH]; intros st st' c x H Hc; simpl in H.
  - simplify_eq. eauto using conn_le_refl.
  - destruct (step E st ch) as [st1|] eqn:Hs; simpl in H; [|done].
    destruct (step_conn _ _ _ _ _ _ Hs Hc) as (x1 & Hc1 & Hle1).
    destruct (IH _ _ _ _ H Hc1) as (x' & Hc' & Hle').
    eauto using conn_le_trans.
Qed.

(** A step makes no connection but by [newConn]. *)
Lemma step_conn_new E st ch st' c x' :
  step E st ch = Some st' → conns (shared st') !! c = Some x' →
  conns (shared st) !! c = None → x' = newConn E.
Proof.
  intros H Hc' Hc. apply step_inv in H as [_ H]. destruct ch as [t|t k|t r|f].
  - destruct H as (p & o & Hp & Hx & ->). unfold commit in Hc'. simpl in Hc'.
    destruct p; exec_inv Hx;
      cbn [fst snd conns emit upd_conn wg_add close_exit add_conn set_crashed] in Hc';
      rewrite ?list_lookup_alter in Hc'; repeat case_decide; simplify_eq;
      rewrite ?Hc in Hc'; try done; try congruence.
    apply lookup_app_Some in Hc' as [Hc'|[_ Hc']]; [congruence|].
    by apply list_lookup_singleton_Some in Hc' as [_ <-].
  - destruct H as (p & o & Hp & Hx & ->). unfold commit in Hc'. simpl in Hc'.
    destruct p; exec_inv Hx;
      cbn [fst snd conns emit upd_conn wg_add close_exit add_conn set_crashed] in Hc';
      rewrite ?list_lookup_alter in Hc'; repeat case_decide; simplify_eq;
      rewrite ?Hc in Hc'; try done; congruence.
  - destruct H as (ps & pr & ps' & pr' & s' & Hs & Hr & Hx & ->).
    apply exec_handoff_inv in Hx
      as [(c0 & p & x0 & -> & -> & ? & ? & -> & -> & ->)
         |(c0 & p & tm & x0 & -> & -> & ? & ? & -> & -> & ->)];
      simpl in Hc'; congruence.
  - destruct H as (p & Hp & ->). simpl in Hc'. congruence.
Qed.

Lemma QueueInv_step E st ch st' :
  QueueInv E st → step E st ch = Some st' → QueueInv E st'.
Proof.
  intros I H c x' Hc'.
  destruct (conns (shared st) !! c) as [x|] eqn:Hc.
  - destruct (step_conn _ _ _ _ _ _ H Hc) as (y & Hy & Hle).
    rewrite Hc' in Hy. injection Hy as <-.
    destruct (I c x Hc) as (C1 & C2 & L1 & L2).
    destruct Hle as (A1 & A2 & A3 & A4 & _).
    rewrite C1 in A1, A3. rewrite C2 in A2, A4. rewrite A1 in A3. rewrite A2 in A4.
    auto.
  - rewrite (step_conn_new _ _ _ _ _ _ H Hc' Hc). simpl. split_and!; (done || lia).
Qed.

Lemma QueueInv_reachable E st : reachable E st → QueueInv E st.
Proof.
  induction 1 as [|st ch st' Hr IH Hs]; [|by eapply QueueInv_step].
  intros c x H. simpl in H. by rewrite lookup_nil in H.
Qed.

(** X1.  The queues of a connection never hold more packets than
    [PacketSendChanLimit] and [PacketReceiveChanLimit] allow, whatever the
    callers of AsyncWritePacket, the read worker and the two consuming
    workers do. *)
Theorem queues_within_limits E sched st c x :
  run E NewServer sched = Some st →
  conns (shared st) !! c = Some x →
  (length (Chan.buf (packetSendChan x)) ≤ N.to_nat (PacketSendChanLimit E))%nat ∧
  (length (Chan.buf (packetReceiveChan x)) ≤ N.to_nat (PacketReceiveChanLimit E))%nat.
Proof.
  intros Hrun Hc. apply run_reachable in Hrun.
  destruct (QueueInv_reachable _ _ Hrun c x Hc) as (_ & _ & L1 & L2). done.
Qed.

Lemma queues_within_limits_witness :
  run demoEnv NewServer sched_reader_ahead = Some st_reader_ahead ∧
  (∃ x, conns (shared st_reader_ahead) !! 0%nat = Some x ∧
     (length (Chan.buf (packetSendChan x)) ≤ N.to_nat (PacketSendChanLimit demoEnv))%nat ∧
     (length (Chan.buf (packetReceiveChan x))
      ≤ N.to_nat (PacketReceiveChanLimit demoEnv))%nat).
Proof.
  split; [vm_compute; reflexivity|].
  eexists. split; [vm_compute; reflexivity|].
  apply (queues_within_limits demoEnv sched_reader_ahead st_reader_ahead 0);
    vm_compute; reflexivity.
Defined.

Arguments stop_calls : simpl never.
Arguments panics : simpl never.

Lemma stop_calls_snoc tr e :
  stop_calls (tr ++ [e]) = (stop_calls tr + (if is_stop_call e then 1 else 0))%nat.
Proof.
  unfold stop_calls. rewrite List.filter_app, length_app. simpl.
  by destruct (is_stop_call e).
Qed.

Lemma panics_snoc tr e :
  panics (tr ++ [e]) = panics tr ++ (if is_panic e then [e] else []).
Proof. unfold panics. rewrite List.filter_app. simpl. by destruct (is_panic e). Qed.

Lemma at_StopClose_nonneg q : 0 ≤ at_StopClose q.
Proof. destruct q; simpl; lia. Qed.

Lemma StopInv_step E st ch st' : StopInv st → step E st ch = Some st' → StopInv st'.
Proof.
  unfold StopInv. intros I H. apply step_inv in H as [Hc H].
  destruct ch as [t|t k|t r|f].
  - destruct H as (p & o & Hp & Hx & ->).
    pose proof (total_lookup_le at_StopClose _ _ _ at_StopClose_nonneg Hp) as Hle.
    unfold commit; simpl. rewrite total_app, (total_insert _ _ _ _ _ Hp).
    destruct p; exec_inv Hx;
      cbn [fst snd shared trace exitChan emit upd_conn wg_add close_exit add_conn
             set_crashed total foldr at_StopClose after_pc] in *;
      rewrite ?stop_calls_snoc; cbn [is_stop_call];
      repeat match goal with
             | H : exitChan _ = _ |- _ => rewrite H in *
             | a : after |- _ => destruct a
             | w : loop |- _ => destruct w
             end; simpl; try lia.
  - destruct H as (p & o & Hp & Hx & ->).
    unfold commit; simpl. rewrite total_app, (total_insert _ _ _ _ _ Hp).
    destruct p; exec_inv Hx;
      cbn [fst snd shared trace exitChan emit upd_conn wg_add close_exit add_conn
             set_crashed total foldr at_StopClose after_pc] in *;
      rewrite ?stop_calls_snoc; cbn [is_stop_call];
      repeat match goal with
             | H : exitChan _ = _ |- _ => rewrite H in *
             | a : after |- _ => destruct a
             | w : loop |- _ => destruct w
             end; simpl; try lia.
  - destruct H as (ps & pr & ps' & pr' & s' & Hs & Hr & Hx & ->). simpl.
    assert (<[t:=ps']> (threads st) !! r = Some pr) as Hr'.
    { rewrite list_lookup_insert_ne; [done|]. intros ->.
      apply handoff_ne in Hx. congruence. }
    rewrite (total_insert _ _ _ _ _ Hr'), (total_insert _ _ _ _ _ Hs).
    apply exec_handoff_inv in Hx
      as [(c & p & x & -> & -> & ? & ? & -> & -> & ->)
         |(c & p & tm & x & -> & -> & ? & ? & -> & -> & ->)];
      simpl; rewrite ?stop_calls_snoc; simpl; lia.
  - destruct H as (p & Hp & ->). simpl. rewrite total_app, stop_calls_snoc. simpl.
    destruct f; simpl in Hp; simplify_option_eq; simpl; lia.
Qed.

Lemma StopInv_reachable E st : reachable E st → StopInv st.
Proof.
  induction 1 as [|st ch st' _ IH Hs]; [by compute|]. by eapply StopInv_step.
Qed.

(** The teardown closes channels that are open. *)
Lemma CloseBody_open E st t c a i x :
  reachable E st → threads st !! t = Some (CloseBody c a i) →
  conns (shared st) !! c = Some x →
  (i = 1%nat → closeChan x = false) ∧
  (i = 2%nat → Chan.closed (packetSendChan x) = false) ∧
  (i = 3%nat → Chan.closed (packetReceiveChan x) = false).
Proof.
  intros Hr Hp Hx. destruct (OnceInv_reachable _ _ Hr c) as [_ Ho].
  simpl in Ho. rewrite Hx in Ho. destruct Ho as (Hs & _ & Hl).
  specialize (Hl _ _ Hp). simpl in Hl. destruct (Hl eq_refl) as (_ & _ & Hn & _).
  destruct Hs as (_ & _ & _ & Hcc & Hsc & Hrc & _). rewrite Hn in *.
  split_and!; intros ->.
  - destruct (closeChan x); [|done]. destruct Hcc as [Hcc _].
    specialize (Hcc eq_refl). lia.
  - destruct (Chan.closed (packetSendChan x)); [|done]. destruct Hsc as [Hsc _].
    specialize (Hsc eq_refl). lia.
  - destruct (Chan.closed (packetReceiveChan x)); [|done]. destruct Hrc as [Hrc _].
    specialize (Hrc eq_refl). lia.
Qed.

(** A statement panics unrecovered only if it is the [close(s.exitChan)]
    of [Stop] on a closed [exitChan]. *)
Lemma exec_run_panics E st t p o :
  reachable E st → crashed (shared st) = false →
  threads st !! t = Some p → exec_run E t p (shared st) = Some o →
  (crashed o.1.2 = false ∧ panics (trace o.1.2) = panics (trace (shared st))) ∨
  (p = StopClose ∧ exitChan (shared st) = true).
Proof.
  intros Hr Hc Hp Hx.
  pose proof (InvWg_reachable _ _ Hr Hc) as Hwg.
  pose proof (total_lookup_le weight _ _ _ weight_nonneg Hp) as Hle.
  rewrite <-Hwg in Hle. clear Hwg.
  pose proof (CloseBody_open E st t) as Hcb.
  destruct p; exec_inv Hx;
    cbn [fst snd shared trace crashed emit upd_conn wg_add close_exit add_conn
           set_crashed];
    rewrite ?panics_snoc; cbn [is_panic]; rewrite ?app_nil_r;
    try (by left); try (by right);
    try (exfalso; unfold weight in Hle; simpl in Hle;
         match goal with H : (_ <=? _) = true |- _ => apply Z.leb_le in H end; lia).
  all: exfalso; edestruct Hcb as (H1 & H2 & H3); [done|done|done|].
  all: try (specialize (H1 eq_refl); congruence).
  all: try (specialize (H2 eq_refl); unfold Chan.close in *; rewrite H2 in *; done).
  all: try (specialize (H3 eq_refl); unfold Chan.close in *; rewrite H3 in *; done).
Qed.

Lemma exec_pick_panics k t p s o :
  exec_pick k t p s = Some o →
  crashed o.1.2 = crashed s ∧ panics (trace o.1.2) = panics (trace s).
Proof.
  intros Hx. destruct p; exec_inv Hx;
    cbn [fst snd shared trace crashed emit upd_conn wg_add close_exit add_conn
           set_crashed];
    rewrite ?panics_snoc; cbn [is_panic]; rewrite ?app_nil_r; done.
Qed.

Lemma exec_run_stop_calls E t p s o :
  exec_run E t p s = Some o → stop_calls (trace o.1.2) = stop_calls (trace s).
Proof.
  intros Hx. destruct p; exec_inv Hx;
    cbn [fst snd shared trace emit upd_conn wg_add close_exit add_conn set_crashed];
    rewrite ?stop_calls_snoc; cbn [is_stop_call]; lia.
Qed.

Lemma PanicInv_step E st ch st' :
  reachable E st → PanicInv st → step E st ch = Some st' → PanicInv st'.
Proof.
  intros Hreach [In Ic] H.
  pose proof (StopInv_reachable _ _ Hreach) as Hstop.
  apply step_inv in H as [Hc H]. specialize (In Hc).
  destruct ch as [t|t k|t r|f].
  - destruct H as (p & o & Hp & Hx & ->). unfold PanicInv, commit. simpl.
    destruct (exec_run_panics _ _ _ _ _ Hreach Hc Hp Hx) as [[Hc' Hpn]|[-> He]].
    + rewrite Hc', Hpn. split; [done|done].
    + pose proof (total_lookup_le at_StopClose _ _ _ at_StopClose_nonneg Hp) as Hle.
      unfold StopInv in Hstop. rewrite He in Hstop. simpl in Hle, Hx.
      rewrite He in Hx. unfold panic in Hx. simplify_eq. simpl.
      split; [done|]. intros _. rewrite stop_calls_snoc. simpl. lia.
  - destruct H as (p & o & Hp & Hx & ->). unfold PanicInv, commit. simpl.
    destruct (exec_pick_panics _ _ _ _ _ Hx) as [-> ->]. rewrite Hc. done.
  - destruct H as (ps & pr & ps' & pr' & s' & Hs & Hr & Hx & ->).
    apply exec_handoff_inv in Hx
      as [(c & p & x & -> & -> & ? & ? & -> & -> & ->)
         |(c & p & tm & x & -> & -> & ? & ? & -> & -> & ->)];
      unfold PanicInv; simpl; rewrite ?panics_snoc; simpl;
      rewrite ?app_nil_r, Hc; done.
  - destruct H as (p & Hp & ->). unfold PanicInv. simpl.
    rewrite panics_snoc. simpl. rewrite app_nil_r, Hc. done.
Qed.

Lemma PanicInv_reachable E st : reachable E st → PanicInv st.
Proof.
  induction 1 as [|st ch st' Hr IH Hs]; [done|]. by eapply PanicInv_step.
Qed.

Lemma no_panic E st :
  reachable E st → (stop_calls (trace (shared st)) ≤ 1)%nat →
  crashed (shared st) = false ∧ panics (trace (shared st)) = [].
Proof.
  intros Hr Hle. destruct (PanicInv_reachable _ _ Hr) as [Hn Hc].
  destruct (crashed (shared st)); [specialize (Hc eq_refl); lia|]. auto.
Qed.



(** ** The state of a closed connection *)

Lemma closed_after_return E st c :
  reachable E st → close_returned c (trace (shared st)) = true →
  ∃ x, conns (shared st) !! c = Some x ∧ IsClosed x = true ∧
    closeChan x = true ∧ Chan.closed (packetSendChan x) = true ∧
    Chan.closed (packetReceiveChan x) = true ∧ rawClosed x = true.
Proof.
  intros Hr Hret. destruct (OnceInv_reachable _ _ Hr c) as [_ Ho]. simpl in Ho.
  destruct (conns (shared st) !! c) as [x|]; [|destruct Ho; congruence].
  destruct Ho as (Hs & Hd & _). exists x. split; [done|].
  destruct Hs as (Hn & _ & [_ H1] & [_ H2] & [_ H3] & [_ H4] & [_ H5]).
  rewrite (Hn (Hd Hret)) in *. unfold IsClosed.
  rewrite H1, H2, H3, H4, H5 by lia. done.
Qed.

(** X3.  When a call of [Close] has returned on a connection — whichever call
    ran the teardown — [IsClosed] reports true, [closeChan] and both
    queues are closed and the socket is closed. *)
Theorem Close_returns_closed E sched st c :
  run E NewServer sched = Some st →
  close_returned c (trace (shared st)) = true →
  ∃ x, conns (shared st) !! c = Some x ∧ IsClosed x = true ∧
    closeChan x = true ∧ Chan.closed (packetSendChan x) = true ∧
    Chan.closed (packetReceiveChan x) = true ∧ rawClosed x = true.
Proof. intros Hrun. by apply (closed_after_return E), run_reachable with sched. Qed.

Lemma Close_returns_closed_witness :
  run demoEnv NewServer sched_two_closers = Some st_two_closers ∧
  close_returned 0 (trace (shared st_two_closers)) = true ∧
  ∃ x, conns (shared st_two_closers) !! 0%nat = Some x ∧ IsClosed x = true ∧
    closeChan x = true ∧ Chan.closed (packetSendChan x) = true ∧
    Chan.closed (packetReceiveChan x) = true ∧ rawClosed x = true.
Proof.
  do 2 (split; [vm_compute; reflexivity|]).
  apply (Close_returns_closed demoEnv sched_two_closers); vm_compute; reflexivity.
Defined.

(** X4.  What is closed stays closed: no statement resets [closeFlag], reopens
    a channel or the socket, or removes a connection. *)
Theorem closed_stays_closed E st sched st' c x :
  run E st sched = Some st' →
  conns (shared st) !! c = Some x →
  ∃ x', conns (shared st') !! c = Some x' ∧
    (IsClosed x = true → IsClosed x' = true) ∧
    (closeChan x = true → closeChan x' = true) ∧
    (Chan.closed (packetSendChan x) = true → Chan.closed (packetSendChan x') = true) ∧
    (Chan.closed (packetReceiveChan x) = true →
     Chan.closed (packetReceiveChan x') = true) ∧
    (rawClosed x = true → rawClosed x' = true).
Proof.
  intros Hrun Hc. destruct (run_conn _ _ _ _ _ _ Hrun Hc) as (x' & Hc' & Hle).
  exists x'. split; [done|]. unfold conn_le in Hle. tauto.
Qed.

(** ** After [Stop] has returned *)

Arguments stop_returned : simpl never.
Arguments accepted : simpl never.

Lemma stop_returned_snoc tr e :
  stop_returned (tr ++ [e]) = stop_returned tr || is_stop_ret e.
Proof. unfold stop_returned. rewrite existsb_app. simpl. by rewrite orb_false_r. Qed.

Lemma after_first_snoc A tr e :
  after_first A (tr ++ [e]) = if existsb A tr then after_first A tr ++ [e] else [].
Proof.
  induction tr as [|e0 tr IH]; simpl; [by destruct (A e)|].
  destruct (A e0); simpl; [done|]. apply IH.
Qed.

Lemma after_first_split A tr tr1 e tr2 :
  tr = tr1 ++ e :: tr2 → A e = true → ∃ tr0, after_first A tr = tr0 ++ tr2.
Proof.
  intros -> He. induction tr1 as [|e0 tr1 IH]; simpl.
  - rewrite He. by exists [].
  - destruct (A e0); [|done]. by exists (tr1 ++ [e]); rewrite <-app_assoc.
Qed.

Lemma Stopped_after_wait E st t :
  reachable E st → crashed (shared st) = false →
  threads st !! t = Some StopWait → waitGroup (shared st) = 0 →
  Stopped (commit t (Exited, emit (EvStopRet t) (shared st), []) (threads st)).
Proof.
  intros Hr Hc Hp H0.
  pose proof (InvWg_reachable _ _ Hr Hc) as Hwg.
  pose proof (ExitInv_reachable _ _ Hr _ Hp) as He. rewrite H0 in Hwg.
  split; [done|]. intros i p Hq Hreg. exfalso.
  destruct (lookup_commit _ _ _ _ _ _ Hp Hq) as [[-> ->]|[[_ Hq']|Hq']];
    [done| |by apply elem_of_nil in Hq'].
  pose proof (total_zero weight _ _ _ weight_nonneg (eq_sym Hwg) Hq') as Hw.
  unfold weight in Hw. rewrite Hreg in Hw. destruct p; simpl in Hw; lia.
Qed.

Ltac quiet_solve :=
  simpl in *;
  repeat match goal with
         | a : after |- _ => destruct a
         | H : ?x = ?x → _ |- _ => specialize (H eq_refl)
         end;
  simpl in *; try done; try congruence.

Lemma StopRetInv_step E st ch st' :
  reachable E st → StopRetInv st → step E st ch = Some st' → StopRetInv st'.
Proof.
  intros Hreach [Is Iq] H. pose proof H as Hstep.
  apply step_inv in H as [Hc H].
  assert (stop_returned (trace (shared st)) = true → Stopped st') as Hkeep.
  { intros Hs. eapply Stopped_step; [|exact Hstep]. auto. }
  destruct ch as [t|t k|t r|f].
  - destruct H as (p & [[p' s'] sp] & Hp & Hx & ->).
    assert (stop_returned (trace (shared st)) = true →
            registered p = true → leaving p = true) as Hl.
    { intros Hs. destruct (Is Hs) as [_ Hl]. eauto. }
    assert (stop_returned (trace (shared st)) = true →
            exitChan (shared st) = true) as He.
    { intros Hs. by destruct (Is Hs). }
    pose proof (Stopped_after_wait E st t Hreach Hc) as Hw.
    unfold StopRetInv in *. unfold commit in *. cbn [threads shared fst snd] in *.
    unfold stop_returned in *. 
    destruct p; exec_inv Hx;
      cbn [shared trace emit upd_conn wg_add close_exit add_conn set_crashed] in *;
      rewrite ?after_first_snoc, ?existsb_app; cbn [existsb is_stop_ret];
      rewrite ?orb_false_r;
      try (split; [exact Hkeep|]);
      try exact Iq;
      try (destruct (existsb is_stop_ret (trace (shared st))) eqn:Hs; [|done];
           rewrite ?forallb_app, ?Iq; quiet_solve).
    split; [|by destruct (existsb _ _); rewrite ?forallb_app, ?Iq].
    intros _. apply Hw; [done|]. by apply Z.eqb_eq.
  - destruct H as (p & [[p' s'] sp] & Hp & Hx & ->).
    unfold StopRetInv in *. unfold commit in *. cbn [threads shared fst snd] in *.
    destruct p; exec_inv Hx;
      cbn [shared trace emit upd_conn wg_add close_exit add_conn set_crashed] in *;
      rewrite ?after_first_snoc, ?stop_returned_snoc; cbn [is_stop_ret];
      rewrite ?orb_false_r;
      (split; [exact Hkeep|]); try exact Iq;
      fold (stop_returned (trace (shared st)));
      destruct (stop_returned (trace (shared st))) eqn:Hs; try done;
      rewrite ?forallb_app, ?Iq; done.
  - destruct H as (ps & pr & ps' & pr' & s' & Hs & Hr & Hx & ->).
    unfold StopRetInv in *. cbn [threads shared] in *.
    apply exec_handoff_inv in Hx
      as [(c & p & x & -> & -> & ? & ? & -> & -> & ->)
         |(c & p & tm & x & -> & -> & ? & ? & -> & -> & ->)];
      cbn [trace emit] in *;
      rewrite ?after_first_snoc, ?stop_returned_snoc; cbn [is_stop_ret];
      rewrite ?orb_false_r; (split; [exact Hkeep|]); try exact Iq;
      fold (stop_returned (trace (shared st)));
      destruct (stop_returned (trace (shared st))) eqn:Hs'; try done;
      rewrite ?forallb_app, ?Iq; done.
  - destruct H as (p & Hp & ->). unfold StopRetInv in *.
    cbn [threads shared trace emit] in *.
    rewrite after_first_snoc, stop_returned_snoc. cbn [is_stop_ret].
    rewrite orb_false_r. split; [exact Hkeep|].
    fold (stop_returned (trace (shared st))).
    destruct (stop_returned (trace (shared st))) eqn:Hs'; try done.
    rewrite forallb_app, Iq. done.
Qed.

Lemma StopRetInv_reachable E st : reachable E st → StopRetInv st.
Proof.
  induction 1 as [|st ch st' Hr IH Hs]; [done|]. by eapply StopRetInv_step.
Qed.

(** X5.  After [Stop] has returned the server is silent: it accepts no socket,
    invokes neither the accepted-hook nor the message-hook, reads and
    writes no socket, and no worker is left to log or exit — also when
    [Start] is called again. *)
Theorem silent_after_Stop E sched st tr1 t tr2 :
  run E NewServer sched = Some st →
  trace (shared st) = tr1 ++ EvStopRet t :: tr2 →
  Forall (λ e, is_service e = false) tr2.
Proof.
  intros Hrun Htr. apply run_reachable in Hrun.
  destruct (StopRetInv_reachable _ _ Hrun) as [_ Hq].
  destruct (after_first_split is_stop_ret _ _ _ _ Htr eq_refl) as (tr0 & Hsp).
  rewrite Hsp, forallb_app in Hq. apply andb_true_iff in Hq as [_ Hq].
  apply List.Forall_forall. intros e He.
  rewrite forallb_forall in Hq. apply negb_true_iff. by apply Hq.
Qed.

Lemma silent_after_Stop_witness :
  run demoEnv NewServer sched_stop_start = Some st_stop_start ∧
  trace (shared st_stop_start) =
    take 21 (trace (shared st_stop_start))
    ++ EvStopRet 5 :: [EvCall 6 (CallStart 1); EvListenerClose 1] ∧
  Forall (λ e, is_service e = false) [EvCall 6 (CallStart 1); EvListenerClose 1].
Proof.
  do 2 (split; [vm_compute; reflexivity|]).
  apply (silent_after_Stop demoEnv sched_stop_start st_stop_start
           (take 21 (trace (shared st_stop_start))) 5);
    vm_compute; reflexivity.
Defined.

Lemma closed_stays_closed_witness :
  run demoEnv st_closing (runs 5 7) = Some st_closing_done ∧
  conns (shared st_closing) !! 0%nat = Some (conn_at st_closing 0) ∧
  IsClosed (conn_at st_closing 0) = true ∧
  ∃ x', conns (shared st_closing_done) !! 0%nat = Some x' ∧
    (IsClosed (conn_at st_closing 0) = true → IsClosed x' = true) ∧
    (closeChan (conn_at st_closing 0) = true → closeChan x' = true) ∧
    (Chan.closed (packetSendChan (conn_at st_closing 0)) = true →
     Chan.closed (packetSendChan x') = true) ∧
    (Chan.closed (packetReceiveChan (conn_at st_closing 0)) = true →
     Chan.closed (packetReceiveChan x') = true) ∧
    (rawClosed (conn_at st_closing 0) = true → rawClosed x' = true).
Proof.
  do 3 (split; [vm_compute; reflexivity|]).
  apply (closed_stays_closed demoEnv st_closing (runs 5 7) st_closing_done 0);
    vm_compute; reflexivity.
Defined.

(** ** Connections that were accepted *)

Lemma accepted_snoc c tr e : accepted c (tr ++ [e]) = accepted c tr || is_accepted c e.
Proof. unfold accepted. rewrite existsb_app. simpl. by rewrite orb_false_r. Qed.

Lemma workers_nonneg c q : 0 ≤ workers c q.
Proof. unfold workers. destruct (worker_of c q); lia. Qed.

Ltac close_panic_absurd Hcb :=
  exfalso; edestruct Hcb as (?H1 & ?H2 & ?H3); [done|done|done|];
  first [ specialize (H1 eq_refl); congruence
        | specialize (H2 eq_refl); unfold Chan.close in *; rewrite H2 in *; done
        | specialize (H3 eq_refl); unfold Chan.close in *; rewrite H3 in *; done ].

Ltac live_solve :=
  unfold workers, is_accepted in *; simpl in *;
  repeat match goal with
         | a : after |- _ => destruct a
         | w : loop |- _ => destruct w
         end;
  simpl in *; repeat case_bool_decide; simplify_eq;
  rewrite ?orb_true_r, ?orb_false_r, ?orb_false_l in *;
  repeat match goal with
         | H : ?P → _, H' : ?P |- _ => specialize (H H')
         | H : true = true → _ |- _ => specialize (H eq_refl)
         end;
  first [ by right | left; lia | done ].

Lemma LiveInv_step E st ch st' :
  reachable E st → LiveInv st → step E st ch = Some st' → LiveInv st'.
Proof.
  intros Hreach I H. apply step_inv in H as [Hc H].
  destruct ch as [t|t k|t r|f].
  - destruct H as (p & [[p' s'] sp] & Hp & Hx & ->). intros c. specialize (I c).
    pose proof (total_lookup_le (workers c) _ _ _ (workers_nonneg c) Hp) as Hle.
    pose proof (CloseBody_open E st t) as Hcb. specialize (Hcb c).
    unfold commit. cbn [threads shared fst snd].
    rewrite total_app, (total_insert _ _ _ _ _ Hp).
    destruct (worker_exited c (trace (shared st))) eqn:Hex.
    + intros _. right. destruct p; exec_inv Hx;
        cbn [shared trace emit upd_conn wg_add close_exit add_conn set_crashed];
        rewrite ?worker_exited_snoc, ?Hex; done.
    + assert (accepted c (trace (shared st)) = true →
              1 ≤ total (workers c) (threads st)) as I'
        by (intros Ha; destruct (I Ha); [done|congruence]).
      clear I.
      destruct p; exec_inv Hx;
        cbn [shared trace emit upd_conn wg_add close_exit add_conn set_crashed];
        rewrite ?worker_exited_snoc, ?accepted_snoc, ?Hex;
        cbn [total foldr]; intros Ha;
        try (by live_solve).
      all: destruct (decide (c = c0)) as [<-|Hne];
        [close_panic_absurd (Hcb a)|live_solve].
  - destruct H as (p & [[p' s'] sp] & Hp & Hx & ->). intros c. specialize (I c).
    pose proof (total_lookup_le (workers c) _ _ _ (workers_nonneg c) Hp) as Hle.
    unfold commit. cbn [threads shared fst snd].
    rewrite total_app, (total_insert _ _ _ _ _ Hp).
    destruct (worker_exited c (trace (shared st))) eqn:Hex.
    + intros _. right. destruct p; exec_inv Hx;
        cbn [shared trace emit upd_conn wg_add close_exit add_conn set_crashed];
        rewrite ?worker_exited_snoc, ?Hex; done.
    + assert (accepted c (trace (shared st)) = true →
              1 ≤ total (workers c) (threads st)) as I'
        by (intros Ha; destruct (I Ha); [done|congruence]).
      clear I.
      destruct p; exec_inv Hx;
        cbn [shared trace emit upd_conn wg_add close_exit add_conn set_crashed];
        rewrite ?worker_exited_snoc, ?accepted_snoc, ?Hex;
        cbn [total foldr]; intros Ha;
        try (by live_solve).
  - destruct H as (ps & pr & ps' & pr' & s' & Hs & Hr & Hx & ->). intros c.
    specialize (I c). cbn [threads shared].
    assert (<[t:=ps']> (threads st) !! r = Some pr) as Hr'.
    { rewrite list_lookup_insert_ne; [done|]. intros ->.
      apply handoff_ne in Hx. congruence. }
    rewrite (total_insert _ _ _ _ _ Hr'), (total_insert _ _ _ _ _ Hs).
    apply exec_handoff_inv in Hx
      as [(c0 & p & x & -> & -> & ? & ? & -> & -> & ->)
         |(c0 & p & tm & x & -> & -> & ? & ? & -> & -> & ->)];
      cbn [trace emit]; rewrite ?worker_exited_snoc, ?accepted_snoc;
      cbn [is_accepted is_worker_exit]; rewrite ?orb_false_r;
      try (rewrite bool_decide_eq_false_2 by done; rewrite orb_false_r);
      intros Ha; (destruct (I Ha) as [I'|I']; [left|by right]);
      unfold workers in *; simpl; lia.
  - destruct H as (p & Hp & ->). intros c. specialize (I c).
    cbn [threads shared trace emit]. rewrite worker_exited_snoc, accepted_snoc.
    cbn [is_accepted is_worker_exit].
    rewrite ?bool_decide_eq_false_2 by done. rewrite !orb_false_r.
    intros Ha. destruct (I Ha) as [I'|I']; [left|by right].
    rewrite total_app. pose proof (total_nonneg (workers c) [p] (workers_nonneg c)).
    lia.
Qed.

Lemma LiveInv_reachable E st : reachable E st → LiveInv st.
Proof.
  induction 1 as [|st ch st' Hr IH Hs]; [done|]. by eapply LiveInv_step.
Qed.

Lemma worker_of_registered c p :
  worker_of c p = true → registered p = true ∧ leaving p = false.
Proof. destruct p; simpl; try done; destruct a; done. Qed.

(** X6.  When [Stop] returns, every connection the accepted-hook accepted has
    been closed: all six statements of its teardown have run, the
    closed-hook fired exactly once, and the socket is closed. *)
Theorem Stop_closes_connections E sched st c :
  run E NewServer sched = Some st →
  stop_returned (trace (shared st)) = true →
  accepted c (trace (shared st)) = true →
  torn c (trace (shared st)) = teardown c ∧
  count_OnClose c (trace (shared st)) = 1%nat ∧
  ∃ x, conns (shared st) !! c = Some x ∧ IsClosed x = true ∧ rawClosed x = true.
Proof.
  intros Hrun Hs Ha. apply run_reachable in Hrun.
  destruct (StopRetInv_reachable _ _ Hrun) as [Hst _].
  destruct (Hst Hs) as [_ Hl].
  assert (close_returned c (trace (shared st)) = true) as Hret.
  { destruct (ExitedInv_reachable _ _ Hrun c) as [_ Hex]. apply Hex.
    destruct (LiveInv_reachable _ _ Hrun c Ha) as [Hw|Hw]; [exfalso|done].
    rewrite total_all_zero in Hw; [lia|]. intros t q Hq. unfold workers.
    destruct (worker_of c q) eqn:Hwq; [|done].
    apply worker_of_registered in Hwq as [Hreg Hlv].
    rewrite (Hl _ _ Hq Hreg) in Hlv. done. }
  destruct (teardown_once E st c Hrun) as (_ & _ & Hcl).
  destruct (Hcl Hret) as [Ht Hn]. split_and!; [done|done|].
  destruct (closed_after_return _ _ _ Hrun Hret) as (x & ? & ? & _ & _ & _ & ?).
  eauto.
Qed.

Lemma Stop_closes_connections_witness :
  run demoEnv NewServer (sched_stop ++ [Run 5]) = Some st_stopped ∧
  stop_returned (trace (shared st_stopped)) = true ∧
  accepted 0 (trace (shared st_stopped)) = true ∧
  torn 0 (trace (shared st_stopped)) = teardown 0 ∧
  count_OnClose 0 (trace (shared st_stopped)) = 1%nat ∧
  ∃ x, conns (shared st_stopped) !! 0%nat = Some x ∧ IsClosed x = true ∧
    rawClosed x = true.
Proof.
  do 3 (split; [vm_compute; reflexivity|]).
  apply (Stop_closes_connections demoEnv (sched_stop ++ [Run 5]) st_stopped 0);
    vm_compute; reflexivity.
Defined.

(** ** Events that come after others *)

Arguments preceded : simpl never.
Arguments closing : simpl never.
Arguments count_OnConnect : simpl never.

Lemma preceded_from_app A B tr evs : ∀ seen,
  preceded_from A B seen (tr ++ evs) =
  preceded_from A B seen tr && preceded_from A B (seen || existsb A tr) evs.
Proof.
  induction tr as [|e tr IH]; intros seen; simpl.
  - by rewrite orb_false_r.
  - rewrite IH, orb_assoc, andb_assoc. done.
Qed.

Lemma preceded_snoc A B tr e :
  preceded A B (tr ++ [e]) = preceded A B tr && (negb (B e) || existsb A tr).
Proof.
  unfold preceded. rewrite preceded_from_app. simpl. by rewrite andb_true_r.
Qed.

Lemma preceded_split A B tr1 e tr2 :
  preceded A B (tr1 ++ e :: tr2) = true → B e = true → existsb A tr1 = true.
Proof.
  unfold preceded. rewrite preceded_from_app. simpl.
  intros [_ [H _]%andb_true_iff]%andb_true_iff He. by rewrite He in H.
Qed.

Lemma existsb_In (A : event → bool) tr : existsb A tr = true → ∃ e, In e tr ∧ A e = true.
Proof. apply existsb_exists. Qed.

(** ** The closing error *)

Lemma closing_snoc c tr e : closing c (tr ++ [e]) = closing c tr || is_flag c e.
Proof. unfold closing. rewrite existsb_app. simpl. by rewrite orb_false_r. Qed.

Lemma closing_torn c tr : (1 ≤ length (torn c tr))%nat →
  torn c tr = take (length (torn c tr)) (teardown c) → closing c tr = true.
Proof.
  intros Hn Ht. unfold closing. apply existsb_exists. exists (EvStoreFlag c).
  split; [|by apply bool_decide_eq_true].
  assert (In (EvStoreFlag c) (torn c tr)) as Hin.
  { rewrite Ht. destruct (length (torn c tr)); [lia|]. by left. }
  unfold torn in Hin. by apply List.filter_In in Hin as [? _].
Qed.

Lemma closing_state E st c x :
  reachable E st → conns (shared st) !! c = Some x →
  IsClosed x = true ∨ closeChan x = true ∨ Chan.closed (packetSendChan x) = true →
  closing c (trace (shared st)) = true.
Proof.
  intros Hr Hx Hcl. destruct (OnceInv_reachable _ _ Hr c) as [Ht Ho].
  simpl in Ht, Ho. rewrite Hx in Ho. destruct Ho as (Hs & _).
  apply closing_torn; [|done].
  destruct Hs as (_ & _ & [H1 _] & [H2 _] & [H3 _] & _).
  unfold IsClosed in Hcl. destruct Hcl as [Hcl|[Hcl|Hcl]].
  - apply H1. by apply Z.eqb_eq.
  - specialize (H2 Hcl). lia.
  - specialize (H3 Hcl). lia.
Qed.

Lemma send_panic_closed ch p :
  Chan.send ch p = Chan.SendPanic → Chan.closed ch = true.
Proof. unfold Chan.send. by repeat case_match. Qed.

Ltac closing_solve :=
  simpl in *;
  repeat match goal with
         | a : after |- _ => destruct a
         | |- _ → _ => intro
         end;
  simpl in *; repeat case_bool_decide; simplify_eq;
  rewrite ?orb_true_r, ?orb_false_r, ?andb_true_r;
  try done; eauto.

Lemma ClosingInv_step E st ch st' :
  reachable E st → ClosingInv st → step E st ch = Some st' → ClosingInv st'.
Proof.
  intros Hreach I H. apply step_inv in H as [Hc H].
  destruct ch as [t|t k|t r|f].
  - destruct H as (p & [[p' s'] sp] & Hp & Hx & ->). intros c.
    destruct (I c) as [Hpre Hrec].
    pose proof (closing_state E st c) as Hflag.
    assert (∀ q, p = WriteRecover c q → closing c (trace (shared st)) = true)
      as Hme by (intros q ->; eauto).
    unfold commit. cbn [threads shared fst snd].
    destruct p; exec_inv Hx;
      cbn [shared trace conns emit upd_conn wg_add close_exit add_conn set_crashed];
      rewrite ?preceded_snoc, ?closing_snoc, ?Hpre; cbn [is_closing_ret negb];
      try (split;
       [ try done; repeat case_bool_decide; simplify_eq; simpl; try done;
         try (by eapply Hflag; eauto); try (by eapply Hme)
       | intros i q' Hq;
         eapply (threads_commit_pred
                   (λ q, ∀ q0, q = WriteRecover c q0 → _ = true)) in Hq;
         [exact Hq| |closing_solve|repeat constructor; closing_solve|done];
         intros j q Hj q0 ->; rewrite (Hrec _ _ Hj); closing_solve ]).
    + (* the send panics: the queue is closed *)
      split; [done|]. intros i q' Hq.
      eapply (threads_commit_pred
                (λ q, ∀ q0, q = WriteRecover c q0 → _ = true)) in Hq;
        [exact Hq|by (intros j q Hj q0 ->; rewrite (Hrec _ _ Hj))
        | |constructor|done].
      intros q0 [= <- <-]. eapply Hflag; [done|done|].
      right; right. by eapply send_panic_closed.
    + (* the recovered panic returns the closing error *)
      fold (closing c (trace (shared st) ++ [EvLog (LogWriteRecover c)])).
      rewrite closing_snoc. by rewrite (Hme _ eq_refl).
  - destruct H as (p & [[p' s'] sp] & Hp & Hx & ->). intros c.
    destruct (I c) as [Hpre Hrec].
    pose proof (closing_state E st c) as Hflag.
    unfold commit. cbn [threads shared fst snd].
    destruct p; exec_inv Hx;
      cbn [shared trace conns emit upd_conn wg_add close_exit add_conn set_crashed];
      rewrite ?preceded_snoc, ?closing_snoc, ?Hpre; cbn [is_closing_ret negb];
      try (split;
       [ try done; repeat case_bool_decide; simplify_eq; simpl; try done;
         try (by eapply Hflag; eauto)
       | intros i q' Hq;
         eapply (threads_commit_pred
                   (λ q, ∀ q0, q = WriteRecover c q0 → _ = true)) in Hq;
         [exact Hq| |closing_solve|repeat constructor; closing_solve|done];
         intros j q Hj q0 ->; rewrite ?(Hrec _ _ Hj); closing_solve ]).
    split; [done|]. intros i q' Hq.
    eapply (threads_commit_pred
              (λ q, ∀ q0, q = WriteRecover c q0 → _ = true)) in Hq;
      [exact Hq|by (intros j q Hj q0 ->; rewrite (Hrec _ _ Hj))
      | |constructor|done].
    intros q0 [= <- <-]. eapply Hflag; [done|done|].
    right; right. by eapply send_panic_closed.
  - destruct H as (ps & pr & ps' & pr' & s' & Hs & Hr & Hx & ->). intros c.
    destruct (I c) as [Hpre Hrec]. cbn [threads shared].
    pose proof (handoff_ne _ _ _ _ _ Hx) as Hne.
    assert (t ≠ r) as Htr by (intros ->; congruence).
    apply exec_handoff_inv in Hx
      as [(c0 & p & x & -> & -> & ? & ? & -> & -> & ->)
         |(c0 & p & tm & x & -> & -> & ? & ? & -> & -> & ->)];
      cbn [trace emit]; rewrite ?preceded_snoc, ?closing_snoc, ?Hpre;
      simpl; rewrite ?orb_false_r; (split; [done|]);
      intros i q Hq;
      (apply lookup_handoff in Hq as [[_ Hq]|[[_ Hq]|(_ & _ & Hq)]];
       [done|done|by eauto|done]).
  - destruct H as (p & Hp & ->). intros c. destruct (I c) as [Hpre Hrec].
    cbn [threads shared trace emit].
    rewrite preceded_snoc, closing_snoc, Hpre. simpl. rewrite orb_false_r.
    split; [done|].
    intros i q Hq. apply lookup_app_Some in Hq as [Hq|[_ Hq]]; [by eauto|].
    apply list_lookup_singleton_Some in Hq as [_ Hq].
    destruct f; simpl in Hp; simplify_option_eq.
Qed.

Lemma ClosingInv_reachable E st : reachable E st → ClosingInv st.
Proof.
  induction 1 as [|st ch st' Hr IH Hs]; [|by eapply ClosingInv_step].
  intros c. split; [done|]. intros t p H. simpl in H. by rewrite lookup_nil in H.
Qed.

(** X7.  AsyncWritePacket returns the closing error — from its [IsClosed]
    check, from its [closeChan] case, or from the recovered panic of a
    send on the closed queue — only when the teardown of the connection
    has begun: the closed flag was stored before the call returns. *)
Theorem closing_error_after_flag E sched st tr1 t c p tr2 :
  run E NewServer sched = Some st →
  trace (shared st) = tr1 ++ EvWriteRet t c p (Some ErrConnClosing) :: tr2 →
  In (EvStoreFlag c) tr1.
Proof.
  intros Hrun Htr. apply run_reachable in Hrun.
  destruct (ClosingInv_reachable _ _ Hrun c) as [Hpre _]. rewrite Htr in Hpre.
  apply preceded_split in Hpre; [|simpl; by apply bool_decide_eq_true].
  apply existsb_exists in Hpre as (e & Hin & ->%bool_decide_eq_true). done.
Qed.

Lemma closing_error_after_flag_witness :
  run demoEnv NewServer sched_write_closing = Some st_write_closing ∧
  trace (shared st_write_closing) =
    take 7 (trace (shared st_write_closing))
    ++ EvWriteRet 6 0 (mkPacket 7) (Some ErrConnClosing) :: [] ∧
  In (EvStoreFlag 0) (take 7 (trace (shared st_write_closing))).
Proof.
  do 2 (split; [vm_compute; reflexivity|]).
  apply (closing_error_after_flag demoEnv sched_write_closing st_write_closing
           (take 7 (trace (shared st_write_closing))) 6 0 (mkPacket 7) []);
    vm_compute; reflexivity.
Defined.

(** ** The accepted-hook comes first *)

Lemma count_OnConnect_snoc c tr e :
  count_OnConnect c (tr ++ [e]) =
  (count_OnConnect c tr + (if is_connect c e then 1 else 0))%nat.
Proof.
  unfold count_OnConnect. rewrite List.filter_app, length_app. simpl.
  by destruct (is_connect c e).
Qed.

Lemma at_connect_nonneg c q : 0 ≤ at_connect c q.
Proof. destruct q; simpl; repeat case_match; lia. Qed.

Lemma made_alter c (f : Conn → Conn) c0 l : made c (alter f c0 l) = made c l.
Proof. unfold made. by rewrite length_alter. Qed.

Lemma made_le c l : 0 ≤ made c l ≤ 1.
Proof. unfold made. case_bool_decide; lia. Qed.

Lemma made_snoc c l x :
  made c (l ++ [x]) = made c l + (if bool_decide (c = length l) then 1 else 0).
Proof.
  unfold made. rewrite length_app. simpl. repeat case_bool_decide; lia.
Qed.

Lemma made_new l : made (length l) l = 0.
Proof. unfold made. case_bool_decide; lia. Qed.

Lemma ConnectInv_step E st ch st' :
  ConnectInv st → step E st ch = Some st' → ConnectInv st'.
Proof.
  intros I H. apply step_inv in H as [Hc H].
  destruct ch as [t|t k|t r|f].
  - destruct H as (p & [[p' s'] sp] & Hp & Hx & ->). intros c. specialize (I c).
    pose proof (total_lookup_le (at_connect c) _ _ _ (at_connect_nonneg c) Hp) as Hle.
    pose proof (made_new (conns (shared st))) as Hnew.
    unfold commit. cbn [threads shared fst snd].
    rewrite total_app, (total_insert _ _ _ _ _ Hp).
    destruct p; exec_inv Hx;
      cbn [shared trace conns emit upd_conn wg_add close_exit add_conn set_crashed
             total foldr at_connect] in *;
      rewrite ?count_OnConnect_snoc, ?made_alter, ?made_snoc; cbn [is_connect];
      try match goal with a : after |- _ => destruct a end; simpl;
      repeat case_bool_decide; simplify_eq; lia.
  - destruct H as (p & [[p' s'] sp] & Hp & Hx & ->). intros c. specialize (I c).
    pose proof (total_lookup_le (at_connect c) _ _ _ (at_connect_nonneg c) Hp) as Hle.
    unfold commit. cbn [threads shared fst snd].
    rewrite total_app, (total_insert _ _ _ _ _ Hp).
    destruct p; exec_inv Hx;
      cbn [shared trace conns emit upd_conn wg_add close_exit add_conn set_crashed
             total foldr at_connect] in *;
      rewrite ?count_OnConnect_snoc, ?made_alter; cbn [is_connect];
      repeat case_bool_decide; simplify_eq;
      try match goal with w : loop |- _ => destruct w end;
      rewrite ?made_alter; lia.
  - destruct H as (ps & pr & ps' & pr' & s' & Hs & Hr & Hx & ->). intros c.
    specialize (I c). cbn [threads shared].
    assert (<[t:=ps']> (threads st) !! r = Some pr) as Hr'.
    { rewrite list_lookup_insert_ne; [done|]. intros ->.
      apply handoff_ne in Hx. congruence. }
    rewrite (total_insert _ _ _ _ _ Hr'), (total_insert _ _ _ _ _ Hs).
    apply exec_handoff_inv in Hx
      as [(c0 & p & x & -> & -> & ? & ? & -> & -> & ->)
         |(c0 & p & tm & x & -> & -> & ? & ? & -> & -> & ->)];
      cbn [trace emit conns]; rewrite ?count_OnConnect_snoc; simpl; lia.
  - destruct H as (p & Hp & ->). intros c. specialize (I c).
    cbn [threads shared trace emit conns]. rewrite count_OnConnect_snoc, total_app.
    assert (at_connect c p = 0) as Hz
      by (destruct f; simpl in Hp; simplify_option_eq; done).
    simpl. rewrite Hz. lia.
Qed.

Lemma ConnectInv_reachable E st : reachable E st → ConnectInv st.
Proof.
  induction 1 as [|st ch st' Hr IH Hs]; [by intros c|].
  eapply ConnectInv_step; eauto.
Qed.

Ltac accept_solve :=
  unfold is_accepted in *; simpl in *;
  repeat match goal with
         | a : after |- _ => destruct a
         | w : loop |- _ => destruct w
         | |- _ → _ => intro
         end;
  simpl in *; repeat case_bool_decide; simplify_eq;
  rewrite ?orb_true_r, ?orb_false_r, ?andb_true_r;
  try done; eauto.

Lemma AcceptInv_step E st ch st' :
  AcceptInv st → step E st ch = Some st' → AcceptInv st'.
Proof.
  intros I H. apply step_inv in H as [Hc H].
  destruct ch as [t|t k|t r|f].
  - destruct H as (p & [[p' s'] sp] & Hp & Hx & ->). intros c.
    destruct (I c) as [Hpre Hw].
    assert (worker_of c p = true → accepted c (trace (shared st)) = true)
      as Hme by eauto.
    unfold commit. cbn [threads shared fst snd]. fold (accepted c) in *.
    destruct p; exec_inv Hx;
      cbn [shared trace conns emit upd_conn wg_add close_exit add_conn set_crashed];
      rewrite ?preceded_snoc, ?existsb_app, ?preceded_snoc, ?accepted_snoc, ?Hpre;
      cbn [is_worker_event negb existsb];
      (split;
       [ try done; fold (accepted c (trace (shared st)));
         repeat case_bool_decide; simplify_eq; simpl;
         rewrite ?orb_false_r; try done; try (by rewrite Hme by accept_solve)
       | apply (threads_commit_pred (λ q, worker_of c q = true → _ = true));
         [ intros j q Hj Hq; rewrite (Hw _ _ Hj Hq); accept_solve
         | accept_solve; rewrite ?Hme by accept_solve; accept_solve
         | repeat constructor; accept_solve; rewrite ?Hme by accept_solve;
           accept_solve ] ]).
  - destruct H as (p & [[p' s'] sp] & Hp & Hx & ->). intros c.
    destruct (I c) as [Hpre Hw].
    assert (worker_of c p = true → accepted c (trace (shared st)) = true)
      as Hme by eauto.
    unfold commit. cbn [threads shared fst snd].
    destruct p; exec_inv Hx;
      cbn [shared trace conns emit upd_conn wg_add close_exit add_conn set_crashed];
      rewrite ?preceded_snoc, ?accepted_snoc, ?Hpre;
      cbn [is_worker_event negb];
      (split;
       [ try done
       | apply (threads_commit_pred (λ q, worker_of c q = true → _ = true));
         [ intros j q Hj Hq; rewrite (Hw _ _ Hj Hq); accept_solve
         | accept_solve; rewrite ?Hme by accept_solve; accept_solve
         | repeat constructor; accept_solve ] ]).
  - destruct H as (ps & pr & ps' & pr' & s' & Hs & Hr & Hx & ->). intros c.
    destruct (I c) as [Hpre Hw]. cbn [threads shared].
    pose proof (handoff_ne _ _ _ _ _ Hx) as Hne.
    assert (t ≠ r) as Htr by (intros ->; congruence).
    pose proof (Hw _ _ Hs) as Hws. pose proof (Hw _ _ Hr) as Hwr.
    apply exec_handoff_inv in Hx
      as [(c0 & p & x & -> & -> & ? & ? & -> & -> & ->)
         |(c0 & p & tm & x & -> & -> & ? & ? & -> & -> & ->)];
      cbn [trace emit]; rewrite ?preceded_snoc, ?accepted_snoc, ?Hpre;
      cbn [is_worker_event is_accepted negb]; rewrite ?orb_false_r;
      (split; [done|]);
      intros i q Hq;
      (apply lookup_handoff in Hq as [[-> ->]|[[-> ->]|(_ & _ & Hq)]];
       [ | |by eauto|done]); accept_solve.
  - destruct H as (p & Hp & ->). intros c. destruct (I c) as [Hpre Hw].
    cbn [threads shared trace emit].
    rewrite preceded_snoc, accepted_snoc, Hpre. simpl. rewrite orb_false_r.
    split; [done|].
    intros i q Hq. apply lookup_app_Some in Hq as [Hq|[_ Hq]]; [by eauto|].
    apply list_lookup_singleton_Some in Hq as [_ <-].
    destruct f; simpl in Hp; simplify_option_eq; done.
Qed.

Lemma AcceptInv_reachable E st : reachable E st → AcceptInv st.
Proof.
  induction 1 as [|st ch st' Hr IH Hs]; [|by eapply AcceptInv_step].
  intros c. split; [done|]. intros t p H. simpl in H. by rewrite lookup_nil in H.
Qed.

(** X8.  The accepted-hook is invoked at most once on a connection, and no
    worker of the connection reads, writes, dispatches, logs or exits
    before the hook has returned true. *)
Theorem OnConnect_comes_first E sched st c :
  run E NewServer sched = Some st →
  (count_OnConnect c (trace (shared st)) ≤ 1)%nat ∧
  ∀ tr1 e tr2, trace (shared st) = tr1 ++ e :: tr2 →
    is_worker_event c e = true → In (EvOnConnect c true) tr1.
Proof.
  intros Hrun. apply run_reachable in Hrun. split.
  - pose proof (ConnectInv_reachable _ _ Hrun c) as Hc.
    pose proof (total_nonneg (at_connect c) (threads st) (at_connect_nonneg c)).
    pose proof (made_le c (conns (shared st))). lia.
  - intros tr1 e tr2 Htr He.
    destruct (AcceptInv_reachable _ _ Hrun c) as [Hpre _]. rewrite Htr in Hpre.
    apply preceded_split in Hpre; [|done].
    apply existsb_exists in Hpre as (e' & Hin & ->%bool_decide_eq_true). done.
Qed.

Lemma OnConnect_comes_first_witness :
  run demoEnv NewServer sched_reader_ahead = Some st_reader_ahead ∧
  (count_OnConnect 0 (trace (shared st_reader_ahead)) ≤ 1)%nat ∧
  ∀ tr1 e tr2, trace (shared st_reader_ahead) = tr1 ++ e :: tr2 →
    is_worker_event 0 e = true → In (EvOnConnect 0 true) tr1.
Proof.
  split; [vm_compute; reflexivity|].
  apply (OnConnect_comes_first demoEnv sched_reader_ahead st_reader_ahead 0).
  vm_compute; reflexivity.
Defined.

(** ** One worker of each kind per connection *)

Lemma token_nonneg w c q : 0 ≤ token w c q.
Proof. unfold token. destruct q; simpl; repeat case_match; lia. Qed.

Lemma made_lt c l : (c < length l)%nat → made c l = 1.
Proof. intros. unfold made. by rewrite bool_decide_eq_true_2. Qed.

Lemma made_1 c l : made c l = 1 → (c < length l)%nat.
Proof. unfold made. case_bool_decide; [done|lia]. Qed.

Arguments token : simpl never.

Ltac token_solve :=
  unfold token in *; simpl;
  repeat match goal with
         | a : after |- _ => destruct a
         | w : loop |- _ => destruct w
         end;
  simpl in *; repeat case_bool_decide; simplify_eq; simpl in *; try lia.

(** A statement passes the token on, or drops it; it makes one only with
    the connection. *)
Lemma exec_run_token E t p s p' s' sp w c :
  exec_run E t p s = Some (p', s', sp) →
  token w c p' + total (token w c) sp + made c (conns s)
  ≤ token w c p + made c (conns s') ∧
  made c (conns s) ≤ made c (conns s').
Proof.
  intros Hx. pose proof (made_new (conns s)) as Hnew.
  destruct p; exec_inv Hx;
    cbn [conns emit upd_conn wg_add close_exit add_conn set_crashed total foldr];
    rewrite ?made_alter, ?made_snoc;
    first [ split; lia | token_solve ].
Qed.

Lemma exec_pick_token k t p s p' s' sp w c :
  exec_pick k t p s = Some (p', s', sp) →
  token w c p' + total (token w c) sp ≤ token w c p ∧
  made c (conns s') = made c (conns s).
Proof.
  intros Hx.
  destruct p; exec_inv Hx;
    cbn [conns emit upd_conn wg_add close_exit add_conn set_crashed total foldr];
    rewrite ?made_alter;
    first [ split; [lia|done]
          | repeat match goal with w : loop |- _ => destruct w end;
            simpl; rewrite ?made_alter; unfold token; simpl;
            repeat case_bool_decide; simplify_eq; simpl; split; (lia || done) ].
Qed.

Lemma exec_handoff_token t ps pr s ps' pr' s' w c :
  exec_handoff t ps pr s = Some (ps', pr', s') →
  token w c ps' + token w c pr' ≤ token w c ps + token w c pr ∧
  conns s' = conns s.
Proof.
  intros Hx. apply exec_handoff_inv in Hx
    as [(c0 & p & x & -> & -> & ? & ? & -> & -> & ->)
       |(c0 & p & tm & x & -> & -> & ? & ? & -> & -> & ->)];
    (split; [|done]); token_solve.
Qed.

Lemma entry_token f s p w c : entry f s = Some p → token w c p = 0.
Proof. unfold token. destruct f; simpl; intros; simplify_option_eq; done. Qed.

Lemma TokenInv_step E st ch st' :
  TokenInv st → step E st ch = Some st' → TokenInv st'.
Proof.
  intros I H. apply step_inv in H as [Hc H].
  destruct ch as [t|t k|t r|f].
  - destruct H as (p & [[p' s'] sp] & Hp & Hx & ->). intros w c.
    specialize (I w c). unfold commit. cbn [threads shared fst snd].
    rewrite total_app, (total_insert _ _ _ _ _ Hp).
    destruct (exec_run_token _ _ _ _ _ _ _ w c Hx). lia.
  - destruct H as (p & [[p' s'] sp] & Hp & Hx & ->). intros w c.
    specialize (I w c). unfold commit. cbn [threads shared fst snd].
    rewrite total_app, (total_insert _ _ _ _ _ Hp).
    destruct (exec_pick_token _ _ _ _ _ _ _ w c Hx) as [? ->]. lia.
  - destruct H as (ps & pr & ps' & pr' & s' & Hs & Hr & Hx & ->). intros w c.
    specialize (I w c). cbn [threads shared].
    assert (<[t:=ps']> (threads st) !! r = Some pr) as Hr'.
    { rewrite list_lookup_insert_ne; [done|]. intros ->.
      apply handoff_ne in Hx. congruence. }
    rewrite (total_insert _ _ _ _ _ Hr'), (total_insert _ _ _ _ _ Hs).
    destruct (exec_handoff_token _ _ _ _ _ _ _ w c Hx) as [? ->]. lia.
  - destruct H as (p & Hp & ->). intros w c. specialize (I w c).
    cbn [threads shared conns emit]. rewrite total_app.
    simpl. rewrite (entry_token _ _ _ w c Hp). lia.
Qed.

Lemma TokenInv_reachable E st : reachable E st → TokenInv st.
Proof.
  induction 1 as [|st ch st' Hr IH Hs]; [by intros w c|].
  eapply TokenInv_step; eauto.
Qed.

(** The thread that holds the token of a worker is the only one. *)
Lemma token_unique E st w c t p i q :
  reachable E st → threads st !! t = Some p → token w c p = 1 →
  threads st !! i = Some q → i ≠ t → token w c q = 0.
Proof.
  intros Hr Hp Htp Hq Hne.
  pose proof (TokenInv_reachable _ _ Hr w c) as Hle.
  pose proof (made_le c (conns (shared st))) as Hm.
  assert (<[t:=Exited]> (threads st) !! i = Some q) as Hq'
    by (by rewrite list_lookup_insert_ne).
  pose proof (total_lookup_le (token w c) _ _ _ (token_nonneg w c) Hq') as Hqle.
  rewrite (total_insert _ _ _ _ _ Hp) in Hqle.
  change (token w c Exited) with 0 in Hqle.
  pose proof (token_nonneg w c q). lia.
Qed.

(** ** Calls that fail *)

Lemma after_first_app A tr evs :
  after_first A (tr ++ evs) =
  if existsb A tr then after_first A tr ++ evs else after_first A evs.
Proof.
  induction tr as [|e0 tr IH]; simpl; [done|].
  destruct (A e0); simpl; [done|]. apply IH.
Qed.

Ltac call_solve :=
  cbn [existsb after_first forallb is_call is_fail orb andb negb];
  first
    [ done
    | solve [split_and!; done]
    | solve [repeat match goal with w : loop |- _ => destruct w end;
             unfold token;
             cbn [existsb after_first forallb is_call is_fail orb andb negb
                    total foldr];
             repeat case_bool_decide; simplify_eq;
             cbn [existsb after_first forallb is_call is_fail orb andb negb];
             split_and!; intros; simplify_eq; simpl; (done || lia)] ].

(** The calls a statement makes: thread [t] makes the call of worker [w]
    on connection [c] only if it holds the token, and leaves the loop if
    the call fails. *)
Lemma exec_run_call E t p s p' s' sp w c :
  exec_run E t p s = Some (p', s', sp) →
  ∃ evs, trace s' = trace s ++ evs ∧
    (existsb (is_call w c) evs = true → token w c p = 1 ∧ pc_conn p = Some c) ∧
    (existsb (is_fail w c) evs = true →
     token w c p' + total (token w c) sp = 0) ∧
    forallb (λ e, negb (is_call w c e)) (after_first (is_fail w c) evs) = true.
Proof.
  intros Hx.
  destruct p; exec_inv Hx;
    cbn [trace emit upd_conn wg_add close_exit add_conn set_crashed];
    first [ by (exists []; rewrite app_nil_r)
          | eexists [_]; split; [reflexivity|]; call_solve
          | eexists [_; _]; split; [by rewrite <-app_assoc|]; call_solve ].
Qed.

Lemma exec_pick_call k t p s p' s' sp w c :
  exec_pick k t p s = Some (p', s', sp) →
  ∃ evs, trace s' = trace s ++ evs ∧ existsb (is_call w c) evs = false ∧
    after_first (is_fail w c) evs = [].
Proof.
  intros Hx.
  destruct p; exec_inv Hx;
    cbn [trace emit upd_conn wg_add close_exit add_conn set_crashed];
    first [ by (exists []; rewrite app_nil_r)
          | eexists [_]; split; [reflexivity|];
            by destruct w ].
Qed.

Lemma existsb_fail_call w c evs :
  existsb (is_fail w c) evs = true → existsb (is_call w c) evs = true.
Proof.
  induction evs as [|e evs IH]; simpl; [done|].
  intros [He|He]%orb_true_iff; [|by rewrite IH, orb_true_r].
  destruct w, e; simpl in *; try done; rewrite ?He; try done;
    repeat case_match; simplify_eq; by rewrite ?He.
Qed.

Lemma forallb_no_call w c evs :
  existsb (is_call w c) evs = false →
  forallb (λ e, negb (is_call w c e)) evs = true.
Proof.
  induction evs as [|e evs IH]; simpl; [done|].
  intros [-> ?]%orb_false_iff. simpl. auto.
Qed.

Lemma FailInv_events st (tr' : list event) ths' l' w c evs :
  FailInv st →
  tr' = trace (shared st) ++ evs →
  (existsb (is_call w c) evs = true → failed w c (trace (shared st)) = false) →
  (failed w c (trace (shared st)) = true →
   total (token w c) ths' ≤ 0 ∧ made c l' = 1) →
  (existsb (is_fail w c) evs = true →
   total (token w c) ths' ≤ 0 ∧ made c l' = 1) →
  forallb (λ e, negb (is_call w c e)) (after_first (is_fail w c) evs) = true →
  (failed w c tr' = true → total (token w c) ths' ≤ 0 ∧ made c l' = 1) ∧
  forallb (λ e, negb (is_call w c e)) (after_first (is_fail w c) tr') = true.
Proof.
  intros I -> Hcall Hold Hnew Hq. destruct (I w c) as [_ Iq]. unfold failed in *.
  rewrite existsb_app, after_first_app. split.
  - intros [H|H]%orb_true_iff; auto.
  - destruct (existsb (is_fail w c) (trace (shared st))) eqn:Hf; [|done].
    rewrite forallb_app, Iq. simpl. apply forallb_no_call.
    destruct (existsb (is_call w c) evs); [|done]. by specialize (Hcall eq_refl).
Qed.

Lemma FailInv_step E st ch st' :
  reachable E st → FailInv st → step E st ch = Some st' → FailInv st'.
Proof.
  intros Hreach I H. pose proof (Wf_reachable _ _ Hreach) as Hwf.
  pose proof (TokenInv_reachable _ _ Hreach) as Htok.
  apply step_inv in H as [Hc H].
  destruct ch as [t|t k|t r|f].
  - destruct H as (p & [[p' s'] sp] & Hp & Hx & ->). intros w c.
    destruct (I w c) as [If Iq]. specialize (Htok w c).
    pose proof (total_lookup_le (token w c) _ _ _ (token_nonneg w c) Hp) as Hle.
    pose proof (made_le c (conns (shared st))) as Hm.
    pose proof (made_le c (conns s')) as Hm'.
    destruct (exec_run_token _ _ _ _ _ _ _ w c Hx) as [Ht Hmm].
    destruct (exec_run_call _ _ _ _ _ _ _ w c Hx) as (evs & Htr & Hcl & Hfl & Hq).
    unfold commit. cbn [threads shared fst snd].
    eapply FailInv_events; [exact I|exact Htr| | | |exact Hq];
      rewrite ?total_app, ?(total_insert _ _ _ _ _ Hp).
    + intros Hcall. destruct (Hcl Hcall) as [Htp _].
      destruct (failed w c (trace (shared st))); [|done].
      destruct (If eq_refl). lia.
    + intros Hf. destruct (If Hf). lia.
    + intros Hfail. specialize (Hfl Hfail).
      destruct (Hcl (existsb_fail_call _ _ _ Hfail)) as [Htp Hpc].
      pose proof (made_lt _ _ (Hwf _ _ Hp _ Hpc)). lia.
  - destruct H as (p & [[p' s'] sp] & Hp & Hx & ->). intros w c.
    destruct (I w c) as [If Iq]. specialize (Htok w c).
    pose proof (total_lookup_le (token w c) _ _ _ (token_nonneg w c) Hp) as Hle.
    destruct (exec_pick_token _ _ _ _ _ _ _ w c Hx) as [Ht Hmm].
    destruct (exec_pick_call _ _ _ _ _ _ _ w c Hx) as (evs & Htr & Hcl & Hq).
    unfold commit. cbn [threads shared fst snd].
    eapply FailInv_events; [exact I|exact Htr| | | |by rewrite Hq];
      rewrite ?total_app, ?(total_insert _ _ _ _ _ Hp), ?Hmm.
    + by rewrite Hcl.
    + intros Hf. destruct (If Hf). lia.
    + intros Hfail. apply existsb_fail_call in Hfail. congruence.
  - destruct H as (ps & pr & ps' & pr' & s' & Hs & Hr & Hx & ->). intros w c.
    destruct (I w c) as [If Iq]. cbn [threads shared].
    assert (<[t:=ps']> (threads st) !! r = Some pr) as Hr'.
    { rewrite list_lookup_insert_ne; [done|]. intros ->.
      apply handoff_ne in Hx. congruence. }
    destruct (exec_handoff_token _ _ _ _ _ _ _ w c Hx) as [Ht Hcs].
    assert (∃ evs, trace s' = trace (shared st) ++ evs ∧
              existsb (is_call w c) evs = false ∧
              after_first (is_fail w c) evs = []) as (evs & Htr & Hcl & Hq).
    { apply exec_handoff_inv in Hx
        as [(c0 & p & x & -> & -> & ? & ? & -> & -> & ->)
           |(c0 & p & tm & x & -> & -> & ? & ? & -> & -> & ->)].
      - exists []. by rewrite app_nil_r.
      - eexists [_]. split; [done|]. by destruct w. }
    eapply FailInv_events; [exact I|exact Htr| | | |by rewrite Hq];
      rewrite ?(total_insert _ _ _ _ _ Hr'), ?(total_insert _ _ _ _ _ Hs), ?Hcs.
    + by rewrite Hcl.
    + intros Hf. destruct (If Hf). lia.
    + intros Hfail. apply existsb_fail_call in Hfail. congruence.
  - destruct H as (p & Hp & ->). intros w c. destruct (I w c) as [If Iq].
    cbn [threads shared conns emit trace].
    eapply FailInv_events; [exact I|reflexivity| | | |];
      rewrite ?total_app; cbn [total foldr];
      rewrite ?(entry_token _ _ _ w c Hp).
    + by destruct w.
    + intros Hf. destruct (If Hf). lia.
    + by destruct w.
    + by destruct w.
Qed.

Lemma FailInv_reachable E st : reachable E st → FailInv st.
Proof.
  induction 1 as [|st ch st' Hr IH Hs]; [by intros w c|].
  eapply FailInv_step; eauto.
Qed.

(** X9.  A worker leaves its loop at the first call that fails: once the
    message-hook has returned false on a connection it is not invoked on
    it again; no call of ReadPacket follows one that returned an error;
    no call of Write follows one that returned an error. *)
Theorem failing_call_is_last E sched st w c tr1 e tr2 :
  run E NewServer sched = Some st →
  trace (shared st) = tr1 ++ e :: tr2 →
  is_fail w c e = true →
  Forall (λ e', is_call w c e' = false) tr2.
Proof.
  intros Hrun Htr He. apply run_reachable in Hrun.
  destruct (FailInv_reachable _ _ Hrun w c) as [_ Hq].
  destruct (after_first_split (is_fail w c) _ _ _ _ Htr He) as (tr0 & Hsp).
  rewrite Hsp, forallb_app in Hq. apply andb_true_iff in Hq as [_ Hq].
  apply List.Forall_forall. intros e' He'.
  rewrite forallb_forall in Hq. apply negb_true_iff. by apply Hq.
Qed.

Lemma failing_call_is_last_witness :
  run refuseEnv NewServer sched_refuse = Some st_refused ∧
  trace (shared st_refused) =
    take 7 (trace (shared st_refused))
    ++ EvOnMessage 0 (mkPacket 2) false :: drop 8 (trace (shared st_refused)) ∧
  is_fail HandleLoop 0 (EvOnMessage 0 (mkPacket 2) false) = true ∧
  (9 ≤ length (drop 8 (trace (shared st_refused))))%nat ∧
  Forall (λ e', is_call HandleLoop 0 e' = false) (drop 8 (trace (shared st_refused))).
Proof.
  do 3 (split; [vm_compute; reflexivity|]). split; [vm_compute; lia|].
  apply (failing_call_is_last refuseEnv sched_refuse st_refused HandleLoop 0
           (take 7 (trace (shared st_refused)))
           (EvOnMessage 0 (mkPacket 2) false));
    vm_compute; reflexivity.
Defined.

(** ** Packets in order *)

Arguments outputs : simpl never.
Arguments inputs : simpl never.
Arguments cloc : simpl never.
Arguments ploc : simpl never.
Arguments FifoAt : simpl never.

Lemma outputs_app w c tr evs : outputs w c (tr ++ evs) = outputs w c tr ++ outputs w c evs.
Proof. apply omap_app. Qed.

Lemma inputs_app w c tr evs : inputs w c (tr ++ evs) = inputs w c tr ++ inputs w c evs.
Proof. apply omap_app. Qed.

Lemma output_conn w c e p : output w c e = Some p → ev_conn e = Some c.
Proof.
  destruct w, e; simpl; try done; repeat case_match; try done;
    case_bool_decide; by simplify_eq.
Qed.

Lemma input_conn w c e p : input w c e = Some p → ev_conn e = Some c.
Proof.
  destruct w, e; simpl; try done; repeat case_match; try done;
    case_bool_decide; by simplify_eq.
Qed.

Lemma outputs_frame w c evs :
  Forall (λ e, ev_conn e ≠ Some c) evs → outputs w c evs = [].
Proof.
  induction 1 as [|e evs He _ IH]; [done|]. unfold outputs in *. simpl.
  destruct (output w c e) eqn:Ho; [|done]. by apply output_conn in Ho.
Qed.

Lemma inputs_frame w c evs :
  Forall (λ e, ev_conn e ≠ Some c) evs → inputs w c evs = [].
Proof.
  induction 1 as [|e evs He _ IH]; [done|]. unfold inputs in *. simpl.
  destruct (input w c e) eqn:Ho; [|done]. by apply input_conn in Ho.
Qed.

Lemma token_conn w c p : token w c p = 1 → pc_conn p = Some c.
Proof.
  unfold token. destruct p; simpl; try lia; repeat case_bool_decide;
    simpl; intros; simplify_eq; try done; try lia;
    destruct (starts _ _); simpl in *; lia.
Qed.

Lemma cloc_other w c b wh p : pc_conn p ≠ Some c → cloc w c b wh p.
Proof.
  intros Hne. unfold cloc.
  destruct p; try (by intros Ht%token_conn); simpl in Hne; intros; congruence.
Qed.

Lemma ploc_other w c hr p : pc_conn p ≠ Some c → ploc w c hr p.
Proof.
  intros Hne. unfold ploc. destruct w; [|done..].
  destruct p; try (by intros Ht%token_conn); simpl in Hne; intros; congruence.
Qed.

Lemma cloc_notoken w c b wh p : token w c p = 0 → cloc w c b wh p.
Proof.
  unfold cloc, token. destruct p; try lia; simpl; intros H; intros; simplify_eq;
    rewrite ?bool_decide_eq_true_2 in H by done; simpl in H; lia.
Qed.

Lemma ploc_notoken w c hr p : token ReadLoop c p = 0 → ploc w c hr p.
Proof.
  unfold ploc, token. destruct w; [|done..].
  destruct p; try lia; simpl; intros H; intros; simplify_eq;
    rewrite ?bool_decide_eq_true_2 in H by done; simpl in H; lia.
Qed.

Lemma cloc_closed w c b b' wh p :
  (b = true → b' = true) → cloc w c b wh p → cloc w c b' wh p.
Proof.
  unfold cloc. destruct p; try done. intros Hb H ? ? Hb'. apply H; try done.
  destruct b; [|done]. by rewrite Hb in Hb'.
Qed.

(** A statement of a thread that works on another connection leaves the
    connection, and the events about it, as they are. *)
Lemma exec_run_frame E t p s p' s' sp c x :
  exec_run E t p s = Some (p', s', sp) →
  pc_conn p ≠ Some c → conns s !! c = Some x →
  conns s' !! c = Some x ∧ pc_conn p' ≠ Some c ∧
  Forall (λ q, pc_conn q ≠ Some c) sp.
Proof.
  intros Hx Hne Hc. pose proof (lookup_lt_Some _ _ _ Hc) as Hlt.
  destruct p; exec_inv Hx;
    cbn [conns emit upd_conn wg_add close_exit add_conn set_crashed pc_conn] in *;
    rewrite ?list_lookup_alter_ne by congruence;
    rewrite ?lookup_app_l by done;
    try match goal with a : after |- _ => destruct a end;
    try match goal with w : loop |- _ => destruct w end;
    (split_and!; [done|simpl; congruence || (intros [=]; lia)
                 |repeat constructor; simpl; congruence]).
Qed.

Lemma exec_run_frame_ev E t p s p' s' sp c :
  exec_run E t p s = Some (p', s', sp) → pc_conn p ≠ Some c →
  ∃ evs, trace s' = trace s ++ evs ∧ Forall (λ e, ev_conn e ≠ Some c) evs.
Proof.
  intros Hx Hne.
  destruct p; exec_inv Hx;
    cbn [trace emit upd_conn wg_add close_exit add_conn set_crashed pc_conn] in *;
    first [ by (exists []; rewrite app_nil_r)
          | eexists [_]; split; [reflexivity|];
            repeat constructor; simpl; try destruct panicked; simpl; congruence
          | eexists [_; _]; split; [by rewrite <-app_assoc|];
            repeat constructor; simpl; congruence ].
Qed.

Lemma exec_pick_frame k t p s p' s' sp c x :
  exec_pick k t p s = Some (p', s', sp) →
  pc_conn p ≠ Some c → conns s !! c = Some x →
  conns s' !! c = Some x ∧ pc_conn p' ≠ Some c ∧ sp = [] ∧
  ∃ evs, trace s' = trace s ++ evs ∧ Forall (λ e, ev_conn e ≠ Some c) evs.
Proof.
  intros Hx Hne Hc.
  destruct p; exec_inv Hx;
    cbn [trace conns emit upd_conn wg_add close_exit add_conn set_crashed pc_conn] in *;
    rewrite ?list_lookup_alter_ne by congruence;
    (split_and!; [done|simpl; congruence|done|]);
    first [ by (exists []; rewrite app_nil_r)
          | eexists [_]; split; [reflexivity|];
            repeat constructor; simpl; congruence ].
Qed.

Lemma exec_pick_frame_ev k t p s p' s' sp c :
  exec_pick k t p s = Some (p', s', sp) → pc_conn p ≠ Some c →
  ∃ evs, trace s' = trace s ++ evs ∧ Forall (λ e, ev_conn e ≠ Some c) evs.
Proof.
  intros Hx Hne.
  destruct p; exec_inv Hx;
    cbn [trace conns emit upd_conn wg_add close_exit add_conn set_crashed pc_conn] in *;
    first [ by (exists []; rewrite app_nil_r)
          | eexists [_]; split; [reflexivity|];
            repeat constructor; simpl; congruence ].
Qed.

Lemma outputs_snoc w c tr e : outputs w c (tr ++ [e]) = outputs w c tr ++ outputs w c [e].
Proof. apply outputs_app. Qed.

Lemma inputs_snoc w c tr e : inputs w c (tr ++ [e]) = inputs w c tr ++ inputs w c [e].
Proof. apply inputs_app. Qed.

Lemma outputs_one w c e :
  outputs w c [e] = match output w c e with Some p => [p] | None => [] end.
Proof. unfold outputs. simpl. by destruct (output w c e). Qed.

Lemma inputs_one w c e :
  inputs w c [e] = match input w c e with Some p => [p] | None => [] end.
Proof. unfold inputs. simpl. by destruct (input w c e). Qed.

Lemma close_buf ch ch' : Chan.close ch = Some ch' → Chan.buf ch' = Chan.buf ch.
Proof. unfold Chan.close. case_match; intros; by simplify_eq. Qed.

Lemma send_buf ch p ch' :
  Chan.send ch p = Chan.SendOk ch' → Chan.buf ch' = Chan.buf ch ++ [p].
Proof. unfold Chan.send. repeat case_match; intros; by simplify_eq. Qed.

Lemma bool_decide_refl `{EqDecision A} (a : A) : bool_decide (a = a) = true.
Proof. by apply bool_decide_eq_true_2. Qed.

Ltac fifo_prep Hcl Hpl Heq :=
  repeat match goal with
         | a : after |- _ => destruct a
         | w : loop |- _ => destruct w
         end;
  try done;
  unfold cloc, ploc, token, IsClosed in Hcl, Hpl;
  rewrite ?bool_decide_refl in Hcl; rewrite ?bool_decide_refl in Hpl;
  cbn in Hcl, Hpl, Heq;
  repeat case_bool_decide; simplify_eq; cbn in Hcl, Hpl;
  repeat match goal with
         | H : ?x = ?x → _ |- _ => specialize (H eq_refl)
         | H : ?P → _, H' : ?P |- _ => specialize (H H')
         | H : 0 = 1 → _ |- _ => clear H
         | H : Chan.close _ = Some _ |- _ => apply close_buf in H
         | H : Chan.send _ _ = Chan.SendOk _ |- _ => apply send_buf in H
         end.

Ltac fifo_goal :=
  unfold cloc, ploc, token, IsClosed;
  rewrite ?bool_decide_refl;
  cbn;
  rewrite ?outputs_snoc, ?inputs_snoc, ?outputs_one, ?inputs_one;
  cbn [output input];
  rewrite ?bool_decide_refl;
  intros; repeat case_bool_decide; simplify_eq; unfold IsClosed in *; cbn in *;
  repeat match goal with
         | H : _ = [] |- _ => rewrite H in *; clear H
         | H : _ = [_] |- _ => rewrite H in *; clear H
         | H : Chan.buf _ = _ |- _ => rewrite H in *; clear H
         | H : ?P → _, H' : ?P |- _ => specialize (H H')
         end;
  rewrite ?app_nil_r, <-?app_assoc in *; cbn [app] in *;
  first
    [ done
    | congruence
    | lia
    | match goal with
      | H : _ = inputs _ _ _ |- _ =>
          rewrite <-H; rewrite ?app_nil_r, <-?app_assoc; cbn [app]; done
      end ].

Ltac fifo_with wh' hr' :=
  eexists _, wh', hr';
  split; [reflexivity|];
  split; [by (unfold IsClosed; cbn)|];
  split; [solve [fifo_goal]|];
  split; [solve [fifo_goal]|];
  split; [solve [fifo_goal]|];
  split; [solve [fifo_goal]|];
  split; [solve [repeat constructor; fifo_goal]|];
  split; [first [by left|by (right; unfold token; rewrite ?bool_decide_refl)]|];
  split; [first [by left|by (right; unfold token; rewrite ?bool_decide_refl)]|];
  split; first [done|by (cbn; lia)].

(** A statement of a thread that works on the connection. *)
Lemma exec_run_fifo E t p s p' s' sp w c x wh hr :
  w ≠ ReadLoop →
  exec_run E t p s = Some (p', s', sp) →
  pc_conn p = Some c → conns s !! c = Some x →
  cloc w c (IsClosed x) wh p → ploc w c hr p → (w = WriteLoop → hr = []) →
  outputs w c (trace s) ++ wh ++ Chan.buf (queue_of w x) ++ hr = inputs w c (trace s) →
  (length wh ≤ 1)%nat → (length hr ≤ 1)%nat →
  ∃ x' wh' hr', conns s' !! c = Some x' ∧
    (IsClosed x = true → IsClosed x' = true) ∧
    outputs w c (trace s') ++ wh' ++ Chan.buf (queue_of w x') ++ hr'
    = inputs w c (trace s') ∧
    (w = WriteLoop → hr' = []) ∧
    cloc w c (IsClosed x') wh' p' ∧ ploc w c hr' p' ∧
    Forall (λ q, cloc w c (IsClosed x') wh' q ∧ ploc w c hr' q) sp ∧
    (wh' = wh ∨ token w c p = 1) ∧ (hr' = hr ∨ token ReadLoop c p = 1) ∧
    (length wh' ≤ 1)%nat ∧ (length hr' ≤ 1)%nat.
Proof.
  intros Hw Hx Hpc Hc Hcl Hpl Hhr Heq Lw Lh.
  destruct p; simpl in Hpc; simplify_eq; exec_inv Hx;
    cbn [trace conns emit upd_conn wg_add close_exit add_conn set_crashed];
    rewrite ?list_lookup_alter_eq, ?Hc; cbn [fmap option_fmap option_map];
    fifo_prep Hcl Hpl Heq;
    first [ by fifo_with wh hr
          | by fifo_with (@nil Packet) hr
          | by fifo_with wh (@nil Packet)
          | match goal with
            | |- context [EvReadPacket _ (Some ?q)] => by fifo_with wh [q]
            end
          | idtac ].
Qed.

Lemma recv_buf ch q ch' :
  Chan.recv ch = Chan.RecvOk q ch' →
  Chan.buf ch = q :: Chan.buf ch' ∨
  (Chan.buf ch = [] ∧ Chan.closed ch = true ∧ ch' = ch).
Proof.
  unfold Chan.recv. destruct (Chan.buf ch) eqn:Hb; [destruct (Chan.closed ch)|];
    intros; simplify_eq; auto.
Qed.

(** A case of a select that a thread that works on the connection takes. *)
Lemma exec_pick_fifo k t p s p' s' sp w c x wh hr :
  w ≠ ReadLoop →
  exec_pick k t p s = Some (p', s', sp) →
  pc_conn p = Some c → conns s !! c = Some x →
  (Chan.closed (queue_of w x) = true → IsClosed x = true) →
  cloc w c (IsClosed x) wh p → ploc w c hr p → (w = WriteLoop → hr = []) →
  outputs w c (trace s) ++ wh ++ Chan.buf (queue_of w x) ++ hr = inputs w c (trace s) →
  (length wh ≤ 1)%nat → (length hr ≤ 1)%nat →
  ∃ x' wh' hr', conns s' !! c = Some x' ∧
    (IsClosed x = true → IsClosed x' = true) ∧
    outputs w c (trace s') ++ wh' ++ Chan.buf (queue_of w x') ++ hr'
    = inputs w c (trace s') ∧
    (w = WriteLoop → hr' = []) ∧
    cloc w c (IsClosed x') wh' p' ∧ ploc w c hr' p' ∧
    Forall (λ q, cloc w c (IsClosed x') wh' q ∧ ploc w c hr' q) sp ∧
    (wh' = wh ∨ token w c p = 1) ∧ (hr' = hr ∨ token ReadLoop c p = 1) ∧
    (length wh' ≤ 1)%nat ∧ (length hr' ≤ 1)%nat.
Proof.
  intros Hw Hx Hpc Hc Hclosed Hcl Hpl Hhr Heq Lw Lh.
  destruct p; simpl in Hpc; simplify_eq; exec_inv Hx;
    cbn [trace conns emit upd_conn wg_add close_exit add_conn set_crashed];
    rewrite ?list_lookup_alter_eq, ?Hc; cbn [fmap option_fmap option_map];
    try match goal with
        | H : Chan.recv _ = Chan.RecvOk _ _ |- _ =>
            apply recv_buf in H as [H|(H & ? & ->)]
        end;
    fifo_prep Hcl Hpl Heq;
    first [ by fifo_with wh hr
          | match goal with
            | |- context [LoopCheck _ _ ?q] => by fifo_with [q] hr
            end
          ].
Qed.

Lemma threads_commit_ne (P : pc → Prop) (ths : list pc) t p' sp :
  (∀ i q, i ≠ t → ths !! i = Some q → P q) → P p' → Forall P sp →
  ∀ i q, (<[t:=p']> ths ++ sp) !! i = Some q → P q.
Proof.
  intros Hths Hp Hsp i q Hq. apply lookup_app_Some in Hq as [Hq|[_ Hq]].
  - destruct (decide (i = t)) as [->|?].
    + pose proof (lookup_lt_Some _ _ _ Hq) as Hlt. rewrite length_insert in Hlt.
      rewrite list_lookup_insert_eq in Hq by done. by injection Hq as <-.
    + rewrite list_lookup_insert_ne in Hq by done. eauto.
  - eapply (proj1 (list.Forall_forall _ _) Hsp). by eapply list_elem_of_lookup_2.
Qed.

Lemma queue_closed_IsClosed E st w c x :
  reachable E st → conns (shared st) !! c = Some x →
  Chan.closed (queue_of w x) = true → IsClosed x = true.
Proof.
  intros Hr Hx Hcl. destruct (OnceInv_reachable _ _ Hr c) as [_ Ho].
  simpl in Ho. rewrite Hx in Ho. destruct Ho as (Hs & _).
  destruct Hs as (_ & _ & [_ Hf] & _ & [Hsc _] & [Hrc _] & _). unfold IsClosed.
  rewrite Hf; [done|]. destruct w; simpl in Hcl;
    [specialize (Hrc Hcl)|specialize (Hrc Hcl)|specialize (Hsc Hcl)]; lia.
Qed.

Ltac loc_norm H :=
  unfold cloc, ploc, token in H; rewrite ?bool_decide_refl in H; cbn in H.

Ltac loc_goal :=
  unfold cloc, ploc, token; rewrite ?bool_decide_refl;
  rewrite ?bool_decide_eq_false_2 by done; cbn;
  split_and!; try done; auto; intros; simplify_eq; try lia.

(** A handoff between two threads. *)
Lemma exec_handoff_fifo t ps pr s ps' pr' s' w c x wh hr :
  w ≠ ReadLoop →
  exec_handoff t ps pr s = Some (ps', pr', s') →
  conns s !! c = Some x →
  cloc w c (IsClosed x) wh ps → ploc w c hr ps →
  cloc w c (IsClosed x) wh pr → ploc w c hr pr → (w = WriteLoop → hr = []) →
  outputs w c (trace s) ++ wh ++ Chan.buf (queue_of w x) ++ hr = inputs w c (trace s) →
  (length wh ≤ 1)%nat → (length hr ≤ 1)%nat →
  conns s' = conns s ∧
  ∃ wh' hr',
    outputs w c (trace s') ++ wh' ++ Chan.buf (queue_of w x) ++ hr'
    = inputs w c (trace s') ∧
    (w = WriteLoop → hr' = []) ∧
    cloc w c (IsClosed x) wh' ps' ∧ ploc w c hr' ps' ∧
    cloc w c (IsClosed x) wh' pr' ∧ ploc w c hr' pr' ∧
    (wh' = wh ∨ token w c pr = 1) ∧ (hr' = hr ∨ token ReadLoop c ps = 1) ∧
    (length wh' ≤ 1)%nat ∧ (length hr' ≤ 1)%nat.
Proof.
  intros Hw Hx Hc Hcs Hps Hcr Hpr Hhr Heq Lw Lh.
  apply exec_handoff_inv in Hx
    as [(c0 & q & x0 & -> & -> & Hc0 & Hh & -> & -> & ->)
       |(c0 & q & tm & x0 & -> & -> & Hc0 & Hh & -> & -> & ->)];
    (split; [done|]); cbn [trace emit];
    apply andb_true_iff in Hh as [_ Hb%bool_decide_eq_true];
    rewrite ?outputs_snoc, ?inputs_snoc, ?outputs_one, ?inputs_one;
    (destruct (decide (c0 = c)) as [->|Hne];
     [rewrite Hc in Hc0; injection Hc0 as <-|]);
    (destruct w; [|done|]); cbn [output input];
    rewrite ?bool_decide_refl; rewrite ?bool_decide_eq_false_2 by done;
    rewrite ?app_nil_r.
  - (* the read worker hands a packet to the dispatch worker *)
    loc_norm Hps. loc_norm Hcr.
    cbn in Heq. rewrite (Hps eq_refl), (Hcr eq_refl), Hb in Heq. cbn in Heq.
    exists [q], []. cbn. rewrite Hb, app_nil_r. loc_goal.
  - exists wh, hr. loc_goal.
  - exists wh, hr. loc_goal.
  - exists wh, hr. loc_goal.
  - (* the event is no input of the dispatch worker *)
    exists wh, hr. loc_goal.
  - (* a caller of AsyncWritePacket hands its packet to the write worker *)
    loc_norm Hcr.
    cbn in Heq. rewrite (Hhr eq_refl), (Hcr eq_refl), Hb in Heq. cbn in Heq.
    rewrite app_nil_r in Heq.
    exists [q], []. cbn. rewrite Hb, !app_nil_r. rewrite <-Heq. loc_goal.
    left. by rewrite (Hhr eq_refl).
  - exists wh, hr. loc_goal.
  - exists wh, hr. loc_goal.
Qed.

Lemma exec_run_new E t p s p' s' sp c x' :
  exec_run E t p s = Some (p', s', sp) →
  conns s !! c = None → conns s' !! c = Some x' →
  x' = newConn E ∧ p' = DoOnConnect c ∧ sp = [] ∧ trace s' = trace s.
Proof.
  intros Hx Hc Hc'.
  destruct p; exec_inv Hx;
    cbn [trace conns emit upd_conn wg_add close_exit add_conn set_crashed] in Hc' |- *;
    rewrite ?list_lookup_alter in Hc'; repeat case_decide; simplify_eq;
    rewrite ?Hc in Hc'; try done; try congruence.
  apply lookup_app_Some in Hc' as [Hc'|[Hge Hc']]; [congruence|].
  apply list_lookup_singleton_Some in Hc' as [Hz <-].
  apply lookup_ge_None in Hc.
  assert (c = length (conns s)) as -> by lia. done.
Qed.

Lemma FifoAt_new E w c (ths : list pc) t tr :
  outputs w c tr = [] → inputs w c tr = [] →
  (∀ i q, i ≠ t → ths !! i = Some q → pc_conn q ≠ Some c) →
  FifoAt w c (Some (newConn E)) tr (<[t:=DoOnConnect c]> ths ++ []).
Proof.
  intros Ho Hi Hths. exists [], []. rewrite Ho, Hi. split_and!.
  - by destruct w.
  - done.
  - simpl. lia.
  - simpl. lia.
  - apply threads_commit_ne; [|split|constructor].
    + intros i q Hne Hq. split; [apply cloc_other|apply ploc_other]; eauto.
    + by unfold cloc.
    + unfold ploc. by destruct w.
Qed.

Lemma FifoInv_step E st ch st' :
  reachable E st → FifoInv st → step E st ch = Some st' → FifoInv st'.
Proof.
  intros Hreach I H. pose proof (Wf_reachable _ _ Hreach) as Hwf.
  apply step_inv in H as [Hc H].
  destruct ch as [t|t k|t r|f].
  - destruct H as (p & [[p' s'] sp] & Hp & Hx & ->). intros w c Hw.
    specialize (I w c Hw). unfold commit. cbn [threads shared fst snd].
    destruct (conns (shared st) !! c) as [x|] eqn:Hcx.
    + destruct I as (wh & hr & Heq & Hhr & Lw & Lh & Hth).
      destruct (decide (pc_conn p = Some c)) as [Hpc|Hpc].
      * destruct (Hth _ _ Hp) as [Hcl Hpl].
        destruct (exec_run_fifo _ _ _ _ _ _ _ _ _ _ _ _ Hw Hx Hpc Hcx Hcl Hpl Hhr Heq Lw Lh)
          as (x' & wh' & hr' & Hcx' & Hmono & Heq' & Hhr' & Hcl' & Hpl' & Hsp
              & Hwh & Hhr2 & Lw' & Lh').
        rewrite Hcx'. exists wh', hr'. split_and!; [done|done|done|done|].
        apply threads_commit_ne; [|done|done].
        intros i q Hne Hq. destruct (Hth _ _ Hq) as [Hcq Hpq]. split.
        -- destruct Hwh as [->|Htok]; [by eapply cloc_closed|].
           apply cloc_notoken.
           exact (token_unique E st w c t p i q Hreach Hp Htok Hq Hne).
        -- destruct Hhr2 as [->|Htok]; [done|].
           apply ploc_notoken.
           exact (token_unique E st ReadLoop c t p i q Hreach Hp Htok Hq Hne).
      * destruct (exec_run_frame _ _ _ _ _ _ _ _ _ Hx Hpc Hcx) as (Hcx' & Hpc' & Hsp).
        destruct (exec_run_frame_ev _ _ _ _ _ _ _ _ Hx Hpc) as (evs & Htr & Hev).
        rewrite Hcx'. exists wh, hr.
        rewrite Htr, outputs_app, inputs_app, (outputs_frame w c evs Hev),
          (inputs_frame w c evs Hev).
        rewrite !app_nil_r. split_and!; [done|done|done|done|].
        apply threads_commit_ne.
        -- intros. by eapply Hth.
        -- split; [by apply cloc_other|by apply ploc_other].
        -- eapply List.Forall_impl; [|exact Hsp]. intros q Hq.
           split; [by apply cloc_other|by apply ploc_other].
    + destruct I as [Ho Hi].
      pose proof (proj1 (lookup_ge_None _ _) Hcx) as Hge.
      assert (∀ i q, threads st !! i = Some q → pc_conn q ≠ Some c) as Hno.
      { intros i q Hq Hqc. specialize (Hwf _ _ Hq _ Hqc). lia. }
      destruct (exec_run_frame_ev _ _ _ _ _ _ _ c Hx (Hno _ _ Hp))
        as (evs & Htr & Hev).
      destruct (conns s' !! c) as [x'|] eqn:Hcx'.
      * destruct (exec_run_new _ _ _ _ _ _ _ _ _ Hx Hcx Hcx') as (-> & -> & -> & ->).
        apply FifoAt_new; eauto.
      * unfold FifoAt.
        rewrite Htr, outputs_app, inputs_app, (outputs_frame w c evs Hev),
          (inputs_frame w c evs Hev), Ho, Hi. done.
  - destruct H as (p & [[p' s'] sp] & Hp & Hx & ->). intros w c Hw.
    specialize (I w c Hw). unfold commit. cbn [threads shared fst snd].
    destruct (conns (shared st) !! c) as [x|] eqn:Hcx.
    + destruct I as (wh & hr & Heq & Hhr & Lw & Lh & Hth).
      destruct (decide (pc_conn p = Some c)) as [Hpc|Hpc].
      * destruct (Hth _ _ Hp) as [Hcl Hpl].
        pose proof (queue_closed_IsClosed E st w c x Hreach Hcx) as Hclosed.
        destruct (exec_pick_fifo _ _ _ _ _ _ _ _ _ _ _ _ Hw Hx Hpc Hcx Hclosed Hcl Hpl
                    Hhr Heq Lw Lh)
          as (x' & wh' & hr' & Hcx' & Hmono & Heq' & Hhr' & Hcl' & Hpl' & Hsp
              & Hwh & Hhr2 & Lw' & Lh').
        rewrite Hcx'. exists wh', hr'. split_and!; [done|done|done|done|].
        apply threads_commit_ne; [|done|done].
        intros i q Hne Hq. destruct (Hth _ _ Hq) as [Hcq Hpq]. split.
        -- destruct Hwh as [->|Htok]; [by eapply cloc_closed|].
           apply cloc_notoken.
           exact (token_unique E st w c t p i q Hreach Hp Htok Hq Hne).
        -- destruct Hhr2 as [->|Htok]; [done|].
           apply ploc_notoken.
           exact (token_unique E st ReadLoop c t p i q Hreach Hp Htok Hq Hne).
      * destruct (exec_pick_frame _ _ _ _ _ _ _ _ _ Hx Hpc Hcx)
          as (Hcx' & Hpc' & Hsp0 & evs & Htr & Hev).
        rewrite Hcx'. exists wh, hr.
        rewrite Htr, outputs_app, inputs_app, (outputs_frame w c evs Hev),
          (inputs_frame w c evs Hev).
        rewrite !app_nil_r. split_and!; [done|done|done|done|].
        apply threads_commit_ne.
        -- intros. by eapply Hth.
        -- split; [by apply cloc_other|by apply ploc_other].
        -- rewrite Hsp0. constructor.
    + destruct I as [Ho Hi].
      pose proof (proj1 (lookup_ge_None _ _) Hcx) as Hge.
      assert (pc_conn p ≠ Some c) as Hpc.
      { intros Hqc. specialize (Hwf _ _ Hp _ Hqc). lia. }
      destruct (exec_pick_frame_ev _ _ _ _ _ _ _ c Hx Hpc) as (evs & Htr & Hev).
      pose proof (exec_pick_conns _ _ _ _ _ Hx) as Hlen. simpl in Hlen.
      rewrite (lookup_ge_None_2 (conns s') c) by lia. unfold FifoAt.
      rewrite Htr, outputs_app, inputs_app, (outputs_frame w c evs Hev),
        (inputs_frame w c evs Hev), Ho, Hi. done.
  - destruct H as (ps & pr & ps' & pr' & s' & Hs & Hr & Hx & ->). intros w c Hw.
    specialize (I w c Hw). cbn [threads shared].
    pose proof (handoff_ne _ _ _ _ _ Hx) as Hne.
    assert (t ≠ r) as Htr by (intros ->; congruence).
    destruct (conns (shared st) !! c) as [x|] eqn:Hcx.
    + destruct I as (wh & hr & Heq & Hhr & Lw & Lh & Hth).
      destruct (Hth _ _ Hs) as [Hcs Hps]. destruct (Hth _ _ Hr) as [Hcr Hpr].
      destruct (exec_handoff_fifo _ _ _ _ _ _ _ _ _ _ _ _ Hw Hx Hcx Hcs Hps Hcr Hpr
                  Hhr Heq Lw Lh)
        as (Hcs' & wh' & hr' & Heq' & Hhr' & Hcs2 & Hps2 & Hcr2 & Hpr2 & Hwh & Hhr2
            & Lw' & Lh').
      rewrite Hcs', Hcx. exists wh', hr'. split_and!; [done|done|done|done|].
      intros i q Hq.
      apply lookup_handoff in Hq as [[-> ->]|[[-> ->]|(Hit & Hir & Hq)]];
        [done|done| |done].
      destruct (Hth _ _ Hq) as [Hcq Hpq]. split.
      * destruct Hwh as [->|Htok]; [done|].
        apply cloc_notoken.
        exact (token_unique E st w c r pr i q Hreach Hr Htok Hq Hir).
      * destruct Hhr2 as [->|Htok]; [done|].
        apply ploc_notoken.
        exact (token_unique E st ReadLoop c t ps i q Hreach Hs Htok Hq Hit).
    + destruct I as [Ho Hi].
      apply exec_handoff_inv in Hx
        as [(c0 & p & x & -> & -> & Hc0 & ? & -> & -> & ->)
           |(c0 & p & tm & x & -> & -> & Hc0 & ? & -> & -> & ->)];
        cbn [conns trace emit]; rewrite Hcx; [done|]. unfold FifoAt.
      rewrite outputs_snoc, inputs_snoc, outputs_one, inputs_one.
      assert (c0 ≠ c) by congruence.
      destruct w; cbn [output input];
        rewrite ?bool_decide_eq_false_2 by done; by rewrite ?app_nil_r.
  - destruct H as (p & Hp & ->). intros w c Hw. specialize (I w c Hw).
    cbn [threads shared conns emit trace].
    assert (outputs w c (trace (shared st) ++ [EvCall (length (threads st)) f])
            = outputs w c (trace (shared st)) ∧
            inputs w c (trace (shared st) ++ [EvCall (length (threads st)) f])
            = inputs w c (trace (shared st))) as [Ho' Hi'].
    { rewrite outputs_snoc, inputs_snoc, outputs_one, inputs_one.
      destruct w; cbn [output input]; by rewrite ?app_nil_r. }
    unfold FifoAt in *. rewrite Ho', Hi'.
    destruct (conns (shared st) !! c) as [x|] eqn:Hcx; [|done].
    destruct I as (wh & hr & Heq & Hhr & Lw & Lh & Hth). exists wh, hr.
    split_and!; [done|done|done|done|].
    intros i q Hq. apply lookup_app_Some in Hq as [Hq|[_ Hq]]; [by eauto|].
    apply list_lookup_singleton_Some in Hq as [_ <-].
    split; [apply cloc_notoken|apply ploc_notoken]; by eapply entry_token.
Qed.

Lemma FifoInv_reachable E st : reachable E st → FifoInv st.
Proof.
  induction 1 as [|st ch st' Hr IH Hs]; [by intros w c|].
  eapply FifoInv_step; eauto.
Qed.

(** X10.  The message-hook is invoked on the packets ReadPacket decoded, in the
    order they were decoded, each once and none skipped: the decoded
    packets are those passed to the hook, then at most one packet [wh]
    the dispatch worker has taken from the queue (it holds it, or has
    dropped it on finding the connection closed), then the inbound
    queue, then at most one packet [hr] the read worker has not queued.
    In particular the hook never sees the zero value a receive from the
    closed queue yields. *)
Theorem dispatch_in_order E sched st c x :
  run E NewServer sched = Some st →
  conns (shared st) !! c = Some x →
  ∃ wh hr, (length wh ≤ 1)%nat ∧ (length hr ≤ 1)%nat ∧
    inputs HandleLoop c (trace (shared st)) =
    outputs HandleLoop c (trace (shared st))
    ++ wh ++ Chan.buf (packetReceiveChan x) ++ hr.
Proof.
  intros Hrun Hc. apply run_reachable in Hrun.
  pose proof (FifoInv_reachable _ _ Hrun HandleLoop c) as I.
  unfold FifoAt in I. rewrite Hc in I.
  destruct I as (wh & hr & Heq & _ & Lw & Lh & _); [done|]. by exists wh, hr.
Qed.

Lemma dispatch_in_order_witness :
  run demoEnv NewServer sched_reader_ahead = Some st_reader_ahead ∧
  conns (shared st_reader_ahead) !! 0%nat = Some (conn_at st_reader_ahead 0) ∧
  inputs HandleLoop 0 (trace (shared st_reader_ahead)) = [mkPacket 1; mkPacket 2] ∧
  outputs HandleLoop 0 (trace (shared st_reader_ahead)) = [mkPacket 1] ∧
  Chan.buf (packetReceiveChan (conn_at st_reader_ahead 0)) = [mkPacket 2] ∧
  ∃ wh hr, (length wh ≤ 1)%nat ∧ (length hr ≤ 1)%nat ∧
    inputs HandleLoop 0 (trace (shared st_reader_ahead)) =
    outputs HandleLoop 0 (trace (shared st_reader_ahead))
    ++ wh ++ Chan.buf (packetReceiveChan (conn_at st_reader_ahead 0)) ++ hr.
Proof.
  do 5 (split; [vm_compute; reflexivity|]).
  apply (dispatch_in_order demoEnv sched_reader_ahead st_reader_ahead 0);
    vm_compute; reflexivity.
Defined.

(** X11.  The write worker passes to [conn.Write] the packets that calls of
    AsyncWritePacket have sent on the outbound queue, in the order of
    the sends, each once and none skipped: the packets sent are those
    written, then at most one packet [wh] the write worker has taken
    from the queue (it holds it, or has dropped it on finding the
    connection closed), then the outbound queue. *)
Theorem writes_in_order E sched st c x :
  run E NewServer sched = Some st →
  conns (shared st) !! c = Some x →
  ∃ wh, (length wh ≤ 1)%nat ∧
    inputs WriteLoop c (trace (shared st)) =
    outputs WriteLoop c (trace (shared st)) ++ wh ++ Chan.buf (packetSendChan x).
Proof.
  intros Hrun Hc. apply run_reachable in Hrun.
  pose proof (FifoInv_reachable _ _ Hrun WriteLoop c) as I.
  unfold FifoAt in I. rewrite Hc in I.
  destruct I as (wh & hr & Heq & Hhr & Lw & _); [done|]. exists wh.
  rewrite (Hhr eq_refl), app_nil_r in Heq. done.
Qed.

Lemma writes_in_order_witness :
  run demoEnv NewServer sched_one_written = Some st_one_written ∧
  conns (shared st_one_written) !! 0%nat = Some (conn_at st_one_written 0) ∧
  inputs WriteLoop 0 (trace (shared st_one_written)) = [mkPacket 10; mkPacket 11] ∧
  outputs WriteLoop 0 (trace (shared st_one_written)) = [mkPacket 10] ∧
  Chan.buf (packetSendChan (conn_at st_one_written 0)) = [mkPacket 11] ∧
  ∃ wh, (length wh ≤ 1)%nat ∧
    inputs WriteLoop 0 (trace (shared st_one_written)) =
    outputs WriteLoop 0 (trace (shared st_one_written))
    ++ wh ++ Chan.buf (packetSendChan (conn_at st_one_written 0)).
Proof.
  do 5 (split; [vm_compute; reflexivity|]).
  apply (writes_in_order demoEnv sched_one_written st_one_written 0);
    vm_compute; reflexivity.
Defined.

(** ** Zero-timeout writes never block *)

Lemma returns_step E n t c p st q q' s' evs0 :
  crashed (shared st) = false →
  threads st !! t = Some q → q ≠ Exited →
  exec_run E t q (shared st) = Some (q', s', []) →
  trace s' = trace (shared st) ++ evs0 →
  returns E n t c p (mkState s' (<[t:=q']> (threads st) ++ [])) →
  returns E (S n) t c p st.
Proof.
  intros Hc Hq Hne Hx Htr (m & st' & evs & r & Hm & Hf & Hc' & Hex & Htr').
  exists (S m), st', (evs0 ++ evs), r. split; [lia|].
  erewrite finish_run; [|done|exact Hq|done|exact Hx].
  split; [done|]. split; [done|]. split; [done|].
  rewrite Htr'. cbn [shared]. rewrite Htr. by rewrite <-!app_assoc.
Qed.

Lemma returns_now E n t c p st q r s0 evs0 :
  crashed (shared st) = false →
  threads st !! t = Some q → q ≠ Exited →
  exec_run E t q (shared st) = Some (Exited, emit (EvWriteRet t c p r) s0, []) →
  crashed s0 = false → trace s0 = trace (shared st) ++ evs0 →
  returns E (S n) t c p st.
Proof.
  intros Hc Hq Hne Hx Hc0 Htr.
  exists 1%nat, (mkState (emit (EvWriteRet t c p r) s0)
                   (<[t:=Exited]> (threads st) ++ [])), evs0, r.
  assert ((<[t:=Exited]> (threads st) ++ []) !! t = Some Exited) as Hex.
  { rewrite app_nil_r. apply list_lookup_insert_eq. by eapply lookup_lt_Some. }
  split; [lia|]. erewrite finish_run; [|done|exact Hq|done|exact Hx].
  rewrite finish_exited by done. split; [done|]. split; [done|]. split; [done|].
  cbn [shared trace emit]. rewrite Htr. by rewrite <-app_assoc.
Qed.

Lemma lookup_run_self (ths : list pc) t q q' :
  ths !! t = Some q → (<[t:=q']> ths ++ []) !! t = Some q'.
Proof.
  intros Hq. rewrite app_nil_r. apply list_lookup_insert_eq.
  by eapply lookup_lt_Some.
Qed.

(** X12.  A call [AsyncWritePacket(p, 0)] never blocks: at each of its
    statements, whatever the other threads have done, the calling thread
    can run, and it returns within three statements of its own — from the
    [IsClosed] check, from the select (which has a default case), or from
    the deferred recover. *)
Theorem zero_timeout_write_returns E sched st t c p q :
  run E NewServer sched = Some st →
  crashed (shared st) = false →
  threads st !! t = Some q →
  zero_write c p q = true →
  returns E 3 t c p st.
Proof.
  intros Hrun Hc Hq Hz. apply run_reachable in Hrun.
  pose proof (Wf_reachable _ _ Hrun _ _ Hq) as Hwf.
  assert (∀ st0 q0, crashed (shared st0) = false →
            threads st0 !! t = Some q0 →
            q0 = WriteBlockLog c p ∨ q0 = WriteRecover c p →
            returns E 1 t c p st0) as Hlog.
  { intros st0 q0 Hc0 Hq0 [->| ->].
    - eapply (returns_now E 0 t c p st0 _ _ (emit _ (shared st0)) [_]);
        [done|exact Hq0|done|reflexivity|done|done].
    - eapply (returns_now E 0 t c p st0 _ _ (emit _ (shared st0)) [_]);
        [done|exact Hq0|done|reflexivity|done|done]. }
  assert (∀ st0 x, crashed (shared st0) = false →
            threads st0 !! t = Some (WriteSelect c p 0) →
            conns (shared st0) !! c = Some x →
            returns E 2 t c p st0) as Hsel.
  { intros st0 x Hc0 Hq0 Hx0.
    destruct (Chan.send (packetSendChan x) p) as [|ch'|] eqn:Hsend.
    - eapply (returns_step E 1 t c p st0 _ (WriteRecover c p) (shared st0) []);
        [done|exact Hq0|done|cbn; rewrite Hx0; cbn; by rewrite Hsend
        |by rewrite app_nil_r|].
      eapply Hlog; [done|by eapply lookup_run_self|by right].
    - eapply (returns_now E 1 t c p st0 _ None
                (upd_conn c (set_packetSendChan ch') (shared st0)) []);
        [done|exact Hq0|done|cbn; rewrite Hx0; cbn; by rewrite Hsend
        |done|by rewrite app_nil_r].
    - eapply (returns_step E 1 t c p st0 _ (WriteBlockLog c p) (shared st0) []);
        [done|exact Hq0|done|cbn; rewrite Hx0; cbn; by rewrite Hsend
        |by rewrite app_nil_r|].
      eapply Hlog; [done|by eapply lookup_run_self|by left]. }
  destruct q; try done; simpl in Hz;
    repeat (apply andb_true_iff in Hz as [Hz ?]);
    repeat match goal with
           | H : bool_decide _ = true |- _ => apply bool_decide_eq_true in H
           | H : (_ =? _) = true |- _ => apply Z.eqb_eq in H
           end; simplify_eq.
  - (* the IsClosed check *)
    specialize (Hwf _ eq_refl). apply lookup_lt_is_Some in Hwf as [x Hx].
    destruct (IsClosed x) eqn:Hcl.
    + eapply (returns_now E 2 t c p st _ (Some ErrConnClosing) (shared st) []);
        [done|exact Hq|done|cbn; rewrite Hx; cbn; by rewrite Hcl
        |done|by rewrite app_nil_r].
    + eapply (returns_step E 2 t c p st _ (WriteSelect c p 0) (shared st) []);
        [done|exact Hq|done|cbn; rewrite Hx; cbn; by rewrite Hcl
        |by rewrite app_nil_r|].
      eapply Hsel; [done|by eapply lookup_run_self|exact Hx].
  - (* the select *)
    specialize (Hwf _ eq_refl). apply lookup_lt_is_Some in Hwf as [x Hx].
    destruct (Hsel st x Hc Hq Hx) as (m & st' & evs & r & Hm & H').
    exists m, st', evs, r. split; [lia|done].
  - destruct (Hlog st _ Hc Hq (or_introl eq_refl)) as (m & st' & evs & r & Hm & H').
    exists m, st', evs, r. split; [lia|done].
  - destruct (Hlog st _ Hc Hq (or_intror eq_refl)) as (m & st' & evs & r & Hm & H').
    exists m, st', evs, r. split; [lia|done].
Qed.

Lemma zero_timeout_write_returns_witness :
  run demoEnv NewServer sched_write_full = Some st_write_full ∧
  crashed (shared st_write_full) = false ∧
  threads st_write_full !! 7%nat = Some (WriteSelect 0 (mkPacket 12) 0) ∧
  zero_write 0 (mkPacket 12) (WriteSelect 0 (mkPacket 12) 0) = true ∧
  returns demoEnv 3 7 0 (mkPacket 12) st_write_full.
Proof.
  do 4 (split; [vm_compute; reflexivity|]).
  apply (zero_timeout_write_returns demoEnv sched_write_full st_write_full
           7 0 (mkPacket 12) (WriteSelect 0 (mkPacket 12) 0));
    vm_compute; reflexivity.
Defined.
